(** * Cognitive-grammar plugin: a shallow embedding of its bookkeeping engines

    The development follows the TypeScript sources of
    [packages/plugin-cognitive-grammar]: the truth-value helpers, the
    hypergraph store, the attention allocator, the pattern matcher, the
    inference engine and the kernel registry.

    Conventions of the embedding:
    - a JavaScript [number] is a rational ([Q]) where a function is read
      in exact arithmetic: results are compared with [==], non-finite
      values are outside that reading and the one division by a computed
      quantity is partial ([js_div]).  Where rounding or a non-finite
      value decides a property, the function is read in the arithmetic
      of the platform, IEEE 754 binary64 ([JsDouble],
      [AttentionDouble]), and a JSON-like value can be [NaN] or an
      infinity;
    - a JavaScript [Map] whose iteration order is observable is an
      association list in insertion order ([JsMap]); maps that are only
      looked up are [gmap]s;
    - mutation of [this] is explicit state passing, a thrown exception is a
      value of a sum type, and a reading of the clock is an argument;
    - an [async] method is one step where its callers run one after
      another ([Registry]) and is split at its [await] where activations
      can overlap ([RegistryAsync]); objects and arrays that can be
      shared are held by address ([RegistryAsync], [HypergraphShared]).

    Part I holds the definitions, Part II the lemmas and theorems. *)

From Stdlib Require Import QArith Qminmax Lqa Lia.
From Stdlib Require Import Ascii DecimalString.
From Stdlib Require Floats.
From stdpp Require Import gmap strings list.

#[local] Set Warnings "-register-all".
#[local] Set Warnings "-inexact-float".

Local Open Scope string_scope.

(** * Part I: the model *)

(** ** JavaScript numbers *)

Module JsNum.
Local Open Scope Q_scope.

(** [a > b], [a >= b], [a < b] on numbers. *)
Definition gtb (a b : Q) : bool := negb (Qle_bool a b).
Definition geb (a b : Q) : bool := Qle_bool b a.
Definition ltb (a b : Q) : bool := negb (Qle_bool b a).

(** [Math.min], [Math.max]. *)
Definition js_min (a b : Q) : Q := Qmin a b.
Definition js_max (a b : Q) : Q := Qmax a b.

(** [a / b]; a zero divisor gives NaN or an infinity, which the model
    does not represent. *)
Definition js_div (a b : Q) : option Q :=
  if Qeq_bool b 0 then None else Some (a / b).

(** [xs.reduce((sum, x) => sum + x, 0)]. *)
Definition sumQ (xs : list Q) : Q := fold_left Qplus xs 0.

(** A count as a number. *)
Definition of_nat (n : nat) : Q := inject_Z (Z.of_nat n).

(** A number that is only compared: a finite value, [NaN], or
    [Infinity] or [-Infinity].  Comparisons do not round. *)
Inductive number :=
| Finite (q : Q)
| NaN
| Infinity (negative : bool).

(** [count > limit] for a counter [count]: [false] against [NaN]. *)
Definition exceeds (count : nat) (limit : number) : bool :=
  match limit with
  | Finite q => gtb (of_nat count) q
  | NaN => false
  | Infinity negative => negative
  end.
End JsNum.

(** ** JavaScript [Map] with observable insertion order *)

Module JsMap.
Section Ops.
Context {V : Type}.

(** [m.get(k)]. *)
Fixpoint jm_get (k : string) (m : list (string * V)) : option V :=
  match m with
  | [] => None
  | (k', v) :: m' => if String.eqb k k' then Some v else jm_get k m'
  end.

(** [m.has(k)]. *)
Definition jm_has (k : string) (m : list (string * V)) : bool :=
  match jm_get k m with Some _ => true | None => false end.

(** [m.set(k, v)]: an existing key keeps its position, a new key goes
    last. *)
Fixpoint jm_set (k : string) (v : V) (m : list (string * V))
  : list (string * V) :=
  match m with
  | [] => [(k, v)]
  | (k', v') :: m' =>
      if String.eqb k k' then (k, v) :: m' else (k', v') :: jm_set k v m'
  end.

(** [m.delete(k)]. *)
Fixpoint jm_delete (k : string) (m : list (string * V))
  : list (string * V) :=
  match m with
  | [] => []
  | (k', v') :: m' =>
      if String.eqb k k' then m' else (k', v') :: jm_delete k m'
  end.

Definition jm_keys (m : list (string * V)) : list string := map fst m.
Definition jm_values (m : list (string * V)) : list V := map snd m.

(** Keys are unique in a [Map]. *)
Definition jm_wf (m : list (string * V)) : Prop := NoDup (jm_keys m).
End Ops.

(** [new Map(entries)] and the constructor loops that call [set] per
    entry. *)
Definition jm_of_entries {V} (es : list (string * V)) : list (string * V) :=
  fold_left (fun m e => jm_set e.1 e.2 m) es [].
End JsMap.

(** ** [Array.prototype.sort] with a comparator

    The sort is stable; an insertion sort gives the order every stable sort
    gives when the comparator is consistent. *)

Module JsSort.
Import JsNum.
Section Sort.
Context {A : Type} (cmp : A -> A -> Q).

(** [x] goes behind [y] exactly when [cmp x y > 0]. *)
Fixpoint insert_by (x : A) (l : list A) : list A :=
  match l with
  | [] => [x]
  | y :: l' => if gtb (cmp x y) 0 then y :: insert_by x l' else x :: l
  end.

Definition sort_by (l : list A) : list A := foldr insert_by [] l.

(** The result of a sort: no element is strictly behind a later one. *)
Inductive sorted_by : list A -> Prop :=
| sorted_nil : sorted_by []
| sorted_cons x l :
    Forall (fun y => (cmp x y <= 0)%Q) l -> sorted_by l ->
    sorted_by (x :: l).
End Sort.
End JsSort.

(** ** JSON-like values ([unknown], [Record<string, unknown>]) *)

Module Json.
#[local] Unset Elimination Schemes.
Inductive value : Type :=
| VUndefined
| VNull
| VBool (b : bool)
| VNum (q : Q)                 (* a finite number *)
| VNaN
| VInf (negative : bool)       (* [Infinity], [-Infinity] *)
| VStr (s : string)
| VArr (items : list value)
| VObj (fields : list (string * value)).
#[local] Set Elimination Schemes.

(** The decimal name of an array index, as [Object.keys] gives it. *)
Definition index_key (n : nat) : string :=
  NilEmpty.string_of_uint (Nat.to_uint n).

(** [s.startsWith(prefix)]. *)
Definition startsWith (s pre : string) : bool := String.prefix pre s.

(** [s.substring(1)]. *)
Definition substring1 (s : string) : string :=
  match s with EmptyString => EmptyString | String _ s' => s' end.
End Json.

(** ** Truth and attention values ([types.ts], [exports/utilities.ts]) *)

Module Truth.
Import JsNum.
Local Open Scope Q_scope.

Record TruthValue := mkTV { strength : Q; uncertainty : Q }.

Record AttentionValue := mkAV {
  shortTermImportance : Q;
  longTermImportance : Q;
  vlti : bool
}.

(** Equality of truth values, as numbers compare. *)
Definition tv_eq (a b : TruthValue) : Prop :=
  strength a == strength b /\ uncertainty a == uncertainty b.

Definition combineTruthValues (tv1 tv2 : TruthValue) : TruthValue :=
  let s := strength tv1 * strength tv2 in
  let u := uncertainty tv1 + uncertainty tv2
           - (uncertainty tv1 * uncertainty tv2) in
  {| strength := s; uncertainty := js_min u 1 |}.

Definition calculateConfidence (tv : TruthValue) : Q :=
  strength tv * (1 - uncertainty tv).
End Truth.

(** ** Attention allocator ([attention-allocator.ts]) *)

Module Attention.
Import JsNum JsMap JsSort.
Local Open Scope Q_scope.

Record AttentionAllocationConfig := mkConfig {
  totalBudget : Q;
  modules : list (string * Q);   (* [Object.entries(config.modules)] *)
  decayRate : Q;
  focusThreshold : Q;
  emergencyAllocation : Q
}.

(** The fields of [CognitiveAttentionAllocator] the modelled methods
    read or write. *)
Record allocator := mkAllocator {
  budget : Q;
  allocations : list (string * Q);
  config : AttentionAllocationConfig
}.

Definition with_allocations (a : allocator) (m : list (string * Q))
  : allocator :=
  {| budget := budget a; allocations := m; config := config a |}.

(** [constructor(config)]. *)
Definition createAttentionAllocator (c : AttentionAllocationConfig)
  : allocator :=
  {| budget := totalBudget c;
     allocations := jm_of_entries (modules c);
     config := c |}.

(** [this.allocations.get(moduleId) || 0]. *)
Definition getAllocation (moduleId : string) (a : allocator) : Q :=
  default 0 (jm_get moduleId (allocations a)).

Definition getBudget (a : allocator) : Q := budget a.

Definition getTotalAllocated (a : allocator) : Q :=
  sumQ (jm_values (allocations a)).

Definition getAvailable (a : allocator) : Q :=
  budget a - getTotalAllocated a.

Definition canRedistribute (requiredAmount : Q) (a : allocator) : bool :=
  let available := getAvailable a in
  let emergencyPool := emergencyAllocation (config a) in
  geb (available + emergencyPool) requiredAmount.

(** The loop of [redistributeWithAmount] over the sorted snapshot of the
    entries; [redistributed] is the running total. *)
Fixpoint redistribute_loop (deficit : Q) (moduleEntries : list (string * Q))
    (redistributed : Q) (allocs : list (string * Q)) : list (string * Q) :=
  match moduleEntries with
  | [] => allocs
  | (moduleId, allocation) :: rest =>
      if geb redistributed deficit then allocs
      else
        let reduction :=
          js_min (allocation * (1 # 10)) (deficit - redistributed) in
        redistribute_loop deficit rest (redistributed + reduction)
          (jm_set moduleId (allocation - reduction) allocs)
  end.

Definition redistributeWithAmount (requiredAmount : Q) (a : allocator)
  : allocator :=
  let available := getAvailable a in
  if geb available requiredAmount then a
  else
    let deficit := requiredAmount - available in
    let moduleEntries :=
      sort_by (fun x y => x.2 - y.2) (allocations a) in
    with_allocations a
      (redistribute_loop deficit moduleEntries 0 (allocations a)).

(** [allocate(moduleId, amount)]: the returned flag and the state after
    the call.  [currentAllocation] is read before the redistribution. *)
Definition allocate (moduleId : string) (amount : Q) (a : allocator)
  : bool * allocator :=
  let currentAllocation := getAllocation moduleId a in
  let totalAllocated := getTotalAllocated a in
  let grant (a' : allocator) :=
    (true, with_allocations a'
             (jm_set moduleId (currentAllocation + amount) (allocations a')))
  in
  if gtb (totalAllocated + amount) (budget a) then
    if canRedistribute amount a then grant (redistributeWithAmount amount a)
    else (false, a)
  else grant a.

Definition deallocate (moduleId : string) (amount : Q) (a : allocator)
  : bool * allocator :=
  let currentAllocation := getAllocation moduleId a in
  if ltb currentAllocation amount then (false, a)
  else (true, with_allocations a
                (jm_set moduleId (currentAllocation - amount)
                   (allocations a))).

(** [getModulePriority]: the one place that guards the division by the
    total. *)
Definition getModulePriority (moduleId : string) (a : allocator) : Q :=
  let allocation := getAllocation moduleId a in
  let totalAllocated := getTotalAllocated a in
  if gtb totalAllocated 0 then allocation / totalAllocated else 0.

(** The competitive branch of [simulateCompetition], one demand at a
    time; [None] when the share is not a finite number. *)
Fixpoint compete (a : allocator) (demands results : list (string * Q))
  : option (list (string * Q)) :=
  match demands with
  | [] => Some results
  | (moduleId, demand) :: rest =>
      let currentAllocation := getAllocation moduleId a in
      match js_div currentAllocation (getTotalAllocated a) with
      | None => None
      | Some competitiveWeight =>
          let allocation := budget a * competitiveWeight in
          compete a rest (jm_set moduleId (js_min demand allocation) results)
      end
  end.

(** [simulateCompetition(demands)]: the result map; the allocator is not
    written. *)
Definition simulateCompetition (demands : list (string * Q)) (a : allocator)
  : option (list (string * Q)) :=
  let totalDemand := sumQ (jm_values demands) in
  if gtb totalDemand (budget a) then compete a demands []
  else Some (fold_left (fun results e => jm_set e.1 e.2 results) demands []).

(** The calls of a client, and a run of them that stops at the first
    call that returns [false]. *)
Inductive call := Allocate (moduleId : string) (amount : Q)
                | Deallocate (moduleId : string) (amount : Q).


Definition perform (c : call) (a : allocator) : bool * allocator :=
  match c with
  | Allocate m x => allocate m x a
  | Deallocate m x => deallocate m x a
  end.

Fixpoint run_calls (cs : list call) (a : allocator) : option allocator :=
  match cs with
  | [] => Some a
  | c :: cs' =>
      let '(ok, a') := perform c a in
      if ok then run_calls cs' a' else None
  end.

(** The scenario of the documentation. *)
Definition scenario_config : AttentionAllocationConfig :=
  {| totalBudget := 1;
     modules := [("perception", 3 # 10); ("reasoning", 4 # 10);
                 ("memory", 3 # 10)];
     decayRate := 95 # 100;
     focusThreshold := 7 # 10;
     emergencyAllocation := 1 # 10 |}.

Definition scenario_allocator : allocator :=
  createAttentionAllocator scenario_config.

(** The total stays within the budget and the emergency pool. *)
Definition within_bound (a : allocator) : Prop :=
  getTotalAllocated a <= budget a + emergencyAllocation (config a).

(** No allocation is negative. *)
Definition nonneg_allocations (a : allocator) : Prop :=
  Forall (fun v => 0 <= v) (jm_values (allocations a)).

(** The allocations are a [Map] without a negative value, and the
    emergency pool is not negative. *)
Definition sane (a : allocator) : Prop :=
  jm_wf (allocations a) /\ nonneg_allocations a /\
  0 <= emergencyAllocation (config a).



(** The share [simulateCompetition] grants under competition. *)
Definition share (a : allocator) (moduleId : string) (demand : Q) : Q :=
  js_min demand
    (budget a * (getAllocation moduleId a / getTotalAllocated a)).
End Attention.

(** ** JavaScript numbers as the platform has them

    A [number] is an IEEE 754 binary64 value; [+], [-], [*] and [/]
    round to nearest, ties to even, and a comparison with [NaN] is
    false. *)

Module JsDouble.
Import Floats.
Local Open Scope float_scope.

(** [x || 0] on a number or [undefined]: [NaN] and both zeros are
    falsy. *)
Definition or_zero (x : option float) : float :=
  match x with
  | Some v => if is_nan v || is_zero v then 0 else v
  | None => 0
  end.

(** [Math.min(a, b)]: [NaN] if either is, and [-0] is below [+0]. *)
Definition js_min (a b : float) : float :=
  if is_nan a || is_nan b then nan
  else if a <? b then a
  else if b <? a then b
  else if get_sign a then a else b.

(** [xs.reduce((sum, x) => sum + x, 0)]. *)
Definition sum (xs : list float) : float := fold_left PrimFloat.add xs 0.

Section Sort.
Context {A : Type} (cmp : A -> A -> float).

(** [Array.prototype.sort] with a comparator, as [JsSort.sort_by]: [x]
    goes behind [y] exactly when [cmp x y > 0]. *)
Fixpoint insert_by (x : A) (l : list A) : list A :=
  match l with
  | [] => [x]
  | y :: l' => if 0 <? cmp x y then y :: insert_by x l' else x :: l
  end.

Definition sort_by (l : list A) : list A := foldr insert_by [] l.
End Sort.

(** The value of a finite number, as a rational. *)
Definition exact (x : float) : option Q :=
  match Prim2SF x with
  | S754_zero _ => Some 0%Q
  | S754_finite s m e =>
      Some (inject_Z (if s then Z.neg m else Z.pos m) * Qpower 2 e)%Q
  | _ => None
  end.



(** The values of a map of finite numbers, added without rounding. *)
Fixpoint exact_total (m : list (string * float)) : option Q :=
  match m with
  | [] => Some 0%Q
  | e :: m' =>
      match exact e.2, exact_total m' with
      | Some v, Some t => Some (v + t)%Q
      | _, _ => None
      end
  end.
End JsDouble.

(** ** Attention allocator, in the arithmetic of the platform *)

Module AttentionDouble.
Import Floats JsMap JsDouble.
Local Open Scope float_scope.

Record AttentionAllocationConfig := mkConfig {
  totalBudget : float;
  modules : list (string * float);   (* [Object.entries(config.modules)] *)
  decayRate : float;
  focusThreshold : float;
  emergencyAllocation : float
}.

Record allocator := mkAllocator {
  budget : float;
  allocations : list (string * float);
  config : AttentionAllocationConfig
}.

Definition with_allocations (a : allocator) (m : list (string * float))
  : allocator :=
  {| budget := budget a; allocations := m; config := config a |}.

(** [constructor(config)]. *)
Definition createAttentionAllocator (c : AttentionAllocationConfig)
  : allocator :=
  {| budget := totalBudget c;
     allocations := jm_of_entries (modules c);
     config := c |}.

(** [this.allocations.get(moduleId) || 0]. *)
Definition getAllocation (moduleId : string) (a : allocator) : float :=
  or_zero (jm_get moduleId (allocations a)).

Definition getTotalAllocated (a : allocator) : float :=
  sum (jm_values (allocations a)).

Definition getAvailable (a : allocator) : float :=
  budget a - getTotalAllocated a.

(** [available + emergencyPool >= requiredAmount]. *)
Definition canRedistribute (requiredAmount : float) (a : allocator) : bool :=
  let available := getAvailable a in
  let emergencyPool := emergencyAllocation (config a) in
  requiredAmount <=? available + emergencyPool.

(** The loop of [redistributeWithAmount] over the sorted snapshot of the
    entries; [redistributed] is the running total. *)
Fixpoint redistribute_loop (deficit : float)
    (moduleEntries : list (string * float)) (redistributed : float)
    (allocs : list (string * float)) : list (string * float) :=
  match moduleEntries with
  | [] => allocs
  | (moduleId, allocation) :: rest =>
      if deficit <=? redistributed then allocs
      else
        let reduction :=
          js_min (allocation * 0.1) (deficit - redistributed) in
        redistribute_loop deficit rest (redistributed + reduction)
          (jm_set moduleId (allocation - reduction) allocs)
  end.

Definition redistributeWithAmount (requiredAmount : float) (a : allocator)
  : allocator :=
  let available := getAvailable a in
  if requiredAmount <=? available then a
  else
    let deficit := requiredAmount - available in
    let moduleEntries :=
      sort_by (fun x y => x.2 - y.2) (allocations a) in
    with_allocations a
      (redistribute_loop deficit moduleEntries 0 (allocations a)).

(** [allocate(moduleId, amount)]: the returned flag and the state after
    the call.  [currentAllocation] is read before the redistribution. *)
Definition allocate (moduleId : string) (amount : float) (a : allocator)
  : bool * allocator :=
  let currentAllocation := getAllocation moduleId a in
  let totalAllocated := getTotalAllocated a in
  let grant (a' : allocator) :=
    (true, with_allocations a'
             (jm_set moduleId (currentAllocation + amount) (allocations a')))
  in
  if budget a <? totalAllocated + amount then
    if canRedistribute amount a then grant (redistributeWithAmount amount a)
    else (false, a)
  else grant a.

Definition deallocate (moduleId : string) (amount : float) (a : allocator)
  : bool * allocator :=
  let currentAllocation := getAllocation moduleId a in
  if currentAllocation <? amount then (false, a)
  else (true, with_allocations a
                (jm_set moduleId (currentAllocation - amount)
                   (allocations a))).

(** The share [simulateCompetition] grants under competition:
    [Math.min(demand, this.budget * (currentAllocation / total))]. *)
Definition share (a : allocator) (moduleId : string) (demand : float)
  : float :=
  let currentAllocation := getAllocation moduleId a in
  let competitiveWeight := currentAllocation / getTotalAllocated a in
  let allocation := budget a * competitiveWeight in
  js_min demand allocation.

(** [simulateCompetition(demands)]: the result map; the allocator is not
    written. *)
Definition simulateCompetition (demands : list (string * float))
    (a : allocator) : list (string * float) :=
  let totalDemand := sum (jm_values demands) in
  if budget a <? totalDemand then
    fold_left (fun results e => jm_set e.1 (share a e.1 e.2) results)
      demands []
  else fold_left (fun results e => jm_set e.1 e.2 results) demands [].

(** The calls of a client, and a run of them that stops at the first
    call that returns [false]. *)
Inductive call := Allocate (moduleId : string) (amount : float)
                | Deallocate (moduleId : string) (amount : float).

Definition perform (c : call) (a : allocator) : bool * allocator :=
  match c with
  | Allocate m x => allocate m x a
  | Deallocate m x => deallocate m x a
  end.

Fixpoint run_calls (cs : list call) (a : allocator) : option allocator :=
  match cs with
  | [] => Some a
  | c :: cs' =>
      let '(ok, a') := perform c a in
      if ok then run_calls cs' a' else None
  end.



(** The total of the allocations, added without rounding, is within the
    budget and the emergency pool, added without rounding. *)
Definition within_bound (fa : allocator) : Prop :=
  exists t b e,
    exact_total (allocations fa) = Some t /\
    exact (budget fa) = Some b /\
    exact (emergencyAllocation (config fa)) = Some e /\
    (t <= b + e)%Q.

Definition config_of (totalBudget emergencyAllocation : float)
    (modules : list (string * float)) : AttentionAllocationConfig :=
  {| totalBudget := totalBudget; modules := modules; decayRate := 0.95;
     focusThreshold := 0.7; emergencyAllocation := emergencyAllocation |}.

(** The scenario of the documentation. *)
Definition scenario_allocator : allocator :=
  createAttentionAllocator
    (config_of 1 0.1
       [("perception", 0.3); ("reasoning", 0.4); ("memory", 0.3)]).














End AttentionDouble.

(** ** Hypergraph store ([hypergraph.ts]) *)

Module Hypergraph.
Import JsNum Json Truth.

Record HypergraphNode := mkNode {
  id : string;
  type : string;
  truthValue : TruthValue;
  attentionValue : AttentionValue;
  outgoing : list string;
  incoming : list string;
  metadata : list (string * value)
}.

Definition with_outgoing (n : HypergraphNode) (l : list string) :=
  {| id := id n; type := type n; truthValue := truthValue n;
     attentionValue := attentionValue n; outgoing := l;
     incoming := incoming n; metadata := metadata n |}.

Definition with_incoming (n : HypergraphNode) (l : list string) :=
  {| id := id n; type := type n; truthValue := truthValue n;
     attentionValue := attentionValue n; outgoing := outgoing n;
     incoming := l; metadata := metadata n |}.

(** [this.nodes]; the methods modelled here only look nodes up.  Every
    stored node has its own two lists; [HypergraphShared] holds the
    arrays by address, for callers that share an array between the
    nodes they pass to [addNode]. *)
Abbreviation hypergraph := (gmap string HypergraphNode).

Definition createHypergraph : hypergraph := ∅.

(** An exception object: [new Error(message)]. *)
Inductive exn := JsError (message : string).

(** [arr.includes(x)], [arr.filter(id => id !== x)]. *)
Definition includes (x : string) (l : list string) : bool :=
  existsb (String.eqb x) l.
Definition without (x : string) (l : list string) : list string :=
  List.filter (fun y => negb (String.eqb y x)) l.

(** [addNode(node)]: the copy is filed under the node's id. *)
Definition addNode (node : HypergraphNode) (g : hypergraph) : hypergraph :=
  <[id node := node]> g.

Definition getNode (k : string) (g : hypergraph) : option HypergraphNode :=
  g !! k.

(** [removeLink(from, to)]: each assignment to a field is an [alter] of
    the stored node; the second one sees the first when [from = to]. *)
Definition removeLink (from to : string) (g : hypergraph) : hypergraph :=
  let g1 := alter (fun n => with_outgoing n (without to (outgoing n))) from g in
  alter (fun n => with_incoming n (without from (incoming n))) to g1.

(** [addLink(from, to)]. *)
Definition addLink (from to : string) (g : hypergraph)
  : exn + hypergraph :=
  match g !! from, g !! to with
  | Some _, Some _ =>
      let g1 :=
        alter (fun n => if includes to (outgoing n) then n
                        else with_outgoing n (outgoing n ++ [to])) from g in
      inr (alter (fun n => if includes from (incoming n) then n
                           else with_incoming n (incoming n ++ [from])) to g1)
  | _, _ =>
      inl (JsError ("Cannot create link: node " ++ from ++ " or " ++ to
                    ++ " not found"))
  end.

(** [removeNode(id)].  Each loop runs over the array its header reads:
    [node.incoming] as it was at the call, [node.outgoing] as the first
    loop left it. *)
Definition removeNode (k : string) (g : hypergraph) : hypergraph :=
  match g !! k with
  | None => g
  | Some node =>
      let g1 := fold_left (fun g incomingId => removeLink incomingId k g)
                  (incoming node) g in
      let outgoing1 := from_option outgoing [] (g1 !! k) in
      let g2 := fold_left (fun g outgoingId => removeLink k outgoingId g)
                  outgoing1 g1 in
      delete k g2
  end.

(** [getIncoming(id)], [getOutgoing(id)]: the neighbours that exist. *)
Definition getIncoming (k : string) (g : hypergraph) : list HypergraphNode :=
  match g !! k with
  | None => []
  | Some node => omap (fun incomingId => g !! incomingId) (incoming node)
  end.

Definition getOutgoing (k : string) (g : hypergraph) : list HypergraphNode :=
  match g !! k with
  | None => []
  | Some node => omap (fun outgoingId => g !! outgoingId) (outgoing node)
  end.

(** [dfs(nodeId, depth)] of [traverse], on the visited set and the
    result.  A call that goes on marks a stored node that was not
    visited, so the calls nest at most once per stored node: [fuel]
    bounds the nesting, and [traverse] gives it one more than the
    number of stored nodes. *)
Fixpoint dfs (g : hypergraph) (maxDepth : number) (fuel : nat)
    (nodeId : string) (depth : nat) (st : gset string * list HypergraphNode)
  : gset string * list HypergraphNode :=
  match fuel with
  | O => st
  | S fuel' =>
      if exceeds depth maxDepth || bool_decide (nodeId ∈ st.1) then st
      else match g !! nodeId with
           | None => st
           | Some node =>
               fold_left
                 (fun st outgoingId =>
                    dfs g maxDepth fuel' outgoingId (S depth) st)
                 (outgoing node) ({[nodeId]} ∪ st.1, (st.2 ++ [node])%list)
           end
  end.

(** [traverse(startId, maxDepth)] for any number [maxDepth]. *)
Definition traverse (startId : string) (maxDepth : number) (g : hypergraph)
  : list HypergraphNode :=
  (dfs g maxDepth (S (size g)) startId 0 (∅, [])).2.

(** The store files every node under its own id. *)
Definition keyed (g : hypergraph) : Prop :=
  map_Forall (λ k n, id n = k) g.

(** Every reference to [k] from a stored node [x] is mirrored in the
    lists of the node [k]: the bidirectional consistency of the data
    model, read at [k]. *)
Definition mirrored_at (k : string) (g : hypergraph) : Prop :=
  map_Forall
    (λ x nx,
       (k ∈ outgoing nx → x ∈ from_option incoming [] (g !! k)) ∧
       (k ∈ incoming nx → x ∈ from_option outgoing [] (g !! k))) g.

(** No node stored in [g] lists [k]. *)
Definition unreferenced (k : string) (g : hypergraph) : Prop :=
  map_Forall (λ _ nx, (k ∉ outgoing nx) ∧ (k ∉ incoming nx)) g.

(** Invariants of the loops of [removeNode(k)], read at a node [x]:
    [x] does not list [k] as outgoing, or as incoming, and [k] still
    lists [x] as outgoing. *)
Definition no_out (x k : string) (g : hypergraph) : Prop :=
  ∀ nx, g !! x = Some nx → k ∉ outgoing nx.
Definition no_in (x k : string) (g : hypergraph) : Prop :=
  ∀ nx, g !! x = Some nx → k ∉ incoming nx.
Definition still_out (x k : string) (g : hypergraph) : Prop :=
  x ∈ from_option outgoing [] (g !! k).

(** The node with id [k] is among the nodes of a result. *)
Definition among (k : string) (l : list HypergraphNode) : Prop :=
  k ∈ map id l.

(** What [removeLink(from, to)] and [addLink(from, to)] do to the node
    stored under [x]. *)
Definition unlinked (from to x : string) (n : HypergraphNode)
  : HypergraphNode :=
  let n1 := if decide (from = x)
            then with_outgoing n (without to (outgoing n)) else n in
  if decide (to = x) then with_incoming n1 (without from (incoming n1))
  else n1.

Definition linked (from to x : string) (n : HypergraphNode)
  : HypergraphNode :=
  let n1 := if decide (from = x)
            then (if includes to (outgoing n) then n
                  else with_outgoing n (outgoing n ++ [to]))
            else n in
  if decide (to = x)
  then (if includes from (incoming n1) then n1
        else with_incoming n1 (incoming n1 ++ [from]))
  else n1.

(** A node as [createHypergraphNode] makes it, without links. *)
Definition plain_node (k : string) : HypergraphNode :=
  {| id := k; type := "ConceptNode";
     truthValue := {| strength := 1; uncertainty := 0 |};
     attentionValue := {| shortTermImportance := 1 # 2;
                          longTermImportance := 1 # 2; vlti := false |};
     outgoing := []; incoming := []; metadata := [] |}.

(** [addLink] on a graph where it succeeds; the graph itself where it
    throws. *)
Definition addLink_or_keep (from to : string) (g : hypergraph)
  : hypergraph :=
  match addLink from to g with inr g' => g' | inl _ => g end.

(** Two documents, a link from [A] to [B], and [B] saved once more: the
    [afterChange] hook adds the node of a saved document anew, without
    links. *)
Definition resaved_graph : hypergraph :=
  addNode (plain_node "B")
    (addLink_or_keep "A" "B"
       (addNode (plain_node "B") (addNode (plain_node "A") createHypergraph))).

(** The chain [A -> B -> C]. *)
Definition chain_graph : hypergraph :=
  addLink_or_keep "B" "C"
    (addLink_or_keep "A" "B"
       (addNode (plain_node "C")
          (addNode (plain_node "B")
             (addNode (plain_node "A") createHypergraph)))).
End Hypergraph.

(** ** Pattern matcher ([pattern-matcher.ts]) *)

Module Matcher.
Import JsNum JsMap Json.
Local Open Scope Q_scope.

(** The counters and the bindings object that [matchRecursive] closes
    over. *)
Record counters := mkCounters {
  totalFields : nat;
  matchedFields : nat;
  bindings : list (string * value)
}.

Definition count_total (st : counters) : counters :=
  {| totalFields := S (totalFields st); matchedFields := matchedFields st;
     bindings := bindings st |}.

Definition count_matched (st : counters) : counters :=
  {| totalFields := totalFields st; matchedFields := S (matchedFields st);
     bindings := bindings st |}.

Definition bind (name : string) (v : value) (st : counters) : counters :=
  {| totalFields := totalFields st; matchedFields := matchedFields st;
     bindings := jm_set name v (bindings st) |}.

(** [isVariable(value)], [getVariableName(value)]. *)
Definition isVariable (v : value) : bool :=
  match v with VStr s => startsWith s "$" | _ => false end.

Definition getVariableName (v : value) : string :=
  match v with VStr s => substring1 s | _ => "unknown" end.

(** [p === i] where it is reached: at most one side is an object there,
    and an object is identical to itself only.  [NaN] is identical to
    nothing, itself included. *)
Definition strict_eq (p i : value) : bool :=
  match p, i with
  | VUndefined, VUndefined => true
  | VNull, VNull => true
  | VBool a, VBool b => Bool.eqb a b
  | VNum a, VNum b => Qeq_bool a b
  | VInf a, VInf b => Bool.eqb a b
  | VStr a, VStr b => String.eqb a b
  | _, _ => false
  end.

(** The properties the test [key in iObj] finds when [iObj] is an array:
    the indices and [length].  Properties inherited from the prototypes
    are not modelled, for arrays and for objects. *)
Fixpoint indexed (n : nat) (items : list value) : list (string * value) :=
  match items with
  | [] => []
  | x :: items' => (index_key n, x) :: indexed (S n) items'
  end.

Definition array_props (items : list value) : list (string * value) :=
  (indexed 0 items ++ [("length", VNum (of_nat (length items)))])%list.

Section Loops.
(** The recursive call of [matchRecursive]. *)
Variable rec : value -> value -> counters -> bool * counters.

(** Two arrays of one length: [for (idx ...) matchRecursive(p[idx],
    i[idx])]. *)
Fixpoint by_elems (ps items : list value) (st : counters)
  : bool * counters :=
  match ps with
  | [] => (true, count_matched st)
  | pv :: ps' =>
      let '(ok, st') := rec pv (default VUndefined (head items)) st in
      if ok then by_elems ps' (tail items) st' else (false, st')
  end.

(** Two objects: [for (const key of pKeys)] with the test
    [key in iObj]. *)
Fixpoint by_keys (ps : list (string * value))
    (iObj : list (string * value)) (st : counters) : bool * counters :=
  match ps with
  | [] => (true, count_matched st)
  | (key, pv) :: ps' =>
      match jm_get key iObj with
      | None => (false, st)
      | Some iv =>
          let '(ok, st') := rec pv iv st in
          if ok then by_keys ps' iObj st' else (false, st')
      end
  end.

(** The same loop when the pattern is an array and the input is not:
    the keys are the indices from [n] on. *)
Fixpoint by_index (n : nat) (ps : list value)
    (iObj : list (string * value)) (st : counters) : bool * counters :=
  match ps with
  | [] => (true, count_matched st)
  | pv :: ps' =>
      match jm_get (index_key n) iObj with
      | None => (false, st)
      | Some iv =>
          let '(ok, st') := rec pv iv st in
          if ok then by_index (S n) ps' iObj st' else (false, st')
      end
  end.
End Loops.

(** [matchRecursive(p, i)], threading the counters; the flag is the
    returned boolean. *)
Fixpoint matchRecursive (p i : value) (st : counters) : bool * counters :=
  let st := count_total st in
  if isVariable p then
    (true, count_matched (bind (getVariableName p) i st))
  else
    match p, i with
    | VArr ps, VArr items =>
        if negb (Nat.eqb (length ps) (length items)) then (false, st)
        else by_elems matchRecursive ps items st
    | VArr ps, VObj iObj => by_index matchRecursive 0 ps iObj st
    | VObj pfields, VArr items =>
        by_keys matchRecursive pfields (array_props items) st
    | VObj pfields, VObj iObj => by_keys matchRecursive pfields iObj st
    | _, _ =>
        if strict_eq p i then (true, count_matched st) else (false, st)
    end.

(** [calculateMatchConfidence(pattern, input, bindings)]: the confidence
    and the bindings object after the call. *)
Definition calculateMatchConfidence (pattern input : value)
    (bindings0 : list (string * value)) : Q * list (string * value) :=
  let '(matched, st) :=
    matchRecursive pattern input
      {| totalFields := 0; matchedFields := 0; bindings := bindings0 |} in
  ((if matched then of_nat (matchedFields st) / of_nat (totalFields st)
    else 0),
   bindings st).

(** The counters after [n] more fields were visited and matched. *)
Definition bump (n : nat) (st : counters) : counters :=
  {| totalFields := totalFields st + n;
     matchedFields := matchedFields st + n;
     bindings := bindings st |}.

(** [rec] matches a value against itself and counts every field it
    visits as matched. *)
Definition matches_itself
    (rec : value -> value -> counters -> bool * counters) (p : value)
  : Prop :=
  forall st, exists n, rec p p st = (true, bump n st).

(** No string of the pattern is a variable token. *)
Fixpoint no_variables (p : value) : bool :=
  match p with
  | VStr s => negb (startsWith s "$")
  | VArr items => forallb no_variables items
  | VObj fields => forallb (fun kv => no_variables kv.2) fields
  | _ => true
  end.

(** The property names of every object are distinct, as they are in any
    JavaScript object. *)
Fixpoint distinct_keys (p : value) : bool :=
  match p with
  | VArr items => forallb distinct_keys items
  | VObj fields =>
      bool_decide (NoDup (map fst fields))
      && forallb (fun kv => distinct_keys kv.2) fields
  | _ => true
  end.

(** No number of the pattern is [NaN]. *)
Fixpoint no_nan (p : value) : bool :=
  match p with
  | VNaN => false
  | VArr items => forallb no_nan items
  | VObj fields => forallb (fun kv => no_nan kv.2) fields
  | _ => true
  end.

(** A stored pattern with a field that is [NaN]. *)
Definition nan_pattern : value := VObj [("x", VNaN)].

(** A pattern with nested fields and no variable. *)
Definition user_pattern : value :=
  VObj [("type", VStr "user");
        ("tags", VArr [VStr "admin"; VNum 3; VNull]);
        ("profile", VObj [("verified", VBool true); ("name", VStr "Ada")])].
End Matcher.

(** ** Inference engine ([pln-engine.ts]) *)

Module PLN.
Import JsNum JsMap JsSort Json Truth.
Local Open Scope Q_scope.

Record SymbolicRule := mkRule {
  rule_id : string;
  name : string;
  premise : list string;
  conclusion : string;
  rule_tv : TruthValue;                  (* [truthValue] *)
  variables : list (string * string)
}.

Record InferenceResult := mkResult {
  res_conclusion : string;
  res_premises : list string;
  res_rule : string;
  res_tv : TruthValue;                   (* [truthValue] *)
  confidence : Q;
  steps : nat
}.

(** [rules] is iterated in insertion order; [facts] is only looked up. *)
Record engine := mkEngine {
  rules : list (string * SymbolicRule);
  facts : gmap string TruthValue
}.

Definition maxInferenceDepth : nat := 10.

Definition createPLNEngine : engine := {| rules := []; facts := ∅ |}.

Definition addRule (r : SymbolicRule) (e : engine) : engine :=
  {| rules := jm_set (rule_id r) r (rules e); facts := facts e |}.

Definition removeRule (k : string) (e : engine) : engine :=
  {| rules := jm_delete k (rules e); facts := facts e |}.

Definition addFact (fact : string) (tv : TruthValue) (e : engine) : engine :=
  {| rules := rules e; facts := <[fact := tv]> (facts e) |}.

Definition removeFact (fact : string) (e : engine) : engine :=
  {| rules := rules e; facts := delete fact (facts e) |}.

(** [combineTruthValues(truthValues)] of the engine. *)
Definition combineTruthValues (tvs : list TruthValue) : TruthValue :=
  match tvs with
  | [] => {| strength := 0; uncertainty := 1 |}
  | [tv] => tv
  | _ =>
      let '(s, u) :=
        fold_left (fun '(s, u) tv =>
                     (s * strength tv, u + uncertainty tv * (1 - u)))
          tvs (1, 0) in
      {| strength := s; uncertainty := js_min u 1 |}
  end.

Definition combineRuleTruthValue (ruleTruthValue premiseTruthValue : TruthValue)
  : TruthValue :=
  let s := strength ruleTruthValue * strength premiseTruthValue in
  let u := uncertainty ruleTruthValue + uncertainty premiseTruthValue
           - (uncertainty ruleTruthValue * uncertainty premiseTruthValue) in
  {| strength := s; uncertainty := js_min u 1 |}.

Definition calculateConfidence (ruleTruthValue premiseTruthValue : TruthValue)
  : Q :=
  let combined := combineRuleTruthValue ruleTruthValue premiseTruthValue in
  strength combined * (1 - uncertainty combined).

(** [results.sort((a, b) => b.confidence - a.confidence)]. *)
Definition by_confidence (a b : InferenceResult) : Q :=
  confidence b - confidence a.

(** [pattern.includes('*')], [pattern.replace(/\*/g, '.*')]. *)
Fixpoint includes_star (s : string) : bool :=
  match s with
  | EmptyString => false
  | String c s' => if Ascii.eqb c "*"%char then true else includes_star s'
  end.

Fixpoint replace_star (s : string) : string :=
  match s with
  | EmptyString => EmptyString
  | String c s' =>
      if Ascii.eqb c "*"%char
      then String "."%char (String "*"%char (replace_star s'))
      else String c (replace_star s')
  end.

Section Engine.
(** [new RegExp(source).test(fact)]: the regular-expression engine of
    the platform. *)
Variable regex_test : string -> string -> bool.

Definition isPatternMatch (pattern fact : string) : bool :=
  if String.eqb pattern fact then true
  else if includes_star pattern then
    regex_test ("^" ++ replace_star pattern ++ "$") fact
  else if startsWith pattern "$" then true
  else false.

Definition matchesPattern (p : string)
    (workingMemory : list (string * TruthValue)) : bool :=
  existsb (isPatternMatch p) (jm_keys workingMemory).

Definition findPatternMatch (p : string)
    (workingMemory : list (string * TruthValue))
  : option (string * TruthValue) :=
  List.find (fun e => isPatternMatch p e.1) workingMemory.

Definition canApplyRule (r : SymbolicRule)
    (workingMemory : list (string * TruthValue)) : bool :=
  forallb (fun p => jm_has p workingMemory || matchesPattern p workingMemory)
    (premise r).

(** The loop of [applyRule] over the premises: the truth values and the
    matched premises, or [None] for the early [return null]. *)
Fixpoint collect_premises (ps : list string)
    (workingMemory : list (string * TruthValue))
  : option (list TruthValue * list string) :=
  match ps with
  | [] => Some ([], [])
  | p :: ps' =>
      let found :=
        match jm_get p workingMemory with
        | Some tv => Some (p, tv)
        | None => findPatternMatch p workingMemory
        end in
      match found with
      | None => None
      | Some (fact, tv) =>
          match collect_premises ps' workingMemory with
          | None => None
          | Some (tvs, matched) => Some (tv :: tvs, fact :: matched)
          end
      end
  end.

Definition applyRule (r : SymbolicRule)
    (workingMemory : list (string * TruthValue)) : option InferenceResult :=
  match collect_premises (premise r) workingMemory with
  | None => None
  | Some (premiseTruthValues, matchedPremises) =>
      let combinedTruthValue := combineTruthValues premiseTruthValues in
      Some {| res_conclusion := conclusion r;
              res_premises := matchedPremises;
              res_rule := rule_id r;
              res_tv := combineRuleTruthValue (rule_tv r) combinedTruthValue;
              confidence := calculateConfidence (rule_tv r) combinedTruthValue;
              steps := 1 |}
  end.

Definition with_steps (r : InferenceResult) (n : nat) : InferenceResult :=
  {| res_conclusion := res_conclusion r; res_premises := res_premises r;
     res_rule := res_rule r; res_tv := res_tv r;
     confidence := confidence r; steps := n |}.

(** The state of the [while] loop of [forwardChain]. *)
Record fc_state := mkFc {
  workingMemory : list (string * TruthValue);
  results : list InferenceResult;
  changed : bool
}.

(** The body of the [for] loop over the rules, for one rule. *)
Definition fc_rule (step : nat) (st : fc_state) (r : SymbolicRule)
  : fc_state :=
  if canApplyRule r (workingMemory st) then
    match applyRule r (workingMemory st) with
    | Some inference =>
        if negb (jm_has (res_conclusion inference) (workingMemory st)) then
          {| workingMemory :=
               jm_set (res_conclusion inference) (res_tv inference)
                 (workingMemory st);
             results := (results st ++ [with_steps inference step])%list;
             changed := true |}
        else st
    | None => st
    end
  else st.

(** [while (changed && steps < this.maxInferenceDepth)]; [fuel] is the
    number of rounds left, [maxInferenceDepth - steps]. *)
Fixpoint fc_loop (e : engine) (fuel : nat) (step : nat) (st : fc_state)
  : fc_state :=
  match fuel with
  | O => st
  | S fuel' =>
      if changed st then
        let st0 := {| workingMemory := workingMemory st;
                      results := results st; changed := false |} in
        fc_loop e fuel' (S step)
          (fold_left (fc_rule (S step)) (jm_values (rules e)) st0)
      else st
  end.

Definition forwardChain (premises : list string) (e : engine)
  : list InferenceResult :=
  let wm :=
    fold_left (fun m p => jm_set p {| strength := 1; uncertainty := 0 |} m)
      premises [] in
  let st := fc_loop e maxInferenceDepth 0
              {| workingMemory := wm; results := []; changed := true |} in
  sort_by by_confidence (results st).
End Engine.

(** The result [backtrack] returns for a goal of the fact base. *)
Definition fact_result (goal : string) (tv : TruthValue) (depth : nat)
  : InferenceResult :=
  {| res_conclusion := goal; res_premises := []; res_rule := "fact";
     res_tv := tv; confidence := strength tv; steps := depth |}.

(** The loop of [backtrack] over the premises of one rule; [bt] is the
    recursive call.  [None] is [allPremisesProvable = false], after the
    [break]. *)
Fixpoint prove_premises
    (bt : string -> nat -> gset string -> list InferenceResult * gset string)
    (ps : list string) (depth : nat)
    (premiseProofs : list (list InferenceResult)) (visited : gset string)
  : option (list (list InferenceResult)) * gset string :=
  match ps with
  | [] => (Some premiseProofs, visited)
  | p :: ps' =>
      let '(premiseResults, visited') := bt p (S depth) visited in
      match premiseResults with
      | [] => (None, visited')
      | _ => prove_premises bt ps' depth
               (premiseProofs ++ [premiseResults])%list visited'
      end
  end.

(** The inference [backtrack] builds for a rule whose premises are all
    proved. *)
Definition rule_result (r : SymbolicRule)
    (premiseProofs : list (list InferenceResult)) (depth : nat)
  : InferenceResult :=
  let combinedTruthValue :=
    combineTruthValues (map res_tv (concat premiseProofs)) in
  {| res_conclusion := conclusion r; res_premises := premise r;
     res_rule := rule_id r;
     res_tv := combineRuleTruthValue (rule_tv r) combinedTruthValue;
     confidence := calculateConfidence (rule_tv r) combinedTruthValue;
     steps := depth |}.

(** [backtrack(currentGoal, depth)] with the one [visited] set of the
    call of [backwardChain] threaded through; nothing ever leaves that
    set.  [fuel] is [maxInferenceDepth + 1 - depth], so it runs out
    exactly when [depth > maxInferenceDepth]. *)
Fixpoint backtrack (e : engine) (fuel : nat) (currentGoal : string)
    (depth : nat) (visited : gset string)
  : list InferenceResult * gset string :=
  match fuel with
  | O => ([], visited)
  | S fuel' =>
      if (maxInferenceDepth <? depth)%nat
         || bool_decide (currentGoal ∈ visited)
      then ([], visited)
      else
        let visited := {[currentGoal]} ∪ visited in
        match facts e !! currentGoal with
        | Some tv => ([fact_result currentGoal tv depth], visited)
        | None =>
            fold_left
              (fun '(localResults, visited) r =>
                 if String.eqb (conclusion r) currentGoal then
                   match prove_premises (backtrack e fuel') (premise r)
                           depth [] visited with
                   | (Some premiseProofs, visited') =>
                       ((localResults
                         ++ [rule_result r premiseProofs depth])%list,
                        visited')
                   | (None, visited') => (localResults, visited')
                   end
                 else (localResults, visited))
              (jm_values (rules e)) ([], visited)
        end
  end.

Definition backwardChain (goal : string) (e : engine)
  : list InferenceResult :=
  sort_by by_confidence (backtrack e (S maxInferenceDepth) goal 0 ∅).1.

(** What the documentation of [backwardChain] calls provable: a goal of
    the fact base, or the conclusion of a rule whose premises are all
    provable. *)
Inductive provable (e : engine) : string -> Prop :=
| provable_fact goal tv :
    facts e !! goal = Some tv -> provable e goal
| provable_rule goal r :
    In r (jm_values (rules e)) -> conclusion r = goal ->
    Forall (provable e) (premise r) -> provable e goal.

(** Two rules over one fact: [p] gives [a], and [p] with [a] gives [g]. *)
Definition rule_a : SymbolicRule :=
  {| rule_id := "ra"; name := "a from p"; premise := ["p"];
     conclusion := "a";
     rule_tv := {| strength := 9 # 10; uncertainty := 1 # 10 |};
     variables := [] |}.

Definition rule_g : SymbolicRule :=
  {| rule_id := "rg"; name := "g from p and a"; premise := ["p"; "a"];
     conclusion := "g";
     rule_tv := {| strength := 9 # 10; uncertainty := 1 # 10 |};
     variables := [] |}.

Definition chain_engine : engine :=
  addFact "p" {| strength := 8 # 10; uncertainty := 1 # 10 |}
    (addRule rule_g (addRule rule_a createPLNEngine)).

(** The rule of the documented scenario. *)
Definition rule_pq : SymbolicRule :=
  {| rule_id := "rule-pq"; name := "r from p and q"; premise := ["p"; "q"];
     conclusion := "r";
     rule_tv := {| strength := 9 # 10; uncertainty := 1 # 10 |};
     variables := [] |}.

Definition scenario_engine : engine := addRule rule_pq createPLNEngine.
End PLN.

(** ** Kernel registry ([kernel-registry.ts]) *)

Module Registry.
Import JsNum Json Truth.
Local Open Scope Q_scope.

(** The eight tags of [KernelType]; a kernel read from configuration can
    carry any other string, which [processKernel] rejects. *)
Inductive KernelType :=
| HypergraphPrimitive | NeuralSymbolicBridge | AttentionAllocation
| PatternMatcher | PerceptionLayer | ReasoningEngine | MemorySystem
| ActionSelector
| OtherType (tag : string).

Record TensorShape := mkShape {
  dimensions : list nat;
  dtype : string;
  shape_complexity : Q
}.

(** [neuralLayers], which only the handlers read, is left out. *)
Record CognitiveKernel := mkKernel {
  id : string;
  name : string;
  description : string;
  type : KernelType;
  tensorShape : TensorShape;
  complexity : Q;
  dependencies : list string;
  hypergraphNodes : list Hypergraph.HypergraphNode;
  symbolicRules : option (list PLN.SymbolicRule);
  attentionBudget : Q;
  priority : Q;
  metadata : list (string * value)
}.

Record KernelState := mkState {
  state_id : string;
  active : bool;
  lastActivation : Z;                    (* a [Date], in milliseconds *)
  activationCount : nat;
  currentAttention : Q;
  performance : Q;
  errors : list string;
  outputs : value
}.

Record registry := mkRegistry {
  kernels : gmap string CognitiveKernel;
  states : gmap string KernelState
}.

(** What a [throw] carries: an [Error] with its message, or any other
    value. *)
Inductive exn := JsError (message : string) | JsThrown (v : value).

Definition createKernelRegistry : registry :=
  {| kernels := ∅; states := ∅ |}.

(** [register(kernel)]; [now] is the [new Date()] of the call. *)
Definition register (now : Z) (kernel : CognitiveKernel) (r : registry)
  : registry :=
  {| kernels := <[id kernel := kernel]> (kernels r);
     states := <[id kernel :=
                   {| state_id := id kernel; active := false;
                      lastActivation := now; activationCount := 0;
                      currentAttention := 0; performance := 1;
                      errors := []; outputs := VObj [] |}]> (states r) |}.

Definition unregister (k : string) (r : registry) : registry :=
  {| kernels := delete k (kernels r); states := delete k (states r) |}.

Definition get (k : string) (r : registry) : option CognitiveKernel :=
  kernels r !! k.

Definition getState (k : string) (r : registry) : option KernelState :=
  states r !! k.

Definition deactivate (k : string) (r : registry) : registry :=
  {| kernels := kernels r;
     states := alter (fun st =>
                 {| state_id := state_id st; active := false;
                    lastActivation := lastActivation st;
                    activationCount := activationCount st;
                    currentAttention := currentAttention st;
                    performance := performance st; errors := errors st;
                    outputs := outputs st |}) k (states r) |}.

(** The assignments of [activate] to the state object, in the order of
    the source. *)
Definition begin_activation (now : Z) (st : KernelState) : KernelState :=
  {| state_id := state_id st; active := true; lastActivation := now;
     activationCount := S (activationCount st);
     currentAttention := currentAttention st;
     performance := performance st; errors := []; outputs := outputs st |}.

Definition record_success (result : value) (st : KernelState) : KernelState :=
  {| state_id := state_id st; active := active st;
     lastActivation := lastActivation st;
     activationCount := activationCount st;
     currentAttention := currentAttention st;
     performance := js_min 1 (performance st + (1 # 100));
     errors := errors st; outputs := result |}.

Definition record_failure (errorMessage : string) (st : KernelState)
  : KernelState :=
  {| state_id := state_id st; active := active st;
     lastActivation := lastActivation st;
     activationCount := activationCount st;
     currentAttention := currentAttention st;
     performance := js_max 0 (performance st - (1 # 10));
     errors := (errors st ++ [errorMessage])%list; outputs := outputs st |}.

Definition end_activation (st : KernelState) : KernelState :=
  {| state_id := state_id st; active := false;
     lastActivation := lastActivation st;
     activationCount := activationCount st;
     currentAttention := currentAttention st;
     performance := performance st; errors := errors st;
     outputs := outputs st |}.

(** [error instanceof Error ? error.message : 'Unknown error']. *)
Definition error_message (e : exn) : string :=
  match e with JsError m => m | JsThrown _ => "Unknown error" end.

(** The string a tag of [KernelType] stands for. *)
Definition type_tag (t : KernelType) : string :=
  match t with
  | HypergraphPrimitive => "hypergraph-primitive"
  | NeuralSymbolicBridge => "neural-symbolic-bridge"
  | AttentionAllocation => "attention-allocation"
  | PatternMatcher => "pattern-matcher"
  | PerceptionLayer => "perception-layer"
  | ReasoningEngine => "reasoning-engine"
  | MemorySystem => "memory-system"
  | ActionSelector => "action-selector"
  | OtherType tag => tag
  end.

Section Activation.
(** The eight [process...] handlers: each builds a report from the
    kernel, the input and the clock, or throws. *)
Variable handler : KernelType -> CognitiveKernel -> value -> exn + value.

(** [processKernel(kernel, input)]: the [switch] over the type. *)
Definition processKernel (kernel : CognitiveKernel) (input : value)
  : exn + value :=
  match type kernel with
  | OtherType tag => inl (JsError ("Unknown kernel type: " ++ tag))
  | t => handler t kernel input
  end.

(** [activate(id, input)]: the settled promise ([inl] a rejection,
    [inr] the result) and the registry after the call. *)
Definition activate (now : Z) (k : string) (input : value) (r : registry)
  : (exn + value) * registry :=
  match kernels r !! k, states r !! k with
  | Some kernel, Some state =>
      let state1 := begin_activation now state in
      let store st := {| kernels := kernels r;
                         states := <[k := st]> (states r) |} in
      match processKernel kernel input with
      | inr result =>
          (inr result, store (end_activation (record_success result state1)))
      | inl error =>
          (inl error,
           store (end_activation
                    (record_failure (error_message error) state1)))
      end
  | _, _ => (inl (JsError ("Kernel " ++ k ++ " not found")), r)
  end.

(** The calls a client can make, and a run of them from a registry;
    the promise of an [activate] is dropped, its effect is kept. *)
Inductive call :=
| Register (now : Z) (kernel : CognitiveKernel)
| Unregister (k : string)
| Activate (now : Z) (k : string) (input : value)
| Deactivate (k : string).

Definition perform (r : registry) (c : call) : registry :=
  match c with
  | Register now kernel => register now kernel r
  | Unregister k => unregister k r
  | Activate now k input => (activate now k input r).2
  | Deactivate k => deactivate k r
  end.

Definition run_calls (cs : list call) (r : registry) : registry :=
  fold_left perform cs r.
End Activation.

(** A rejection of the NotFound kind: the promise is rejected with the
    [Error] whose message names the kernel that is missing. *)
Definition is_not_found (k : string) (outcome : exn + value) : Prop :=
  outcome = inl (JsError ("Kernel " ++ k ++ " not found")).

(** A kernel as [createKernelTemplate] makes it, and a handler for the
    examples: the action selector reduces over the nodes and throws on
    an empty array, the other handlers return a report. *)
Definition template (k : string) (t : KernelType) : CognitiveKernel :=
  {| id := k; name := k; description := k ++ " kernel"; type := t;
     tensorShape := {| dimensions := [1%nat]; dtype := "float32";
                       shape_complexity := 1 |};
     complexity := 1; dependencies := []; hypergraphNodes := [];
     symbolicRules := None; attentionBudget := 1 # 10; priority := 5;
     metadata := [] |}.

Definition sample_handler (t : KernelType) (kernel : CognitiveKernel)
    (input : value) : exn + value :=
  match t, hypergraphNodes kernel with
  | ActionSelector, [] =>
      inl (JsError "Reduce of empty array with no initial value")
  | _, _ => inr (VObj [("type", VStr (type_tag t)); ("input", input)])
  end.

(** A selector without nodes, activated twice: both activations fail. *)
Definition two_failures : list call :=
  [Register 0 (template "selector" ActionSelector);
   Activate 1 "selector" VNull; Activate 2 "selector" VNull].

(** The two maps of a registry hold the same ids. *)
Definition in_step (r : registry) : Prop :=
  ∀ k, kernels r !! k = None ↔ states r !! k = None.
End Registry.

(** ** Kernel registry: [activate] around its [await]

    [activate] is an [async] method: it runs up to the [await] of the
    handler's promise when it is called, and its continuation runs
    later, after whatever else the host calls in between.  The state
    objects are kept by address, since the continuation writes to the
    object it read at the call, whether or not the map still holds
    it. *)

Module RegistryAsync.
Import JsNum Json Truth Registry.
Local Open Scope Q_scope.

Record async_registry := mkAsync {
  kernel_map : gmap string CognitiveKernel;     (* [kernels] *)
  state_refs : gmap string nat;                 (* [states], by address *)
  objects : gmap nat KernelState;               (* the state objects *)
  next_ref : nat;                               (* the next free address *)
  (** The activations that await their handler: the state object each
      holds, and how the promise of [processKernel] settles. *)
  in_flight : list (nat * (exn + value))
}.

Definition createAsyncRegistry : async_registry :=
  {| kernel_map := ∅; state_refs := ∅; objects := ∅; next_ref := 0;
     in_flight := [] |}.

Definition getStateA (k : string) (r : async_registry)
  : option KernelState :=
  state_refs r !! k ≫= fun ref => objects r !! ref.

(** [register(kernel)]: the state is a new object. *)
Definition registerA (now : Z) (kernel : CognitiveKernel)
    (r : async_registry) : async_registry :=
  {| kernel_map := <[id kernel := kernel]> (kernel_map r);
     state_refs := <[id kernel := next_ref r]> (state_refs r);
     objects := <[next_ref r :=
                    {| state_id := id kernel; active := false;
                       lastActivation := now; activationCount := 0;
                       currentAttention := 0; performance := 1;
                       errors := []; outputs := VObj [] |}]> (objects r);
     next_ref := S (next_ref r);
     in_flight := in_flight r |}.

Definition unregisterA (k : string) (r : async_registry)
  : async_registry :=
  {| kernel_map := delete k (kernel_map r);
     state_refs := delete k (state_refs r);
     objects := objects r; next_ref := next_ref r;
     in_flight := in_flight r |}.

Definition with_objects (r : async_registry)
    (objs : gmap nat KernelState) (fl : list (nat * (exn + value)))
  : async_registry :=
  {| kernel_map := kernel_map r; state_refs := state_refs r;
     objects := objs; next_ref := next_ref r; in_flight := fl |}.

Definition deactivateA (k : string) (r : async_registry)
  : async_registry :=
  match state_refs r !! k with
  | Some ref => with_objects r (alter end_activation ref (objects r))
                  (in_flight r)
  | None => r
  end.

Section Activation.
Variable handler : KernelType -> CognitiveKernel -> value -> exn + value.

(** [activate(id, input)] up to its [await]: the lookups, the writes to
    the state, and the call of [processKernel], whose handlers run to
    their end without yielding.  For a missing kernel the promise is
    rejected and nothing is written. *)
Definition begin_activate (now : Z) (k : string) (input : value)
    (r : async_registry) : async_registry :=
  match kernel_map r !! k, state_refs r !! k with
  | Some kernel, Some ref =>
      match objects r !! ref with
      | Some state =>
          with_objects r
            (<[ref := begin_activation now state]> (objects r))
            (in_flight r ++ [(ref, processKernel handler kernel input)])%list
      | None => r
      end
  | _, _ => r
  end.

(** The continuation of the activation at position [n] of those in
    flight: the [try] after the [await], the [catch] and the
    [finally], on the state object as it is by then. *)
Definition settle (n : nat) (r : async_registry) : async_registry :=
  match in_flight r !! n with
  | Some (ref, outcome) =>
      let rest := delete n (in_flight r) in
      match objects r !! ref with
      | Some state =>
          let state' :=
            match outcome with
            | inr result => record_success result state
            | inl error => record_failure (error_message error) state
            end in
          with_objects r (<[ref := end_activation state']> (objects r)) rest
      | None => with_objects r (objects r) rest
      end
  | None => r
  end.

(** What the host and the event loop can do next. *)
Inductive event :=
| ERegister (now : Z) (kernel : CognitiveKernel)
| EUnregister (k : string)
| EDeactivate (k : string)
| EBegin (now : Z) (k : string) (input : value)
| ESettle (n : nat).

Definition step (r : async_registry) (ev : event) : async_registry :=
  match ev with
  | ERegister now kernel => registerA now kernel r
  | EUnregister k => unregisterA k r
  | EDeactivate k => deactivateA k r
  | EBegin now k input => begin_activate now k input r
  | ESettle n => settle n r
  end.

Definition run (evs : list event) (r : async_registry) : async_registry :=
  fold_left step evs r.
End Activation.

(** The activations in flight that hold the state object [ref]. *)
Definition holders (ref : nat) (r : async_registry) : nat :=
  length (List.filter (fun p => Nat.eqb p.1 ref) (in_flight r)).

(** An activation of [k] is in flight on the state [k] has now. *)
Definition busy (k : string) (r : async_registry) : Prop :=
  ∃ ref, state_refs r !! k = Some ref ∧ (0 < holders ref r)%nat.

(** The event does not start an activation of a kernel while an
    earlier one of the same state is in flight. *)
Definition calm (r : async_registry) (ev : event) : Prop :=
  match ev with
  | EBegin _ k _ =>
      ∀ ref, state_refs r !! k = Some ref → holders ref r = 0%nat
  | _ => True
  end.

(** No event of the run starts an overlapping activation. *)
Fixpoint serial
    (handler : KernelType -> CognitiveKernel -> value -> exn + value)
    (evs : list event) (r : async_registry) : Prop :=
  match evs with
  | [] => True
  | ev :: evs' => calm r ev ∧ serial handler evs' (step handler r ev)
  end.

(** Every address in use is below the next free one, and every state of
    the map is an object. *)
Definition well_formed (r : async_registry) : Prop :=
  (∀ ref st, objects r !! ref = Some st → (ref < next_ref r)%nat) ∧
  (∀ k ref, state_refs r !! k = Some ref → is_Some (objects r !! ref)) ∧
  (∀ ref, (0 < holders ref r)%nat → is_Some (objects r !! ref)).

(** An object holds at most one error message, and none while an
    activation on it is in flight. *)
Definition short_errors (r : async_registry) : Prop :=
  ∀ ref st, objects r !! ref = Some st →
    (length (errors st) + holders ref r ≤ 1)%nat.

(** Every state of the map is filed under its own id, has a performance
    between 0 and 1, and is active only while an activation on it is in
    flight. *)
Definition settled (r : async_registry) : Prop :=
  (∀ k ref st, state_refs r !! k = Some ref → objects r !! ref = Some st →
     state_id st = k) ∧
  (∀ ref st, objects r !! ref = Some st →
     (0 <= performance st)%Q ∧ (performance st <= 1)%Q ∧
     (active st = true → (0 < holders ref r)%nat)).

(** A selector without nodes, activated twice before either activation
    settles, and then settled: both activations fail. *)
Definition overlapping_failures : list event :=
  [ERegister 0 (template "selector" ActionSelector);
   EBegin 1 "selector" VNull; EBegin 2 "selector" VNull;
   ESettle 0; ESettle 0].

(** The same two activations, each settled before the next begins. *)
Definition serial_failures : list event :=
  [ERegister 0 (template "selector" ActionSelector);
   EBegin 1 "selector" VNull; ESettle 0;
   EBegin 2 "selector" VNull; ESettle 0].
End RegistryAsync.

(** ** Hypergraph store: consistency of the links, spreading activation *)

Module HypergraphOps.
Import JsNum JsMap Truth Hypergraph.
Local Open Scope Q_scope.

(** The adjacency lists are bidirectionally consistent: a node that lists
    [y] as outgoing is in the incoming list of the stored node [y], and
    the other way round. *)
Definition consistent (g : hypergraph) : Prop :=
  map_Forall
    (λ x nx,
       Forall (λ y, x ∈ from_option incoming [] (g !! y)) (outgoing nx) ∧
       Forall (λ y, x ∈ from_option outgoing [] (g !! y)) (incoming nx)) g.

(** [g] has the nodes of [g0], and each node other than [k] lists what it
    listed in [g0], but for [k]. *)
Definition kept_but (k : string) (g0 g : hypergraph) : Prop :=
  ∀ x, x ≠ k →
    match g0 !! x, g !! x with
    | Some nx0, Some nx =>
        ∀ y, y ≠ k →
          (y ∈ outgoing nx ↔ y ∈ outgoing nx0) ∧
          (y ∈ incoming nx ↔ y ∈ incoming nx0)
    | None, None => True
    | _, _ => False
    end.

(** The error [addLink(from, to)] throws, if it throws. *)
Definition addLink_error (from to : string) (g : hypergraph) : option exn :=
  match addLink from to g with inl e => Some e | inr _ => None end.

(** Three nodes without links. *)
Definition three_nodes : hypergraph :=
  addNode (plain_node "C")
    (addNode (plain_node "B") (addNode (plain_node "A") createHypergraph)).
End HypergraphOps.


(** ** Hypergraph store: the walks *)

Module HypergraphWalk.
Import Floats JsDouble JsNum JsMap Hypergraph.

(** Invariant of [dfs]: the result holds the visited ids, each once, and
    each node is the one stored under its id. *)
Definition dfs_inv (g : hypergraph)
    (st : gset string * list HypergraphNode) : Prop :=
  (∀ k, k ∈ st.1 ↔ k ∈ map id st.2) ∧
  NoDup (map id st.2) ∧
  Forall (λ n, g !! id n = Some n) st.2.

(** What a call of [dfs] leaves alone: it only appends to the result. *)
Definition dfs_ext (st st' : gset string * list HypergraphNode) : Prop :=
  ∃ l, st'.2 = (st.2 ++ l)%list.

(** The number of stored nodes that a walk has not visited. *)
Definition unvisited (g : hypergraph) (visited : gset string) : nat :=
  size (dom g ∖ visited).

(** The node [k] with one outgoing link. *)
Definition plain_node_out (k to : string) : HypergraphNode :=
  with_outgoing (plain_node k) [to].

(** [currentActivation] at depth [d] of [spreadActivation]: the start
    value times 0.7 per hop, rounded at every hop. *)
Fixpoint decayed (activation : float) (d : nat) : float :=
  match d with
  | O => activation
  | S d' => (decayed activation d' * 0.7)%float
  end.

(** [spread(nodeId, currentActivation, depth)] of [spreadActivation], on
    the visited set and the map of activations, in the arithmetic of
    the platform; [fuel] bounds the nesting of the calls as in [dfs]. *)
Fixpoint spread (g : hypergraph) (maxDepth : number) (fuel : nat)
    (nodeId : string) (currentActivation : float) (depth : nat)
    (st : gset string * list (string * float))
  : gset string * list (string * float) :=
  match fuel with
  | O => st
  | S fuel' =>
      if exceeds depth maxDepth || bool_decide (nodeId ∈ st.1)
         || (currentActivation <? 0.01)%float
      then st
      else match g !! nodeId with
           | None => st
           | Some node =>
               let st1 :=
                 ({[nodeId]} ∪ st.1,
                  jm_set nodeId
                    (or_zero (jm_get nodeId st.2) + currentActivation)%float
                    st.2) in
               let decayFactor := 0.7%float in
               let spreadActivation :=
                 (currentActivation * decayFactor)%float in
               let st2 :=
                 fold_left
                   (fun st outgoingId =>
                      spread g maxDepth fuel' outgoingId spreadActivation
                        (S depth) st)
                   (outgoing node) st1 in
               fold_left
                 (fun st incomingId =>
                    spread g maxDepth fuel' incomingId spreadActivation
                      (S depth) st)
                 (incoming node) st2
           end
  end.

(** [spreadActivation(startId, activation, maxDepth = 3)]: a [maxDepth]
    that is left out is [None]. *)
Definition spreadActivation (startId : string) (activation : float)
    (maxDepth : option number) (g : hypergraph) : list (string * float) :=
  (spread g (default (Finite 3) maxDepth) (S (size g)) startId activation 0
     (∅, [])).2.

(** What [spreadActivation] records for a node at depth [d]: the node
    is stored, the depth is within [maxDepth], the activation it was
    reached with is not below 0.01, and the value is that activation
    added to 0. *)
Definition recorded (g : hypergraph) (activation : float)
    (maxDepth : number) (e : string * float) : Prop :=
  is_Some (g !! e.1) ∧
  ∃ d, exceeds d maxDepth = false ∧
       (decayed activation d <? 0.01)%float = false ∧
       e.2 = (0 + decayed activation d)%float.

(** Invariant of [spread]: the recorded keys are the visited ids, each
    is recorded once, and every entry is as [recorded] says. *)
Definition spread_inv (g : hypergraph) (activation : float)
    (maxDepth : number) (st : gset string * list (string * float)) : Prop :=
  (∀ k, k ∈ st.1 ↔ In k (jm_keys st.2)) ∧
  NoDup (jm_keys st.2) ∧
  Forall (recorded g activation maxDepth) st.2.

(** What a call of [spread] leaves alone: every id visited before is
    still visited and keeps its value. *)
Definition spread_ext (st st' : gset string * list (string * float))
  : Prop :=
  st.1 ⊆ st'.1 ∧ ∀ k, k ∈ st.1 → jm_get k st'.2 = jm_get k st.2.
End HypergraphWalk.

(** ** Hypergraph store: the arrays of the nodes, by address *)

Module HypergraphShared.
Import Json Truth Hypergraph.

(** A node object: [outgoing] and [incoming] hold the addresses of
    their arrays.  [addNode] stores [{ ...node }], a new object with
    the arrays of the object it is given, and [addLink] pushes onto
    them in place, so a caller that builds two nodes from one object
    makes them share arrays. *)
Record node_object := mkObject {
  o_id : string;                         (* [id] *)
  o_type : string;                       (* [type] *)
  o_truthValue : TruthValue;             (* [truthValue] *)
  o_attentionValue : AttentionValue;     (* [attentionValue] *)
  o_outgoing : nat;                      (* [outgoing] *)
  o_incoming : nat;                      (* [incoming] *)
  o_metadata : list (string * value)     (* [metadata] *)
}.

Record store := mkStore {
  nodes : gmap string node_object;       (* [this.nodes] *)
  arrays : gmap nat (list string);       (* the arrays, by address *)
  next_array : nat                       (* the next free address *)
}.

Definition createStore : store :=
  {| nodes := ∅; arrays := ∅; next_array := 0 |}.

(** The array at an address. *)
Definition read (s : store) (ref : nat) : list string :=
  default [] (arrays s !! ref).

(** An array literal: a new array, and its address. *)
Definition new_array (l : list string) (s : store) : nat * store :=
  (next_array s,
   {| nodes := nodes s; arrays := <[next_array s := l]> (arrays s);
      next_array := S (next_array s) |}).

(** [arr.push(x)] on the array at [ref]. *)
Definition push (ref : nat) (x : string) (s : store) : store :=
  {| nodes := nodes s; arrays := <[ref := (read s ref ++ [x])%list]> (arrays s);
     next_array := next_array s |}.

(** [addNode(node)]: the copy has the arrays of [node]. *)
Definition addNode (node : node_object) (s : store) : store :=
  {| nodes := <[o_id node := node]> (nodes s); arrays := arrays s;
     next_array := next_array s |}.

(** [addLink(from, to)]: the second test reads the array as the first
    push left it. *)
Definition addLink (from to : string) (s : store) : exn + store :=
  match nodes s !! from, nodes s !! to with
  | Some fromNode, Some toNode =>
      let s1 := if includes to (read s (o_outgoing fromNode)) then s
                else push (o_outgoing fromNode) to s in
      inr (if includes from (read s1 (o_incoming toNode)) then s1
           else push (o_incoming toNode) from s1)
  | _, _ =>
      inl (JsError ("Cannot create link: node " ++ from ++ " or " ++ to
                    ++ " not found"))
  end.

(** [node.outgoing = l] and [node.incoming = l] on the object stored
    under [k], for a new array [l]. *)
Definition assign_outgoing (k : string) (l : list string) (s : store)
  : store :=
  let '(ref, s') := new_array l s in
  {| nodes := alter (fun o =>
                {| o_id := o_id o; o_type := o_type o;
                   o_truthValue := o_truthValue o;
                   o_attentionValue := o_attentionValue o;
                   o_outgoing := ref; o_incoming := o_incoming o;
                   o_metadata := o_metadata o |}) k (nodes s');
     arrays := arrays s'; next_array := next_array s' |}.

Definition assign_incoming (k : string) (l : list string) (s : store)
  : store :=
  let '(ref, s') := new_array l s in
  {| nodes := alter (fun o =>
                {| o_id := o_id o; o_type := o_type o;
                   o_truthValue := o_truthValue o;
                   o_attentionValue := o_attentionValue o;
                   o_outgoing := o_outgoing o; o_incoming := ref;
                   o_metadata := o_metadata o |}) k (nodes s');
     arrays := arrays s'; next_array := next_array s' |}.

(** [removeLink(from, to)]: [filter] makes a new array; [toNode] is the
    object under [to], which is [fromNode] when [from = to]. *)
Definition removeLink (from to : string) (s : store) : store :=
  let s1 :=
    match nodes s !! from with
    | Some fromNode =>
        assign_outgoing from (without to (read s (o_outgoing fromNode))) s
    | None => s
    end in
  match nodes s1 !! to with
  | Some toNode =>
      assign_incoming to (without from (read s1 (o_incoming toNode))) s1
  | None => s1
  end.

(** The node a caller reads from an object. *)
Definition node_of (s : store) (o : node_object) : HypergraphNode :=
  {| id := o_id o; type := o_type o; truthValue := o_truthValue o;
     attentionValue := o_attentionValue o;
     outgoing := read s (o_outgoing o); incoming := read s (o_incoming o);
     metadata := o_metadata o |}.

(** The graph a caller reads from the store. *)
Definition view (s : store) : hypergraph := node_of s <$> nodes s.

(** Every array of a stored node is below the next free address. *)
Definition allocated (s : store) : Prop :=
  ∀ k o, nodes s !! k = Some o →
    (o_outgoing o < next_array s)%nat ∧ (o_incoming o < next_array s)%nat.

(** No two stored nodes share an array, and no node uses one array for
    both of its lists. *)
Definition unshared (s : store) : Prop :=
  ∀ k1 o1 k2 o2, nodes s !! k1 = Some o1 → nodes s !! k2 = Some o2 →
    o_outgoing o1 ≠ o_incoming o2 ∧
    (k1 ≠ k2 → o_outgoing o1 ≠ o_outgoing o2 ∧
               o_incoming o1 ≠ o_incoming o2).

(** Every stored node owns its two arrays. *)
Definition owned (s : store) : Prop := allocated s ∧ unshared s.

(** [createHypergraphNode(id, type)]: a node object without links, on
    two new arrays. *)
Definition createHypergraphNode (k type : string) (s : store)
  : node_object * store :=
  let '(out, s1) := new_array [] s in
  let '(inc, s2) := new_array [] s1 in
  ({| o_id := k; o_type := type;
      o_truthValue := {| strength := 1; uncertainty := 0 |};
      o_attentionValue := {| shortTermImportance := 1 # 2;
                             longTermImportance := 1 # 2; vlti := false |};
      o_outgoing := out; o_incoming := inc; o_metadata := [] |}, s2).

(** [{ ...node, id: k }]. *)
Definition renamed (k : string) (o : node_object) : node_object :=
  {| o_id := k; o_type := o_type o; o_truthValue := o_truthValue o;
     o_attentionValue := o_attentionValue o; o_outgoing := o_outgoing o;
     o_incoming := o_incoming o; o_metadata := o_metadata o |}.

(** [addLink] on a store where it succeeds; the store itself where it
    throws. *)
Definition addLink_or_keep (from to : string) (s : store) : store :=
  match addLink from to s with inr s' => s' | inl _ => s end.

(** Three nodes on their own arrays. *)
Definition own_store : store :=
  let '(a, s) := createHypergraphNode "A" "ConceptNode" createStore in
  let '(b, s) := createHypergraphNode "B" "ConceptNode" s in
  let '(c, s) := createHypergraphNode "C" "ConceptNode" s in
  addNode c (addNode b (addNode a s)).

(** [addNode(a)], [addNode({ ...a, id: 'C' })] and [addNode(b)]: the
    nodes [A] and [C] share their arrays. *)
Definition shared_store : store :=
  let '(a, s) := createHypergraphNode "A" "ConceptNode" createStore in
  let '(b, s) := createHypergraphNode "B" "ConceptNode" s in
  addNode b (addNode (renamed "C" a) (addNode a s)).
End HypergraphShared.
(** ** Pattern matcher: [match], [stringSimilarity], [hashString] *)

Module MatcherOps.
Import JsNum JsMap JsSort Json Truth Matcher.
Local Open Scope Q_scope.

(** [maxResults] is a whole number, as [slice] reads it. *)
Record PatternMatcherConfig := mkPMConfig {
  maxDepth : Q;
  maxResults : Z;
  confidenceThreshold : Q;
  useApproximateMatching : bool
}.

(** [lastUsed] is a reading of the clock. *)
Record PatternData := mkPattern {
  pd_id : string;                        (* [id] *)
  pd_pattern : value;                    (* [pattern] *)
  pd_tv : TruthValue;                    (* [truthValue] *)
  usageCount : nat;
  lastUsed : Z;
  complexity : Q
}.

Record MatchResult := mkMatch {
  patternId : string;
  mr_confidence : Q;                     (* [confidence] *)
  mr_bindings : list (string * value);   (* [bindings] *)
  mr_tv : TruthValue                     (* [truthValue] *)
}.

Record matcher := mkMatcher {
  patterns : list (string * PatternData);
  config : PatternMatcherConfig
}.

Definition removePattern (k : string) (m : matcher) : matcher :=
  {| patterns := jm_delete k (patterns m); config := config m |}.

(** [patternData.usageCount++; patternData.lastUsed = new Date()]. *)
Definition used (now : Z) (patternData : PatternData) : PatternData :=
  {| pd_id := pd_id patternData; pd_pattern := pd_pattern patternData;
     pd_tv := pd_tv patternData; usageCount := S (usageCount patternData);
     lastUsed := now; complexity := complexity patternData |}.

(** [matchPattern(patternData, input)]: the result, [None] for [null],
    and the pattern data after the call. *)
Definition matchPattern (cfg : PatternMatcherConfig) (now : Z)
    (patternData : PatternData) (input : value)
  : option MatchResult * PatternData :=
  let '(confidence, bindings) :=
    calculateMatchConfidence (pd_pattern patternData) input [] in
  if ltb confidence (confidenceThreshold cfg) then (None, patternData)
  else
    (Some {| patternId := pd_id patternData; mr_confidence := confidence;
             mr_bindings := bindings; mr_tv := pd_tv patternData |},
     used now patternData).

(** [results.sort((a, b) => b.confidence - a.confidence)]. *)
Definition by_match_confidence (a b : MatchResult) : Q :=
  mr_confidence b - mr_confidence a.

(** [xs.slice(0, n)]: a negative [n] counts from the end. *)
Definition slice0 {A} (n : Z) (xs : list A) : list A :=
  if (n <? 0)%Z then take (Z.to_nat (Z.of_nat (length xs) + n)) xs
  else take (Z.to_nat n) xs.

Section Clock.
(** [clock n] is what [new Date()] gives while the pattern at position
    [n] of the map is matched. *)
Variable clock : nat -> Z.

(** The loop of [match] over [this.patterns.values()]: the results
    pushed, and the entries of the map after the loop. *)
Fixpoint match_loop (cfg : PatternMatcherConfig) (input : value) (n : nat)
    (ps : list (string * PatternData)) (results : list MatchResult)
  : list MatchResult * list (string * PatternData) :=
  match ps with
  | [] => (results, [])
  | (k, patternData) :: ps' =>
      let '(matchResult, patternData') :=
        matchPattern cfg (clock n) patternData input in
      let results' :=
        match matchResult with
        | Some r =>
            if geb (mr_confidence r) (confidenceThreshold cfg)
            then (results ++ [r])%list else results
        | None => results
        end in
      let '(out, ps'') := match_loop cfg input (S n) ps' results' in
      (out, (k, patternData') :: ps'')
  end.

(** [match(input)]: the results and the matcher after the call. *)
Definition match_ (input : value) (m : matcher)
  : list MatchResult * matcher :=
  let '(results, ps) := match_loop (config m) input 0 (patterns m) [] in
  (slice0 (maxResults (config m)) (sort_by by_match_confidence results),
   {| patterns := ps; config := config m |}).
End Clock.

(** A successful call of [rec] on the pattern [p] counts as many matched
    fields as visited fields. *)
Definition counts_alike
    (rec : value -> value -> counters -> bool * counters) (p : value)
  : Prop :=
  forall i st st', rec p i st = (true, st') ->
    exists n, totalFields st' = (totalFields st + n)%nat /\
              matchedFields st' = (matchedFields st + n)%nat.

(** The confidence of a stored pattern for an input. *)
Definition confidence_of (patternData : PatternData) (input : value) : Q :=
  (calculateMatchConfidence (pd_pattern patternData) input []).1.

(** The patterns of the map that meet the threshold for an input. *)
Definition meeting (cfg : PatternMatcherConfig) (input : value)
    (ps : list (string * PatternData)) : list (string * PatternData) :=
  List.filter
    (fun e => geb (confidence_of e.2 input) (confidenceThreshold cfg)) ps.

Definition total_usage (ps : list (string * PatternData)) : nat :=
  list_sum (map (fun e => usageCount e.2) ps).

Section Similarity.
(** A string is its sequence of code units. *)
Context {C : Type} `{EqDecision C}.

(** The inner loop of [stringSimilarity] for one row [j] of the matrix:
    [left] is [matrix[j][i - 1]], [diag] is [matrix[j - 1][i - 1]], and
    [above] holds [matrix[j - 1][i]] from [i] on. *)
Fixpoint fill_row (bj : C) (a : list C) (left diag : nat)
    (above : list nat) : list nat :=
  match a, above with
  | ai :: a', up :: above' =>
      let cost := if decide (ai = bj) then 0%nat else 1%nat in
      let cell :=
        Nat.min (Nat.min (left + 1) (up + 1)) (diag + cost) in
      cell :: fill_row bj a' cell up above'
  | _, _ => []
  end.

(** Row [j] from row [j - 1]: [matrix[j][0] = j], then the inner
    loop. *)
Definition next_row (a : list C) (prev : list nat) (j : nat) (bj : C)
  : list nat :=
  j :: fill_row bj a j (hd 0%nat prev) (tl prev).

(** The outer loop over [j]: the last row of the matrix. *)
Fixpoint rows (a b : list C) (j : nat) (prev : list nat) : list nat :=
  match b with
  | [] => prev
  | bj :: b' => rows a b' (S j) (next_row a prev (S j) bj)
  end.

(** [matrix[b.length][a.length]]; row [0] holds [0 .. a.length]. *)
Definition distance (a b : list C) : nat :=
  List.last (rows a b 0 (seq 0 (S (length a)))) 0%nat.

Definition stringSimilarity (a b : list C) : Q :=
  let maxLength := Nat.max (length a) (length b) in
  if (0 <? maxLength)%nat
  then 1 - of_nat (distance a b) / of_nat maxLength
  else 1.
End Similarity.

(** [ToInt32]: the value wrapped to 32 signed bits. *)
Definition to_int32 (z : Z) : Z := ((z + 2 ^ 31) mod 2 ^ 32 - 2 ^ 31)%Z.

(** The body of the loop of [hashString] for one code unit:
    [hash = ((hash << 5) - hash) + char; hash = hash & hash]. *)
Definition hash_step (hash char : Z) : Z :=
  let hash := (to_int32 (Z.shiftl (to_int32 hash) 5) - hash + char)%Z in
  Z.land (to_int32 hash) (to_int32 hash).

(** The digits of [toString(36)]. *)
Definition digit36 (d : Z) : ascii :=
  if (d <? 10)%Z then ascii_of_nat (48 + Z.to_nat d)
  else ascii_of_nat (87 + Z.to_nat d).

Fixpoint digits36 (fuel : nat) (n : Z) (acc : string) : string :=
  match fuel with
  | O => acc
  | S fuel' =>
      let acc' := String (digit36 (n mod 36)) acc in
      if (n / 36 =? 0)%Z then acc' else digits36 fuel' (n / 36) acc'
  end.

(** [n.toString(36)] for a whole number [n >= 0]. *)
Definition toString36 (n : Z) : string :=
  digits36 (S (Z.to_nat (Z.log2 n))) n EmptyString.

(** [hashString(str)] on the code units of [str]. *)
Definition hashString (str : list Z) : string :=
  toString36 (Z.abs (fold_left hash_step str 0%Z)).

(** The polynomial in 31 whose coefficients are the code units. *)
Definition poly31 (str : list Z) : Z :=
  fold_left (fun h c => (31 * h + c)%Z) str 0%Z.

(** Two stored patterns and a limit of one result. *)
Definition two_patterns : matcher :=
  {| patterns :=
       [("p1", {| pd_id := "p1";
                  pd_pattern := VObj [("type", VStr "user")];
                  pd_tv := {| strength := 1; uncertainty := 0 |};
                  usageCount := 0; lastUsed := 0; complexity := 1 # 4 |});
        ("p2", {| pd_id := "p2";
                  pd_pattern := VObj [("name", VStr "$who")];
                  pd_tv := {| strength := 1; uncertainty := 0 |};
                  usageCount := 3; lastUsed := 0; complexity := 1 # 4 |})];
     config := {| maxDepth := 10; maxResults := 1;
                  confidenceThreshold := 1 # 2;
                  useApproximateMatching := false |} |}.

Definition user_input : value :=
  VObj [("type", VStr "user"); ("name", VStr "Ada")].
End MatcherOps.
(** ** Inference engine: [infer], and what the chainers keep *)

Module PLNOps.
Import JsNum JsMap JsSort Json Truth PLN.
Local Open Scope Q_scope.

Section Engine.
Variable regex_test : string -> string -> bool.





End Engine.

(** A result names a stored rule and its conclusion, at a step between
    1 and [bound]. *)
Definition from_rule (e : engine) (bound : nat) (res : InferenceResult)
  : Prop :=
  (1 <= steps res <= bound)%nat /\
  exists r, In r (jm_values (rules e)) /\
            res_rule res = rule_id r /\ res_conclusion res = conclusion r.

(** Invariant of the loops of [forwardChain]: the conclusions of the
    results are distinct, the premises and the conclusions are in the
    working memory, and no conclusion is one of the premises. *)
Definition fc_inv (premises : list string) (e : engine) (bound : nat)
    (st : fc_state) : Prop :=
  NoDup (map res_conclusion (results st)) /\
  (forall p, In p premises -> jm_has p (workingMemory st) = true) /\
  Forall (fun res =>
            jm_has (res_conclusion res) (workingMemory st) = true /\
            ~ In (res_conclusion res) premises /\
            from_rule e bound res) (results st).

(** What [backtrack] returns for a goal at a depth: results for that
    goal at that depth, and only if the goal is provable. *)
Definition sound_for (e : engine) (goal : string) (depth : nat)
    (rs : list InferenceResult) : Prop :=
  Forall (fun res => res_conclusion res = goal /\ steps res = depth) rs /\
  (rs <> [] -> provable e goal).
End PLNOps.
(** ** Kernel registry: the activation count *)

Module RegistryOps.
Import JsNum Json Truth Registry.
Local Open Scope Q_scope.

(** What one call does to the activation count of the kernel [k]:
    [None] stands for a kernel without a state. *)
Definition counted (k : string) (n : option nat) (c : call) : option nat :=
  match c with
  | Register _ kernel => if decide (id kernel = k) then Some 0%nat else n
  | Unregister k' => if decide (k' = k) then None else n
  | Activate _ k' _ => if decide (k' = k) then S <$> n else n
  | Deactivate _ => n
  end.

(** The activations of [k] in a run of calls since its last
    registration. *)
Definition activations (k : string) (cs : list call) : option nat :=
  fold_left (counted k) cs None.
End RegistryOps.
(** ** Helpers of [exports/utilities.ts] *)

Module Utilities.
Import JsNum JsMap Json Truth Registry.
Local Open Scope Q_scope.

Definition createDefaultTensorShape (dims : list nat) : TensorShape :=
  {| dimensions := dims; dtype := "float32";
     shape_complexity := js_min (of_nat (length dims)) 10 |}.

(** [if (test) errors.push(msg)]. *)
Definition push_if (test : bool) (msg : string) (errors : list string)
  : list string :=
  if test then (errors ++ [msg])%list else errors.

Section Trim.
(** [s.trim()] of the platform. *)
Variable trim : string -> string.

(** [!s || s.trim() === '']. *)
Definition blank (s : string) : bool :=
  String.eqb s "" || String.eqb (trim s) "".

Definition validateKernel (kernel : CognitiveKernel) : list string :=
  let errors := [] in
  let errors := push_if (blank (id kernel)) "Kernel ID is required" errors in
  let errors :=
    push_if (blank (name kernel)) "Kernel name is required" errors in
  let errors :=
    push_if (Nat.eqb (length (dimensions (tensorShape kernel))) 0)
      "Tensor shape with dimensions is required" errors in
  let errors :=
    push_if (ltb (attentionBudget kernel) 0 || gtb (attentionBudget kernel) 1)
      "Attention budget must be between 0 and 1" errors in
  let errors :=
    push_if (ltb (priority kernel) 0 || gtb (priority kernel) 10)
      "Priority must be between 0 and 10" errors in
  let errors :=
    push_if (existsb (String.eqb (id kernel)) (dependencies kernel))
      "Kernel cannot depend on itself" errors in
  errors.
End Trim.

(** [createKernelTemplate(id, name, type, tensorDimensions)]; [created]
    is the clock reading as an ISO string. *)
Definition createKernelTemplate (created : string) (k name : string)
    (t : KernelType) (tensorDimensions : list nat) : CognitiveKernel :=
  {| id := k; name := name;
     description := name ++ " kernel for " ++ type_tag t ++ " processing";
     type := t;
     tensorShape := createDefaultTensorShape tensorDimensions;
     complexity := js_min (of_nat (length tensorDimensions)) 10;
     dependencies := []; hypergraphNodes := []; symbolicRules := None;
     attentionBudget := 1 # 10; priority := 5;
     metadata := [("created", VStr created); ("version", VStr "1.0.0")] |}.
End Utilities.

(** ** [createDefaultTruthValue], in the arithmetic of the platform *)

Module UtilitiesDouble.
Import Floats JsDouble.
Local Open Scope float_scope.

Record TruthValue := mkTruthValue {
  strength : float;
  uncertainty : float
}.

(** [Math.max(a, b)]: [NaN] if either is, and [+0] is above [-0]. *)
Definition js_max (a b : float) : float :=
  if is_nan a || is_nan b then nan
  else if a <? b then b
  else if b <? a then a
  else if get_sign a then b else a.

(** [createDefaultTruthValue(strength = 1.0, uncertainty = 0.0)]: an
    argument that is left out or [undefined] is [None] and takes its
    default. *)
Definition createDefaultTruthValue (strength uncertainty : option float)
  : TruthValue :=
  let strength := default 1 strength in
  let uncertainty := default 0 uncertainty in
  {| strength := js_max 0 (js_min 1 strength);
     uncertainty := js_max 0 (js_min 1 uncertainty) |}.

(** [r] is [x] clamped into [0, 1]: [NaN] for [NaN], otherwise a number
    between 0 and 1, which is [x] itself, as [===] compares, when [x]
    is between 0 and 1. *)
Definition clamped (x r : float) : Prop :=
  (is_nan x = true -> is_nan r = true) /\
  (is_nan x = false -> (0 <=? r) = true /\ (r <=? 1) = true) /\
  ((0 <=? x) = true -> (x <=? 1) = true -> (r =? x) = true).
End UtilitiesDouble.

(** * Part II: lemmas and theorems *)

(** ** Numbers *)

Module JsNumFacts.
Import JsNum.
Local Open Scope Q_scope.

Lemma gtb_true a b : gtb a b = true <-> b < a.
Proof.
  unfold gtb. rewrite negb_true_iff, <- not_true_iff_false, Qle_bool_iff.
  split; [apply Qnot_le_lt | apply Qlt_not_le].
Qed.

Lemma gtb_false a b : gtb a b = false <-> a <= b.
Proof. unfold gtb. rewrite negb_false_iff. apply Qle_bool_iff. Qed.

Lemma geb_true a b : geb a b = true <-> b <= a.
Proof. apply Qle_bool_iff. Qed.

Lemma geb_false a b : geb a b = false <-> a < b.
Proof.
  unfold geb. rewrite <- not_true_iff_false, Qle_bool_iff.
  split; [apply Qnot_le_lt | apply Qlt_not_le].
Qed.

Lemma ltb_true a b : ltb a b = true <-> a < b.
Proof. unfold ltb. rewrite negb_true_iff. apply geb_false. Qed.





Lemma js_min_proper a a' b b' :
  a == a' -> b == b' -> js_min a b == js_min a' b'.
Proof. intros Ha Hb. unfold js_min. rewrite Ha, Hb. reflexivity. Qed.




End JsNumFacts.

(** ** Truth values *)

Module TruthFacts.
Import JsNum JsNumFacts Truth.
Local Open Scope Q_scope.

(** C7. [combineTruthValues] is commutative in both components, and its
    strength component is associative.  Numbers are exact rationals
    here, so agreement within a tolerance is equality. *)
Theorem combineTruthValues_comm_assoc (a b c : TruthValue) :
  tv_eq (combineTruthValues a b) (combineTruthValues b a) /\
  strength (combineTruthValues (combineTruthValues a b) c)
  == strength (combineTruthValues a (combineTruthValues b c)).
Proof.
  split; [split|]; simpl.
  - ring.
  - apply js_min_proper; [ring | reflexivity].
  - ring.
Qed.

Lemma calculateConfidence_range (tv : TruthValue) :
  0 <= strength tv <= 1 -> 0 <= uncertainty tv <= 1 ->
  0 <= calculateConfidence tv <= 1.
Proof. unfold calculateConfidence. intros [? ?] [? ?]. split; nra. Qed.
End TruthFacts.

(** ** Kernel registry *)

Module RegistryFacts.
Import Json Registry.

Section WithHandler.
Variable handler : KernelType -> CognitiveKernel -> value -> exn + value.

Lemma activate_cases now k input r :
  (∃ kernel st st',
      kernels r !! k = Some kernel ∧ states r !! k = Some st ∧
      (activate handler now k input r).2
      = {| kernels := kernels r; states := <[k := st']> (states r) |} ∧
      (length (errors st') ≤ 1)%nat)
  ∨ ((kernels r !! k = None ∨ states r !! k = None) ∧
     activate handler now k input r
     = (inl (JsError ("Kernel " ++ k ++ " not found")), r)).
Proof.
  unfold activate.
  destruct (kernels r !! k) as [kernel|] eqn:Hk;
    [destruct (states r !! k) as [st|] eqn:Hs|]; [|right; auto..].
  left. destruct (processKernel handler kernel input) as [err|result];
    eexists kernel, st, _; (split_and!; [done..| simpl; lia]).
Qed.

Lemma in_step_perform r c : in_step r → in_step (perform handler r c).
Proof.
  intros Hr k'. destruct c as [now kernel|k|now k input|k]; simpl.
  - rewrite !lookup_insert. case_decide; [done | apply Hr].
  - rewrite !lookup_delete. case_decide; [done | apply Hr].
  - destruct (activate_cases now k input r)
      as [(kernel & st & st' & Hk & Hs & -> & _)|[_ ->]]; simpl;
      [|apply Hr].
    rewrite lookup_insert. case_decide; [subst k'|apply Hr].
    rewrite Hk. done.
  - rewrite lookup_alter. case_decide; [subst k'|apply Hr].
    rewrite fmap_None. apply Hr.
Qed.

Lemma run_calls_invariant (P : registry → Prop) cs r :
  (∀ r c, P r → P (perform handler r c)) → P r →
  P (run_calls handler cs r).
Proof.
  intros Hstep. revert r.
  induction cs as [|c cs IH]; intros r Hr; simpl; [done|].
  apply IH, Hstep, Hr.
Qed.

Lemma in_step_reachable cs :
  in_step (run_calls handler cs createKernelRegistry).
Proof.
  apply run_calls_invariant; [apply in_step_perform|].
  intros k. simpl. by rewrite !lookup_empty.
Qed.

(** C9. For a registry reached by any calls and an id that is not
    registered, [activate] rejects with the error that names the
    kernel, leaves the registry as it was, and [getState] gives
    nothing before and after. *)
Theorem activate_missing_kernel cs now k input :
  let r := run_calls handler cs createKernelRegistry in
  get k r = None →
  is_not_found k (activate handler now k input r).1 ∧
  getState k r = None ∧
  getState k (activate handler now k input r).2 = None ∧
  (activate handler now k input r).2 = r.
Proof.
  intros r Hk. unfold get in Hk.
  assert (Hs : states r !! k = None) by (by apply in_step_reachable).
  unfold is_not_found, getState, activate. rewrite Hk. simpl. done.
Qed.
End WithHandler.

Lemma activate_missing_kernel_witness :
  let r := run_calls sample_handler two_failures createKernelRegistry in
  get "missing-id" r = None ∧
  is_not_found "missing-id"
    (activate sample_handler 3 "missing-id" VNull r).1 ∧
  getState "missing-id" r = None ∧
  getState "missing-id"
    (activate sample_handler 3 "missing-id" VNull r).2 = None ∧
  (activate sample_handler 3 "missing-id" VNull r).2 = r.
Proof.
  split; [vm_compute; reflexivity|].
  apply (activate_missing_kernel sample_handler two_failures 3
           "missing-id" VNull).
  vm_compute; reflexivity.
Defined.
End RegistryFacts.

(** ** Kernel registry: [activate] around its [await] *)

Module RegistryAsyncFacts.
Import JsNum JsNumFacts Json Registry RegistryAsync.

Lemma holders_app ref r ref' outcome objs :
  holders ref
    (with_objects r objs (in_flight r ++ [(ref', outcome)])%list)
  = (holders ref r + (if Nat.eqb ref' ref then 1 else 0))%nat.
Proof.
  unfold holders. simpl. rewrite List.filter_app, length_app. simpl.
  by destruct (Nat.eqb ref' ref).
Qed.

Lemma holders_delete ref r n ref' outcome objs :
  in_flight r !! n = Some (ref', outcome) →
  holders ref r
  = (holders ref (with_objects r objs (delete n (in_flight r)))
     + (if Nat.eqb ref' ref then 1 else 0))%nat.
Proof.
  unfold holders. simpl. generalize (in_flight r). clear r.
  induction n as [|n IH]; intros [|[ref0 o0] fl] Hn; simpl in *; try done.
  - injection Hn as -> ->. destruct (Nat.eqb ref' ref); simpl; lia.
  - specialize (IH fl Hn). destruct (Nat.eqb ref0 ref); simpl; lia.
Qed.

Section WithHandler.
Variable handler : KernelType -> CognitiveKernel -> value -> exn + value.

Lemma well_formed_step r ev :
  well_formed r → well_formed (step handler r ev).
Proof.
  intros (Hlt & Hst & Hfl).
  destruct ev as [now kernel|k|k|now k input|n]; simpl.
  - split; [|split]; simpl.
    + intros ref st. rewrite lookup_insert. case_decide; [intros; lia|].
      intros H'. apply Hlt in H'. lia.
    + intros k ref. rewrite !lookup_insert.
      case_decide; [intros [= <-]; by rewrite decide_True|].
      intros H'. case_decide; [by eexists|]. by apply (Hst k).
    + intros ref Hpos. rewrite lookup_insert. case_decide; [by eexists|].
      by apply Hfl.
  - split; [done|]. split; [|done]. simpl. intros k' ref.
    rewrite lookup_delete. case_decide; [done|]. apply Hst.
  - unfold deactivateA. destruct (state_refs r !! k) as [ref0|]; [|done].
    split; [|split]; simpl.
    + intros ref st. rewrite lookup_alter. case_decide; [subst|apply Hlt].
      destruct (objects r !! ref) eqn:E; [|done]. intros _. by eapply Hlt.
    + intros k' ref H'. rewrite lookup_alter. case_decide; [subst|by eapply Hst].
      destruct (Hst _ _ H') as [st ->]. by eexists.
    + intros ref Hpos. rewrite lookup_alter. case_decide; [subst|by apply Hfl].
      destruct (Hfl _ Hpos) as [st ->]. by eexists.
  - unfold begin_activate.
    destruct (kernel_map r !! k) as [kernel|]; [|done].
    destruct (state_refs r !! k) as [ref0|]; [|done].
    destruct (objects r !! ref0) as [st0|] eqn:E0; [|done].
    split; [|split]; simpl.
    + intros ref st. rewrite lookup_insert. case_decide; [subst|apply Hlt].
      intros _. by eapply Hlt.
    + intros k' ref H'. rewrite lookup_insert. case_decide; [by eexists|].
      by eapply Hst.
    + intros ref. rewrite holders_app. rewrite lookup_insert.
      case_decide; [by eexists|].
      destruct (Nat.eqb_spec ref0 ref); [done|].
      rewrite Nat.add_0_r. apply Hfl.
  - unfold settle.
    destruct (in_flight r !! n) as [[ref0 outcome]|] eqn:En; [|done].
    assert (Hle : ∀ ref objs,
              (holders ref (with_objects r objs (delete n (in_flight r)))
               ≤ holders ref r)%nat).
    { intros ref objs. rewrite (holders_delete ref r n ref0 outcome objs En).
      lia. }
    destruct (objects r !! ref0) as [st0|] eqn:E0.
    + split; [|split]; simpl.
      * intros ref st. rewrite lookup_insert.
        case_decide; [subst|apply Hlt]. intros _. by eapply Hlt.
      * intros k' ref H'. rewrite lookup_insert.
        case_decide; [by eexists|]. by eapply Hst.
      * intros ref Hpos. rewrite lookup_insert.
        case_decide; [by eexists|]. apply Hfl.
        specialize (Hle ref (<[ref0:=end_activation
          match outcome with
          | inl error => record_failure (error_message error) st0
          | inr result => record_success result st0
          end]> (objects r))). lia.
    + split; [done|]. split; [done|]. simpl. intros ref Hpos. apply Hfl.
      specialize (Hle ref (objects r)). lia.
Qed.

Lemma fresh_ref_idle r : well_formed r → holders (next_ref r) r = 0%nat.
Proof.
  intros (Hlt & _ & Hfl).
  destruct (holders (next_ref r) r) as [|h] eqn:E; [done|].
  destruct (Hfl (next_ref r)) as [st Hst]; [lia|].
  apply Hlt in Hst. lia.
Qed.

Lemma short_errors_step r ev :
  well_formed r → calm r ev → short_errors r →
  short_errors (step handler r ev).
Proof.
  intros Hwf Hcalm Hr.
  destruct ev as [now kernel|k|k|now k input|n]; simpl.
  - intros ref st. simpl. rewrite lookup_insert.
    case_decide as Hd; [|apply Hr].
    intros [= <-]. simpl. subst ref.
    change (holders (next_ref r) (registerA now kernel r))
      with (holders (next_ref r) r).
    rewrite fresh_ref_idle by done. lia.
  - exact Hr.
  - unfold deactivateA. destruct (state_refs r !! k) as [ref0|]; [|done].
    intros ref st. simpl. rewrite lookup_alter.
    case_decide; [subst|apply Hr].
    destruct (objects r !! ref) as [st0|] eqn:E; [|done].
    intros [= <-]. simpl. by apply (Hr ref).
  - unfold begin_activate.
    destruct (kernel_map r !! k) as [kernel|]; [|done].
    destruct (state_refs r !! k) as [ref0|] eqn:Ek; [|done].
    destruct (objects r !! ref0) as [st0|] eqn:E0; [|done].
    intros ref st. rewrite holders_app. simpl. rewrite lookup_insert.
    case_decide as Hd.
    + subst ref. intros [= <-]. simpl. rewrite Nat.eqb_refl.
      rewrite (Hcalm ref0 Ek). lia.
    + intros Hst. apply Nat.eqb_neq in Hd. rewrite Hd.
      rewrite Nat.add_0_r. by apply Hr.
  - unfold settle.
    destruct (in_flight r !! n) as [[ref0 outcome]|] eqn:En; [|done].
    destruct (objects r !! ref0) as [st0|] eqn:E0.
    + intros ref st. simpl. rewrite lookup_insert. case_decide as Hd.
      * subst ref. intros [= <-].
        pose proof (Hr ref0 st0 E0) as Hb.
        rewrite (holders_delete ref0 r n ref0 outcome
                   (<[ref0:=end_activation
                      match outcome with
                      | inl error => record_failure (error_message error) st0
                      | inr result => record_success result st0
                      end]> (objects r)) En) in Hb.
        rewrite Nat.eqb_refl in Hb.
        destruct outcome as [err|result]; simpl;
          rewrite ?length_app; simpl; lia.
      * intros Hst. pose proof (Hr ref st Hst) as Hb.
        rewrite (holders_delete ref r n ref0 outcome
                   (<[ref0:=end_activation
                      match outcome with
                      | inl error => record_failure (error_message error) st0
                      | inr result => record_success result st0
                      end]> (objects r)) En) in Hb.
        lia.
    + intros ref st Hst. simpl in Hst. pose proof (Hr ref st Hst) as Hb.
      rewrite (holders_delete ref r n ref0 outcome (objects r) En) in Hb.
      lia.
Qed.

Lemma serial_run evs : ∀ r,
  well_formed r → short_errors r → serial handler evs r →
  short_errors (run handler evs r) ∧ well_formed (run handler evs r).
Proof.
  unfold run.
  induction evs as [|ev evs IH]; intros r Hwf Hr Hs; simpl; [done|].
  destruct Hs as [Hcalm Hs].
  apply IH; [by apply well_formed_step|by apply short_errors_step|done].
Qed.

Lemma new_well_formed : well_formed createAsyncRegistry.
Proof.
  split; [|split]; simpl.
  - intros ref st. by rewrite lookup_empty.
  - intros k ref. by rewrite lookup_empty.
  - intros ref. unfold holders. simpl. lia.
Qed.

(** C10, as the code has it.  In a run of calls on a new registry in
    which no activation of a kernel starts while an earlier activation
    of the same state has not settled, the error list of every kernel
    state holds at most one message, at every point of the run, between
    the two halves of an activation too. *)
Theorem errors_at_most_one evs k st :
  serial handler evs createAsyncRegistry →
  getStateA k (run handler evs createAsyncRegistry) = Some st →
  (length (errors st) ≤ 1)%nat.
Proof.
  intros Hs. destruct (serial_run evs createAsyncRegistry) as [Hr _].
  - apply new_well_formed.
  - intros ref st'. simpl. by rewrite lookup_empty.
  - exact Hs.
  - unfold getStateA.
    destruct (state_refs (run handler evs createAsyncRegistry) !! k)
      as [ref|]; [|done].
    simpl. intros Hst. pose proof (Hr ref st Hst). lia.
Qed.
End WithHandler.

Lemma errors_at_most_one_witness :
  serial sample_handler serial_failures createAsyncRegistry ∧
  ∃ st,
    getStateA "selector"
      (run sample_handler serial_failures createAsyncRegistry) = Some st ∧
    errors st = ["Reduce of empty array with no initial value"] ∧
    (length (errors st) ≤ 1)%nat.
Proof.
  assert (Hs : serial sample_handler serial_failures createAsyncRegistry).
  { simpl. repeat split; intros ref; vm_compute; congruence. }
  split; [exact Hs|].
  eexists. split; [vm_compute; reflexivity|]. split; [reflexivity|].
  apply (errors_at_most_one sample_handler serial_failures "selector" _ Hs).
  vm_compute; reflexivity.
Defined.

(** C10, as the claim has it, fails: two activations of one kernel that
    both start before either settles each push a message after the
    second has reset the list, which then holds two. *)
Lemma overlapping_activations_leave_two_errors :
  ∃ st,
    getStateA "selector"
      (run sample_handler overlapping_failures createAsyncRegistry)
    = Some st ∧
    errors st = ["Reduce of empty array with no initial value";
                 "Reduce of empty array with no initial value"] ∧
    ¬ (length (errors st) ≤ 1)%nat.
Proof.
  eexists. split; [vm_compute; reflexivity|]. split; [reflexivity|].
  simpl. lia.
Qed.
End RegistryAsyncFacts.

(** ** Sorting *)

Module JsSortFacts.
Import JsNum JsNumFacts JsSort.
Local Open Scope Q_scope.

Section Sort.
Context {A : Type} (cmp : A -> A -> Q).

(** A comparator that orders by a key, as [(a, b) => key(a) - key(b)]
    and its mirror image do. *)
Hypothesis cmp_total : forall x y, 0 < cmp x y -> cmp y x <= 0.
Hypothesis cmp_trans :
  forall x y z, cmp x y <= 0 -> cmp y z <= 0 -> cmp x z <= 0.

Lemma insert_by_perm x l : Permutation (insert_by cmp x l) (x :: l).
Proof.
  induction l as [|y l IH]; simpl; [done|].
  destruct (gtb (cmp x y) 0); [|done].
  rewrite IH. apply perm_swap.
Qed.

Lemma sort_by_perm l : Permutation (sort_by cmp l) l.
Proof.
  induction l as [|x l IH]; simpl; [done|].
  rewrite insert_by_perm. by constructor.
Qed.

Lemma insert_by_sorted x l :
  sorted_by cmp l -> sorted_by cmp (insert_by cmp x l).
Proof.
  induction 1 as [|y l Hy Hl IH]; simpl.
  - constructor; constructor.
  - destruct (gtb (cmp x y) 0) eqn:E.
    + apply gtb_true in E. constructor; [|exact IH].
      rewrite insert_by_perm. constructor; [by apply cmp_total | exact Hy].
    + apply gtb_false in E. constructor; [|by constructor].
      constructor; [exact E|].
      eapply Forall_impl; [exact Hy|]. intros z Hz. simpl in Hz.
      by apply (cmp_trans x y z).
Qed.

Lemma sort_by_sorted l : sorted_by cmp (sort_by cmp l).
Proof.
  induction l as [|x l IH]; simpl; [constructor|].
  by apply insert_by_sorted.
Qed.
End Sort.
End JsSortFacts.

(** ** Inference engine *)

Module PLNFacts.
Import JsNum JsNumFacts JsMap JsSort JsSortFacts Truth PLN.
Local Open Scope Q_scope.

(** C5. With the one rule from [p] and [q] to [r] at strength 0.9,
    [forwardChain(['p','q'])] returns one result: the conclusion [r]
    with strength 0.9, whatever the regular-expression engine does. *)
Theorem forwardChain_scenario (regex_test : string -> string -> bool) :
  exists res,
    forwardChain regex_test ["p"; "q"] scenario_engine = [res] /\
    res_conclusion res = "r" /\
    strength (res_tv res) == 9 # 10 /\
    strength (combineTruthValues
                [{| strength := 1; uncertainty := 0 |};
                 {| strength := 1; uncertainty := 0 |}]) == 1.
Proof.
  eexists. split; [vm_compute; reflexivity|].
  split; [reflexivity|]. split; vm_compute; reflexivity.
Qed.

Lemma by_confidence_total x y :
  0 < by_confidence x y -> by_confidence y x <= 0.
Proof. unfold by_confidence. lra. Qed.

Lemma by_confidence_trans x y z :
  by_confidence x y <= 0 -> by_confidence y z <= 0 ->
  by_confidence x z <= 0.
Proof. unfold by_confidence. lra. Qed.

(** The results of [backwardChain] come in descending confidence. *)
Lemma backwardChain_sorted goal e :
  sorted_by by_confidence (backwardChain goal e).
Proof.
  apply sort_by_sorted; [apply by_confidence_total|apply by_confidence_trans].
Qed.

(** A goal of the fact base is returned with its stored truth value. *)
Lemma backwardChain_fact goal e tv :
  facts e !! goal = Some tv ->
  backwardChain goal e = [fact_result goal tv 0].
Proof.
  intros Hf. unfold backwardChain. simpl.
  rewrite bool_decide_eq_false_2 by set_solver. simpl. rewrite Hf. done.
Qed.

Lemma chain_goal_provable : provable chain_engine "g".
Proof.
  assert (Hp : provable chain_engine "p")
    by (eapply provable_fact; vm_compute; reflexivity).
  assert (Ha : provable chain_engine "a").
  { apply (provable_rule _ _ rule_a); [simpl; tauto | done |].
    repeat constructor. exact Hp. }
  apply (provable_rule _ _ rule_g); [simpl; tauto | done |].
  repeat constructor; assumption.
Qed.

(** C6, on the engine with the fact [p] and the rules [p => a] and
    [p, a => g]: the rule for [g] concludes the goal and both of its
    premises are provable, the forward chainer derives [g] from [p], yet
    [backwardChain('g')] returns nothing.  The proof of [p] for the first
    premise leaves [p] in the visited set, which makes the proof of [a]
    fail. *)
Theorem backwardChain_misses_provable_rule
    (regex_test : string -> string -> bool) :
  In rule_g (jm_values (rules chain_engine)) /\
  conclusion rule_g = "g" /\
  Forall (provable chain_engine) (premise rule_g) /\
  facts chain_engine !! "g" = None /\
  backwardChain "g" chain_engine = [] /\
  In "g" (map res_conclusion (forwardChain regex_test ["p"] chain_engine)).
Proof.
  split; [simpl; tauto|]. split; [done|]. split.
  { repeat constructor.
    - eapply provable_fact; vm_compute; reflexivity.
    - apply (provable_rule _ _ rule_a); [simpl; tauto | done |].
      repeat constructor. eapply provable_fact; vm_compute; reflexivity. }
  split; [vm_compute; reflexivity|].
  split; [vm_compute; reflexivity|].
  vm_compute. tauto.
Qed.
End PLNFacts.

(** ** Maps in insertion order *)

Module JsMapFacts.
Import JsMap.

Section Facts.
Context {V : Type}.
Implicit Types (m : list (string * V)) (k : string) (v : V).

Lemma jm_get_in m k v :
  NoDup (jm_keys m) -> In (k, v) m -> jm_get k m = Some v.
Proof.
  induction m as [|[k' v'] m IH]; simpl; [tauto|].
  intros Hnd [Heq|Hin].
  - injection Heq as -> ->. by rewrite String.eqb_refl.
  - apply NoDup_cons in Hnd as [Hk' Hnd].
    destruct (String.eqb_spec k k') as [->|_]; [|by apply IH].
    exfalso. apply Hk'. apply list_elem_of_In.
    change k' with (fst (k', v)). by apply in_map.
Qed.

Lemma jm_get_not_in m k : ~ In k (jm_keys m) -> jm_get k m = None.
Proof.
  induction m as [|[k' v'] m IH]; simpl; [done|].
  intros Hk. destruct (String.eqb_spec k k') as [->|_]; [tauto|].
  apply IH. tauto.
Qed.


Lemma jm_keys_set_new m k v :
  ~ In k (jm_keys m) -> jm_keys (jm_set k v m) = (jm_keys m ++ [k])%list.
Proof.
  induction m as [|[k' v'] m IH]; simpl; [done|].
  intros Hk. destruct (String.eqb_spec k k') as [->|Hne]; [tauto|].
  simpl. f_equal. apply IH. tauto.
Qed.

Lemma jm_get_set_eq m k v : jm_get k (jm_set k v m) = Some v.
Proof.
  induction m as [|[k' v'] m IH]; simpl.
  - by rewrite String.eqb_refl.
  - destruct (String.eqb_spec k k') as [->|Hne]; simpl.
    + by rewrite String.eqb_refl.
    + destruct (String.eqb_spec k k'); [done|apply IH].
Qed.

Lemma jm_get_set_ne m k k' v :
  k <> k' -> jm_get k' (jm_set k v m) = jm_get k' m.
Proof.
  intros Hne. induction m as [|[k0 v0] m IH]; simpl.
  - destruct (String.eqb_spec k' k); [congruence|done].
  - destruct (String.eqb_spec k k0) as [->|Hne0]; simpl.
    + destruct (String.eqb_spec k' k0); [congruence|done].
    + rewrite IH. done.
Qed.
End Facts.
End JsMapFacts.

(** ** Pattern matcher *)

Module MatcherFacts.
Import JsNum JsMap JsMapFacts Json Matcher.
Local Open Scope Q_scope.

(** Induction over a value and the values inside it. *)
Lemma value_deep_ind (P : value -> Prop) :
  P VUndefined -> P VNull -> (forall b, P (VBool b)) ->
  (forall q, P (VNum q)) -> P VNaN -> (forall b, P (VInf b)) ->
  (forall s, P (VStr s)) ->
  (forall items, Forall P items -> P (VArr items)) ->
  (forall fields, Forall (fun kv => P kv.2) fields -> P (VObj fields)) ->
  forall v, P v.
Proof.
  intros Hu Hn Hb Hq Hnan Hinf Hs Ha Ho. fix IH 1.
  intros [| |b|q| |b|s|items|fields].
  - exact Hu.
  - exact Hn.
  - apply Hb.
  - apply Hq.
  - exact Hnan.
  - apply Hinf.
  - apply Hs.
  - apply Ha. induction items as [|x items IHitems]; constructor.
    + apply IH.
    + exact IHitems.
  - apply Ho. induction fields as [|[k x] fields IHfields]; constructor.
    + apply IH.
    + exact IHfields.
Qed.

Lemma bump_bump n m st : bump n (bump m st) = bump (m + n) st.
Proof. unfold bump; simpl. f_equal; lia. Qed.

Lemma matched_bump_total n st :
  count_matched (bump n (count_total st)) = bump (S n) st.
Proof. unfold count_matched, bump, count_total; simpl. f_equal; lia. Qed.

Lemma matched_total st : count_matched (count_total st) = bump 1 st.
Proof. unfold count_matched, bump, count_total; simpl. f_equal; lia. Qed.

Section Loops.
Variable rec : value -> value -> counters -> bool * counters.

Lemma by_elems_self ps :
  Forall (matches_itself rec) ps ->
  forall st, exists n, by_elems rec ps ps st = (true, count_matched (bump n st)).
Proof.
  induction 1 as [|p ps Hp _ IH]; intros st; simpl.
  - exists 0%nat. do 2 f_equal. unfold bump. destruct st; simpl.
    f_equal; lia.
  - destruct (Hp st) as [n ->]. destruct (IH (bump n st)) as [m ->].
    exists (n + m)%nat. by rewrite bump_bump.
Qed.

Lemma by_keys_self ps iObj :
  Forall (fun kv => jm_get kv.1 iObj = Some kv.2 /\ matches_itself rec kv.2) ps ->
  forall st, exists n, by_keys rec ps iObj st = (true, count_matched (bump n st)).
Proof.
  induction 1 as [|[k p] ps [Hk Hp] _ IH]; intros st; simpl in *.
  - exists 0%nat. do 2 f_equal. unfold bump. destruct st; simpl.
    f_equal; lia.
  - rewrite Hk. destruct (Hp st) as [n ->].
    destruct (IH (bump n st)) as [m ->].
    exists (n + m)%nat. by rewrite bump_bump.
Qed.
End Loops.

Lemma strict_eq_refl p :
  match p with
  | VArr _ | VObj _ | VNaN => True
  | _ => strict_eq p p = true
  end.
Proof.
  destruct p as [| |b|q| |b|s|?|?]; simpl; try done.
  - by destruct b.
  - apply Qeq_bool_iff. reflexivity.
  - by destruct b.
  - apply String.eqb_refl.
Qed.

(** Matching a pattern without variables against itself succeeds, and
    every call of [matchRecursive] counts a matched field. *)
Lemma matchRecursive_self p :
  no_variables p = true -> distinct_keys p = true -> no_nan p = true ->
  forall st, exists n, matchRecursive p p st = (true, bump (S n) st).
Proof.
  induction p as [| |b|q| |b|s|items IH|fields IH] using value_deep_ind;
    intros Hnv Hdk Hnn st.
  1-4,6: exists 0%nat; simpl; rewrite ?Bool.eqb_reflx, ?Qeq_bool_refl;
         by rewrite matched_total.
  - discriminate Hnn.
  - exists 0%nat. simpl in *. apply negb_true_iff in Hnv. rewrite Hnv.
    rewrite String.eqb_refl. by rewrite matched_total.
  - simpl in *. rewrite Nat.eqb_refl. simpl.
    destruct (by_elems_self matchRecursive items) with (st := count_total st)
      as [n ->].
    + rewrite forallb_forall in Hnv, Hdk, Hnn.
      rewrite Forall_forall in IH |- *.
      intros p Hp st'. apply list_elem_of_In in Hp as Hp'.
      destruct (IH p Hp (Hnv p Hp') (Hdk p Hp') (Hnn p Hp') st') as [n Hn].
      eauto.
    + exists n. by rewrite matched_bump_total.
  - simpl in *. apply andb_true_iff in Hdk as [Hnd Hdk].
    apply bool_decide_eq_true in Hnd.
    destruct (by_keys_self matchRecursive fields fields)
      with (st := count_total st) as [n ->].
    + rewrite forallb_forall in Hnv, Hdk, Hnn.
      rewrite Forall_forall in IH |- *.
      intros [k p] Hp. apply list_elem_of_In in Hp as Hp'. simpl. split.
      * by apply jm_get_in.
      * intros st'.
        destruct (IH _ Hp (Hnv _ Hp') (Hdk _ Hp') (Hnn _ Hp') st')
          as [n Hn].
        eauto.
    + exists n. by rewrite matched_bump_total.
Qed.

(** C8, as the code has it.  A pattern without variable tokens and
    without [NaN], matched exactly against an input identical to it, has
    confidence 1. *)
Theorem self_match_confidence (pattern : value)
    (bindings0 : list (string * value)) :
  no_variables pattern = true -> distinct_keys pattern = true ->
  no_nan pattern = true ->
  (calculateMatchConfidence pattern pattern bindings0).1 == 1.
Proof.
  intros Hnv Hdk Hnn. unfold calculateMatchConfidence.
  destruct (matchRecursive_self pattern Hnv Hdk Hnn
              {| totalFields := 0; matchedFields := 0;
                 bindings := bindings0 |}) as [n ->].
  simpl. unfold of_nat, Qdiv. apply Qmult_inv_r.
  intros H. unfold Qeq in H. simpl in H. lia.
Qed.

Lemma self_match_confidence_witness :
  no_variables user_pattern = true /\ distinct_keys user_pattern = true /\
  no_nan user_pattern = true /\
  (calculateMatchConfidence user_pattern user_pattern []).1 == 1.
Proof.
  split; [reflexivity|]. split; [reflexivity|]. split; [reflexivity|].
  apply (self_match_confidence user_pattern []); reflexivity.
Defined.

(** C8, as the claim has it, fails: the pattern [{x: NaN}] holds no
    variable token, and matched against itself it has confidence 0,
    since [NaN === NaN] is false. *)
Lemma self_match_fails_on_nan :
  no_variables nan_pattern = true /\ distinct_keys nan_pattern = true /\
  (calculateMatchConfidence nan_pattern nan_pattern []).1 == 0 /\
  ~ (calculateMatchConfidence nan_pattern nan_pattern []).1 == 1.
Proof.
  split; [reflexivity|]. split; [reflexivity|].
  split; [reflexivity|]. by vm_compute.
Qed.
End MatcherFacts.

(** ** Attention allocator *)

Module AttentionFacts.
Import JsNum JsNumFacts JsMap JsMapFacts JsSort JsSortFacts Attention.
Local Open Scope Q_scope.

(** C1. The allocator of the scenario has nothing available; the call
    [allocate('perception', 0.1)] exceeds the budget, is covered by the
    emergency pool, returns [true], and leaves 0.4 for [perception]. *)
Theorem scenario_allocate :
  getAvailable scenario_allocator == 0 /\
  gtb (getTotalAllocated scenario_allocator + (1 # 10))
      (budget scenario_allocator) = true /\
  canRedistribute (1 # 10) scenario_allocator = true /\
  (allocate "perception" (1 # 10) scenario_allocator).1 = true /\
  getAllocation "perception"
    (allocate "perception" (1 # 10) scenario_allocator).2 == 4 # 10.
Proof. repeat split; vm_compute; reflexivity. Qed.

(** *** Maps of numbers *)












(** *** The bound on the total *)







Lemma scenario_sane : sane scenario_allocator.
Proof.
  split; [|split].
  - unfold jm_wf. refine (bool_decide_unpack _ _). vm_compute. exact I.
  - unfold nonneg_allocations. simpl. repeat constructor; by vm_compute.
  - by vm_compute.
Qed.

(** *** Competition *)

Lemma jm_set_new {V} (m : list (string * V)) k v :
  ~ In k (jm_keys m) -> jm_set k v m = (m ++ [(k, v)])%list.
Proof.
  induction m as [|[k' v'] m IH]; simpl; [done|].
  intros Hk. destruct (String.eqb_spec k k') as [->|Hne]; [tauto|].
  f_equal. apply IH. tauto.
Qed.











End AttentionFacts.

(** ** Attention allocator, in the arithmetic of the platform *)

Module AttentionDoubleFacts.
Import Floats JsNum JsMap JsDouble AttentionDouble JsNumFacts JsMapFacts.
Local Open Scope Q_scope.


















End AttentionDoubleFacts.

(** ** Hypergraph store *)

Module HypergraphFacts.
Import JsNum Hypergraph.

Lemma includes_true x l : includes x l = true ↔ x ∈ l.
Proof.
  unfold includes. rewrite existsb_exists. split.
  - intros (y & Hy & ->%String.eqb_eq). by apply list_elem_of_In.
  - intros Hx. exists x. split; [by apply list_elem_of_In|].
    apply String.eqb_refl.
Qed.

Lemma elem_of_without x y l : x ∈ without y l ↔ x ∈ l ∧ x ≠ y.
Proof.
  unfold without. rewrite list_elem_of_In, filter_In, <- list_elem_of_In.
  rewrite negb_true_iff, String.eqb_neq. done.
Qed.

(** *** What the two link operations do to one stored node *)

Lemma removeLink_lookup from to g x :
  removeLink from to g !! x = unlinked from to x <$> g !! x.
Proof.
  unfold removeLink, unlinked. rewrite !lookup_alter.
  repeat case_decide; simplify_eq; try done; by destruct (g !! x).
Qed.

Lemma addLink_lookup from to g :
  is_Some (g !! from) → is_Some (g !! to) →
  ∃ g', addLink from to g = inr g' ∧
        ∀ x, g' !! x = linked from to x <$> g !! x.
Proof.
  intros [nf Hf] [nt Ht]. unfold addLink. rewrite Hf, Ht.
  eexists. split; [done|]. intros x. unfold linked. rewrite !lookup_alter.
  repeat case_decide; simplify_eq; try done; by destruct (g !! x).
Qed.

Lemma unlinked_outgoing from to x n y :
  y ∈ outgoing (unlinked from to x n) ↔
  y ∈ outgoing n ∧ ¬ (from = x ∧ y = to).
Proof.
  unfold unlinked. repeat case_decide; simpl;
    rewrite ?elem_of_without; intuition congruence.
Qed.

Lemma unlinked_incoming from to x n y :
  y ∈ incoming (unlinked from to x n) ↔
  y ∈ incoming n ∧ ¬ (to = x ∧ y = from).
Proof.
  unfold unlinked. repeat case_decide; simpl;
    rewrite ?elem_of_without; intuition congruence.
Qed.

Lemma unlinked_id from to x n : id (unlinked from to x n) = id n.
Proof. unfold unlinked. by repeat case_decide. Qed.

Lemma linked_id from to x n : id (linked from to x n) = id n.
Proof.
  unfold linked.
  repeat match goal with
         | |- context [if ?c then _ else _] => destruct c
         end; done.
Qed.

Lemma linked_outgoing from to n : to ∈ outgoing (linked from to from n).
Proof.
  unfold linked. destruct (decide (from = from)); [|done].
  assert (H : to ∈ outgoing (if includes to (outgoing n) then n
                             else with_outgoing n (outgoing n ++ [to]))).
  { destruct (includes to (outgoing n)) eqn:E.
    - by apply includes_true in E.
    - simpl. set_solver. }
  repeat match goal with
         | |- context [if ?c then _ else _] => destruct c
         end; done.
Qed.

Lemma linked_incoming from to n : from ∈ incoming (linked from to to n).
Proof.
  unfold linked. destruct (decide (to = to)); [|done].
  set (n1 := if decide (from = to) then _ else n).
  destruct (includes from (incoming n1)) eqn:E.
  - by apply includes_true in E.
  - simpl. set_solver.
Qed.

(** *** Neighbour lookups *)

Lemma among_omap g k l :
  keyed g → among k (omap (λ j, g !! j) l) ↔ k ∈ l ∧ is_Some (g !! k).
Proof.
  intros Hkey. unfold among. rewrite list_elem_of_fmap. split.
  - intros (n & -> & (j & Hj & Hn)%list_elem_of_omap).
    rewrite (Hkey j n Hn). eauto.
  - intros [Hk [n Hn]]. exists n. split; [by rewrite (Hkey k n Hn)|].
    apply list_elem_of_omap. eauto.
Qed.

Lemma keyed_fmap g g' (f : string → HypergraphNode → HypergraphNode) :
  keyed g → (∀ x n, id (f x n) = id n) →
  (∀ x, g' !! x = f x <$> g !! x) → keyed g'.
Proof.
  intros Hkey Hid Hg' k n. rewrite Hg'.
  destruct (g !! k) as [n0|] eqn:E; [|done].
  intros [= <-]. rewrite Hid. by apply Hkey.
Qed.

Lemma keyed_removeLink from to g : keyed g → keyed (removeLink from to g).
Proof.
  intros Hkey. apply (keyed_fmap g _ (unlinked from to) Hkey).
  - intros. apply unlinked_id.
  - apply removeLink_lookup.
Qed.

Lemma keyed_addNode node g : keyed g → keyed (addNode node g).
Proof.
  intros Hkey k n. unfold addNode. rewrite lookup_insert.
  case_decide; [by intros [= <-]|apply Hkey].
Qed.

(** The walk of the documentation: on [A -> B -> C], depth 2 reaches all
    three nodes in order and depth 0 the start alone. *)
Example traverse_chain :
  map id (traverse "A" (Finite 2) chain_graph) = ["A"; "B"; "C"] ∧
  map id (traverse "A" (Finite 0) chain_graph) = ["A"] ∧
  map id (traverse "A" NaN chain_graph) = ["A"; "B"; "C"] ∧
  traverse "A" (Finite (-1)) chain_graph = [].
Proof. repeat split; vm_compute; reflexivity. Qed.

(** *** Links *)

Lemma addLink_among g a b :
  keyed g → is_Some (g !! a) → is_Some (g !! b) →
  ∃ g', addLink a b g = inr g' ∧
        among b (getOutgoing a g') ∧ among a (getIncoming b g').
Proof.
  intros Hkey Ha Hb.
  destruct (addLink_lookup a b g Ha Hb) as (g' & Hadd & Hg').
  assert (Hkey' : keyed g').
  { apply (keyed_fmap g g' (linked a b) Hkey); [|done].
    intros. apply linked_id. }
  exists g'. split; [done|]. unfold getOutgoing, getIncoming.
  rewrite !Hg'. destruct Ha as [na Ha], Hb as [nb Hb]. rewrite Ha, Hb.
  simpl. split; apply among_omap; try done.
  - split; [apply linked_outgoing|]. rewrite Hg', Hb. by eexists.
  - split; [apply linked_incoming|]. rewrite Hg', Ha. by eexists.
Qed.

Lemma removeLink_not_among g a b :
  keyed g →
  ¬ among b (getOutgoing a (removeLink a b g)) ∧
  ¬ among a (getIncoming b (removeLink a b g)).
Proof.
  intros Hkey. pose proof (keyed_removeLink a b g Hkey) as Hkey'.
  unfold getOutgoing, getIncoming. rewrite !removeLink_lookup.
  split.
  - destruct (g !! a) as [na|]; simpl; [|unfold among; set_solver].
    rewrite among_omap by done. intros [H _].
    apply unlinked_outgoing in H. tauto.
  - destruct (g !! b) as [nb|]; simpl; [|unfold among; set_solver].
    rewrite among_omap by done. intros [H _].
    apply unlinked_incoming in H. tauto.
Qed.

(** *** Removal of a node *)

Lemma fold_left_preserves {A B} (f : B → A → B) (P : B → Prop) l b :
  (∀ b e, P b → P (f b e)) → P b → P (fold_left f l b).
Proof.
  intros Hf. revert b. induction l as [|e l IH]; intros b Hb; simpl; auto.
Qed.

Lemma fold_left_establishes {A B} (f : B → A → B) (P : B → Prop) x l b :
  (∀ b, P (f b x)) → (∀ b e, P b → P (f b e)) → x ∈ l →
  P (fold_left f l b).
Proof.
  intros Hx Hf. revert b.
  induction l as [|e l IH]; intros b Hin; simpl; [by apply elem_of_nil in Hin|].
  apply elem_of_cons in Hin as [->|Hin].
  - by apply fold_left_preserves.
  - by apply IH.
Qed.

Section Removal.
Variables x k : string.

Lemma no_out_removeLink from to g : no_out x k g → no_out x k (removeLink from to g).
Proof.
  intros H nx. rewrite removeLink_lookup.
  destruct (g !! x) as [n|] eqn:E; [|done]. intros [= <-].
  rewrite unlinked_outgoing. intros [Hk _]. by apply (H n).
Qed.

Lemma no_in_removeLink from to g : no_in x k g → no_in x k (removeLink from to g).
Proof.
  intros H nx. rewrite removeLink_lookup.
  destruct (g !! x) as [n|] eqn:E; [|done]. intros [= <-].
  rewrite unlinked_incoming. intros [Hk _]. by apply (H n).
Qed.

Lemma no_out_here g : no_out x k (removeLink x k g).
Proof.
  intros nx. rewrite removeLink_lookup.
  destruct (g !! x) as [n|]; [|done]. intros [= <-].
  rewrite unlinked_outgoing. tauto.
Qed.

Lemma no_in_here g : no_in x k (removeLink k x g).
Proof.
  intros nx. rewrite removeLink_lookup.
  destruct (g !! x) as [n|]; [|done]. intros [= <-].
  rewrite unlinked_incoming. tauto.
Qed.

Lemma still_out_removeLink from g :
  x ≠ k → still_out x k g → still_out x k (removeLink from k g).
Proof.
  unfold still_out. intros Hne. rewrite removeLink_lookup.
  destruct (g !! k) as [n|]; [|done]. simpl.
  rewrite unlinked_outgoing. tauto.
Qed.
End Removal.

Lemma removeNode_unreferenced k g :
  mirrored_at k g → unreferenced k (removeNode k g).
Proof.
  intros Hmir x nx. unfold removeNode.
  destruct (g !! k) as [node|] eqn:Hk.
  - rewrite lookup_delete. case_decide as Hxk; [done|]. intros Hx.
    set (g1 := fold_left (λ g incomingId, removeLink incomingId k g)
                 (incoming node) g) in *.
    set (outgoing1 := from_option outgoing [] (g1 !! k)) in *.
    assert (Hout : no_out x k g ∨ x ∈ incoming node).
    { destruct (g !! x) as [n0|] eqn:E; [|left; intros ?; by rewrite E].
      destruct (decide (k ∈ outgoing n0)) as [Hin|Hnin].
      - right. destruct (Hmir x n0 E) as [H _]. rewrite Hk in H. by apply H.
      - left. intros ?. rewrite E. by intros [= <-]. }
    assert (Hin : no_in x k g ∨ x ∈ outgoing1).
    { destruct (g !! x) as [n0|] eqn:E; [|left; intros ?; by rewrite E].
      destruct (decide (k ∈ incoming n0)) as [Hin|Hnin].
      - right. destruct (Hmir x n0 E) as [_ H]. specialize (H Hin).
        apply (fold_left_preserves _ (still_out x k)).
        + intros. by apply still_out_removeLink.
        + exact H.
      - left. intros ?. rewrite E. by intros [= <-]. }
    assert (Hout1 : no_out x k g1).
    { destruct Hout as [H|H].
      - apply (fold_left_preserves _ (no_out x k));
          [intros; by apply no_out_removeLink|done].
      - apply (fold_left_establishes _ (no_out x k) x);
          [apply no_out_here|intros; by apply no_out_removeLink|done]. }
    assert (Hin1 : no_in x k g1 ∨ x ∈ outgoing1).
    { destruct Hin as [H|H]; [left|by right].
      apply (fold_left_preserves _ (no_in x k));
        [intros; by apply no_in_removeLink|done]. }
    split.
    + revert nx Hx. apply (fold_left_preserves _ (no_out x k));
        [intros; by apply no_out_removeLink|done].
    + revert nx Hx. destruct Hin1 as [H|H].
      * apply (fold_left_preserves _ (no_in x k));
          [intros; by apply no_in_removeLink|done].
      * apply (fold_left_establishes _ (no_in x k) x);
          [apply no_in_here|intros; by apply no_in_removeLink|done].
  - intros Hx. destruct (Hmir x nx Hx) as [H1 H2]. rewrite Hk in H1, H2.
    simpl in *. set_solver.
Qed.

(** C2, as the code has it.  In a store that files its nodes under
    their ids, for nodes [a] and [b] that are present: [addLink(a, b)]
    succeeds and puts [b] among [getOutgoing(a)] and [a] among
    [getIncoming(b)]; after [removeLink(a, b)] neither holds; and when
    the references to [k] are mirrored in the lists of [k], no node that
    remains after [removeNode(k)] lists [k]. *)
Theorem links_and_removal g a b k :
  keyed g → is_Some (g !! a) → is_Some (g !! b) →
  (∃ g', addLink a b g = inr g' ∧
         among b (getOutgoing a g') ∧ among a (getIncoming b g')) ∧
  (¬ among b (getOutgoing a (removeLink a b g)) ∧
   ¬ among a (getIncoming b (removeLink a b g))) ∧
  (mirrored_at k g → unreferenced k (removeNode k g)).
Proof.
  intros Hkey Ha Hb. split; [by apply addLink_among|].
  split; [by apply removeLink_not_among|]. apply removeNode_unreferenced.
Qed.

Lemma links_and_removal_witness :
  (∃ g', addLink "A" "C" chain_graph = inr g' ∧
         among "C" (getOutgoing "A" g') ∧ among "A" (getIncoming "C" g')) ∧
  (¬ among "B" (getOutgoing "A" (removeLink "A" "B" chain_graph)) ∧
   ¬ among "A" (getIncoming "B" (removeLink "A" "B" chain_graph))) ∧
  unreferenced "B" (removeNode "B" chain_graph).
Proof.
  destruct (links_and_removal chain_graph "A" "C" "B") as (H1 & _ & H3).
  - refine (bool_decide_unpack _ _). vm_compute. exact I.
  - vm_compute. eauto.
  - vm_compute. eauto.
  - destruct (links_and_removal chain_graph "A" "B" "B") as (_ & H2 & _).
    + refine (bool_decide_unpack _ _). vm_compute. exact I.
    + vm_compute. eauto.
    + vm_compute. eauto.
    + split; [exact H1|]. split; [exact H2|]. apply H3.
      refine (bool_decide_unpack _ _). vm_compute. exact I.
Defined.

(** C2, as stated, fails on [removeNode].  Once [B] is added anew, the
    node [A] still lists [B] while the new [B] lists nothing, and
    [removeNode('B')] leaves the reference in [A]. *)
Lemma removeNode_leaves_reference :
  keyed resaved_graph ∧
  ∃ nA, removeNode "B" resaved_graph !! "A" = Some nA ∧
        "B" ∈ outgoing nA ∧
        ¬ unreferenced "B" (removeNode "B" resaved_graph).
Proof.
  split; [refine (bool_decide_unpack _ _); vm_compute; exact I|].
  eexists. split; [vm_compute; reflexivity|].
  split; [constructor|].
  intros H. specialize (H "A" _ ltac:(vm_compute; reflexivity)).
  destruct H as [H _]. apply H. constructor.
Qed.
End HypergraphFacts.

(** ** Hypergraph store: links, consistency, walks *)

Module HypergraphOpsFacts.
Import JsNum JsNumFacts JsMap JsMapFacts Hypergraph HypergraphFacts HypergraphOps.

(** *** Adding a link twice, and taking it back *)

Lemma linked_outgoing_iff from to x n y :
  y ∈ outgoing (linked from to x n) ↔ y ∈ outgoing n ∨ (from = x ∧ y = to).
Proof.
  assert (H : ∀ m, outgoing m = outgoing
                (if decide (to = x)
                 then (if includes from (incoming m) then m
                       else with_incoming m (incoming m ++ [from]))
                 else m)).
  { intros m. destruct (decide (to = x)); [|done].
    by destruct (includes from (incoming m)). }
  unfold linked. rewrite <- H. destruct (decide (from = x)) as [->|Hne].
  - destruct (includes to (outgoing n)) eqn:E.
    + apply includes_true in E. split; [by left|]. intros [?|[_ ->]]; done.
    + simpl. rewrite elem_of_app, list_elem_of_singleton. intuition congruence.
  - intuition congruence.
Qed.

Lemma linked_incoming_iff from to x n y :
  y ∈ incoming (linked from to x n) ↔ y ∈ incoming n ∨ (to = x ∧ y = from).
Proof.
  unfold linked.
  set (n1 := if decide (from = x) then _ else n).
  assert (H1 : incoming n1 = incoming n).
  { unfold n1. destruct (decide (from = x)); [|done].
    by destruct (includes to (outgoing n)). }
  destruct (decide (to = x)) as [->|Hne].
  - destruct (includes from (incoming n1)) eqn:E.
    + apply includes_true in E. rewrite H1 in *.
      split; [by left|]. intros [?|[_ ->]]; done.
    + simpl. rewrite H1, elem_of_app, list_elem_of_singleton. intuition congruence.
  - rewrite H1. intuition congruence.
Qed.

Lemma with_outgoing_same n : with_outgoing n (outgoing n) = n.
Proof. by destruct n. Qed.

Lemma with_incoming_same n : with_incoming n (incoming n) = n.
Proof. by destruct n. Qed.

Lemma without_app_new x l : x ∉ l → without x (l ++ [x]) = l.
Proof.
  intros Hx. unfold without. rewrite List.filter_app. simpl.
  rewrite String.eqb_refl. simpl. rewrite app_nil_r.
  apply forallb_filter_id. apply forallb_forall. intros y Hy.
  apply negb_true_iff, String.eqb_neq. intros ->. apply Hx.
  by apply list_elem_of_In.
Qed.

Lemma linked_twice from to x n :
  linked from to x (linked from to x n) = linked from to x n.
Proof.
  assert (Ho : includes to (outgoing (linked from to x n)) = true
               ∨ from ≠ x).
  { destruct (decide (from = x)) as [->|?]; [left|by right].
    apply includes_true, linked_outgoing. }
  assert (Hi : includes from (incoming (linked from to x n)) = true
               ∨ to ≠ x).
  { destruct (decide (to = x)) as [->|?]; [left|by right].
    apply includes_true, linked_incoming. }
  set (m := linked from to x n) in *. unfold linked at 1.
  destruct (decide (from = x)) as [Hf|Hf], (decide (to = x)) as [Ht|Ht].
  - destruct Ho as [->|?]; [|done]. destruct Hi as [->|?]; done.
  - destruct Ho as [->|?]; done.
  - destruct Hi as [->|?]; done.
  - done.
Qed.

(** X7. [addLink] throws exactly when an endpoint is missing; when it
    succeeds the same nodes are stored, and a second [addLink(a, b)]
    changes nothing. *)
Theorem addLink_idempotent g a b :
  (is_Some (addLink_error a b g) ↔ g !! a = None ∨ g !! b = None) ∧
  ∀ g', addLink a b g = inr g' →
        (∀ x, is_Some (g' !! x) ↔ is_Some (g !! x)) ∧
        addLink a b g' = inr g'.
Proof.
  split.
  - unfold addLink_error, addLink.
    destruct (g !! a), (g !! b); simpl; split;
      try (intros [? [=]]); try (intros [[=]|[=]]); eauto.
  - intros g' Hadd.
    assert (Ha : is_Some (g !! a) ∧ is_Some (g !! b)).
    { unfold addLink in Hadd. destruct (g !! a), (g !! b); by eauto. }
    destruct Ha as [Ha Hb].
    destruct (addLink_lookup a b g Ha Hb) as (g1 & Hadd1 & Hg1).
    rewrite Hadd in Hadd1. injection Hadd1 as <-.
    assert (Hdom : ∀ x, is_Some (g' !! x) ↔ is_Some (g !! x)).
    { intros x. rewrite Hg1. by rewrite fmap_is_Some. }
    split; [done|].
    destruct (addLink_lookup a b g') as (g2 & Hadd2 & Hg2);
      [by apply Hdom..|].
    rewrite Hadd2. f_equal. apply map_eq. intros x.
    rewrite Hg2, Hg1. destruct (g !! x); simpl; [|done].
    by rewrite linked_twice.
Qed.

(** Where every node owns its lists: on a graph where [a] does not list
    [b] and [b] does not list [a], [removeLink(a, b)] after
    [addLink(a, b)] gives the graph back. *)
Lemma own_removeLink_undoes_addLink g g' a b :
  addLink a b g = inr g' →
  b ∉ from_option outgoing [] (g !! a) →
  a ∉ from_option incoming [] (g !! b) →
  removeLink a b g' = g.
Proof.
  intros Hadd Hab Hba.
  assert (Ha : is_Some (g !! a) ∧ is_Some (g !! b)).
  { unfold addLink in Hadd. destruct (g !! a), (g !! b); by eauto. }
  destruct Ha as [Ha Hb].
  destruct (addLink_lookup a b g Ha Hb) as (g1 & Hadd1 & Hg1).
  rewrite Hadd in Hadd1. injection Hadd1 as <-.
  apply map_eq. intros x. rewrite removeLink_lookup, Hg1.
  destruct (g !! x) as [n|] eqn:Hx; simpl; [|done]. f_equal.
  unfold linked, unlinked.
  destruct (decide (a = x)) as [->|Hax].
  - rewrite Hx in Hab. simpl in Hab.
    assert (Eo : includes b (outgoing n) = false).
    { apply not_true_iff_false. by rewrite includes_true. }
    rewrite Eo.
    destruct (decide (b = x)) as [->|Hbx].
    + rewrite Hx in Hba. simpl in Hba.
      assert (Ei : includes x (incoming n) = false).
      { apply not_true_iff_false. by rewrite includes_true. }
      simpl. rewrite Ei. simpl. rewrite !without_app_new by done.
      by destruct n.
    + simpl. rewrite without_app_new by done. by destruct n.
  - destruct (decide (b = x)) as [->|Hbx]; [|done].
    rewrite Hx in Hba. simpl in Hba.
    assert (Ei : includes a (incoming n) = false).
    { apply not_true_iff_false. by rewrite includes_true. }
    rewrite Ei. simpl. rewrite without_app_new by done. by destruct n.
Qed.

Lemma addLink_idempotent_witness :
  ∃ g', addLink "A" "B" three_nodes = inr g' ∧
        addLink "A" "B" g' = inr g' ∧
        is_Some (addLink_error "A" "Z" three_nodes).
Proof.
  destruct (addLink_idempotent three_nodes "A" "B") as [_ H].
  destruct (addLink_idempotent three_nodes "A" "Z") as [[_ Hz] _].
  eexists. split; [vm_compute; reflexivity|]. split.
  - apply H. vm_compute; reflexivity.
  - apply Hz. right. vm_compute; reflexivity.
Defined.

(** *** Consistency of the links *)

Lemma elem_of_from_option_fmap {A} (f : HypergraphNode → list A)
    (h : HypergraphNode → HypergraphNode) (o : option HypergraphNode) x :
  x ∈ from_option f [] (h <$> o) ↔ ∃ n, o = Some n ∧ x ∈ f (h n).
Proof.
  destruct o as [n|]; simpl.
  - split; [eauto|]. by intros (? & [= <-] & ?).
  - split; [by intros ?%elem_of_nil|]. by intros (? & [=] & _).
Qed.

Lemma elem_of_from_option {A} (f : HypergraphNode → list A)
    (o : option HypergraphNode) x :
  x ∈ from_option f [] o ↔ ∃ n, o = Some n ∧ x ∈ f n.
Proof.
  destruct o as [n|]; simpl.
  - split; [eauto|]. by intros (? & [= <-] & ?).
  - split; [by intros ?%elem_of_nil|]. by intros (? & [=] & _).
Qed.

Lemma consistent_spelled g :
  consistent g ↔
  ∀ x nx, g !! x = Some nx →
    (∀ y, y ∈ outgoing nx → ∃ ny, g !! y = Some ny ∧ x ∈ incoming ny) ∧
    (∀ y, y ∈ incoming nx → ∃ ny, g !! y = Some ny ∧ x ∈ outgoing ny).
Proof.
  unfold consistent, map_Forall. split; intros H x nx Hx.
  - destruct (H x nx Hx) as [H1 H2]. rewrite Forall_forall in H1, H2.
    split; intros y Hy; [apply H1 in Hy|apply H2 in Hy];
      by apply elem_of_from_option in Hy.
  - destruct (H x nx Hx) as [H1 H2]. rewrite !Forall_forall.
    split; intros y Hy; apply elem_of_from_option; auto.
Qed.

(** Where every node owns its lists, [addLink] and [removeLink] keep
    the adjacency lists bidirectionally consistent. *)
Lemma own_links_keep_consistency g a b :
  consistent g →
  (∀ g', addLink a b g = inr g' → consistent g') ∧
  consistent (removeLink a b g).
Proof.
  rewrite !consistent_spelled. intros Hc. split.
  - intros g' Hadd. apply consistent_spelled.
    assert (Ha : is_Some (g !! a) ∧ is_Some (g !! b)).
    { unfold addLink in Hadd. destruct (g !! a), (g !! b); by eauto. }
    destruct Ha as [[na Ha] [nb Hb]].
    destruct (addLink_lookup a b g) as (g1 & Hadd1 & Hg1); [by eauto..|].
    rewrite Hadd in Hadd1. injection Hadd1 as <-.
    intros x nx'. rewrite Hg1.
    destruct (g !! x) as [nx|] eqn:Hx; [|done]. intros [= <-].
    destruct (Hc x nx Hx) as [H1 H2]. split; intros y.
    + rewrite linked_outgoing_iff. intros [Hy|[-> ->]].
      * destruct (H1 y Hy) as (ny & Hny & Hin). exists (linked a b y ny).
        rewrite Hg1, Hny. split; [done|]. apply linked_incoming_iff. by left.
      * exists (linked x b b nb). rewrite Hg1, Hb. split; [done|].
        apply linked_incoming.
    + rewrite linked_incoming_iff. intros [Hy|[-> ->]].
      * destruct (H2 y Hy) as (ny & Hny & Hin). exists (linked a b y ny).
        rewrite Hg1, Hny. split; [done|]. apply linked_outgoing_iff. by left.
      * exists (linked a x a na). rewrite Hg1, Ha. split; [done|].
        apply linked_outgoing.
  - intros x nx'. rewrite removeLink_lookup.
    destruct (g !! x) as [nx|] eqn:Hx; [|done]. intros [= <-].
    destruct (Hc x nx Hx) as [H1 H2]. split; intros y.
    + rewrite unlinked_outgoing. intros [Hy Hn].
      destruct (H1 y Hy) as (ny & Hny & Hin). exists (unlinked a b y ny).
      rewrite removeLink_lookup, Hny. split; [done|].
      apply unlinked_incoming. split; [done|]. intros [-> ->]. by apply Hn.
    + rewrite unlinked_incoming. intros [Hy Hn].
      destruct (H2 y Hy) as (ny & Hny & Hin). exists (unlinked a b y ny).
      rewrite removeLink_lookup, Hny. split; [done|].
      apply unlinked_outgoing. split; [done|]. intros [-> ->]. by apply Hn.
Qed.

Lemma chain_consistent : consistent chain_graph.
Proof. refine (bool_decide_unpack _ _). vm_compute. exact I. Qed.

Lemma consistent_mirrored k g : consistent g → mirrored_at k g.
Proof.
  intros Hc x nx Hx. destruct (Hc x nx Hx) as [H1 H2].
  rewrite Forall_forall in H1, H2. split; intros Hk; auto.
Qed.

Lemma kept_but_refl k g : kept_but k g g.
Proof. intros x _. destruct (g !! x); done. Qed.

Lemma kept_but_removeLink k g0 g from to :
  from = k ∨ to = k → kept_but k g0 g → kept_but k g0 (removeLink from to g).
Proof.
  intros Hk Hkept x Hx. specialize (Hkept x Hx).
  rewrite removeLink_lookup.
  destruct (g0 !! x) as [nx0|], (g !! x) as [nx|]; simpl; try done.
  intros y Hy. destruct (Hkept y Hy) as [Ho Hi].
  rewrite unlinked_outgoing, unlinked_incoming, Ho, Hi.
  split; split; try tauto; (intros H; split; [done|]; intros [-> ->]);
    destruct Hk; congruence.
Qed.

Lemma removeNode_kept_but k g : kept_but k g (removeNode k g).
Proof.
  unfold removeNode. destruct (g !! k) as [node|]; [|apply kept_but_refl].
  intros x Hx. rewrite lookup_delete_ne by done. revert x Hx.
  change (kept_but k g
            (fold_left (λ g0 outgoingId, removeLink k outgoingId g0)
               (from_option outgoing []
                  (fold_left (λ g0 incomingId, removeLink incomingId k g0)
                     (incoming node) g !! k))
               (fold_left (λ g0 incomingId, removeLink incomingId k g0)
                  (incoming node) g))).
  apply (fold_left_preserves _ (kept_but k g)).
  { intros. apply kept_but_removeLink; auto. }
  apply (fold_left_preserves _ (kept_but k g)).
  { intros. apply kept_but_removeLink; auto. }
  apply kept_but_refl.
Qed.

Lemma removeNode_gone k g : removeNode k g !! k = None.
Proof.
  unfold removeNode. destruct (g !! k) eqn:E; [|done]. apply lookup_delete_eq.
Qed.

(** X10. [removeNode(k)] keeps the adjacency lists bidirectionally consistent:
    the node is gone, no node lists it, and every other node lists what
    it listed before, but for [k]. *)
Theorem removeNode_keeps_consistency k g :
  consistent g →
  consistent (removeNode k g) ∧
  removeNode k g !! k = None ∧
  unreferenced k (removeNode k g) ∧
  kept_but k g (removeNode k g).
Proof.
  intros Hc.
  pose proof (removeNode_unreferenced k g (consistent_mirrored k g Hc)) as Hun.
  pose proof (removeNode_kept_but k g) as Hkept.
  pose proof (removeNode_gone k g) as Hgone.
  split; [|done]. apply consistent_spelled.
  pose proof (proj1 (consistent_spelled g) Hc) as Hc'. clear Hc. rename Hc' into Hc.
  intros x nx Hx.
  assert (Hxk : x ≠ k) by (intros ->; by rewrite Hgone in Hx).
  destruct (Hun x nx Hx) as [Hko Hki].
  pose proof (Hkept x Hxk) as Hkx. rewrite Hx in Hkx.
  destruct (g !! x) as [nx0|] eqn:Hx0; [|done].
  destruct (Hc x nx0 Hx0) as [H1 H2].
  split; intros y Hy.
  - assert (Hyk : y ≠ k) by (by intros ->).
    destruct (Hkx y Hyk) as [Ho _]. apply Ho in Hy.
    destruct (H1 y Hy) as (ny0 & Hny0 & Hin).
    pose proof (Hkept y Hyk) as Hky. rewrite Hny0 in Hky.
    destruct (removeNode k g !! y) as [ny|]; [|done].
    exists ny. split; [done|]. by apply (Hky x Hxk).
  - assert (Hyk : y ≠ k) by (by intros ->).
    destruct (Hkx y Hyk) as [_ Hi]. apply Hi in Hy.
    destruct (H2 y Hy) as (ny0 & Hny0 & Hin).
    pose proof (Hkept y Hyk) as Hky. rewrite Hny0 in Hky.
    destruct (removeNode k g !! y) as [ny|]; [|done].
    exists ny. split; [done|]. by apply (Hky x Hxk).
Qed.

Lemma removeNode_keeps_consistency_witness :
  consistent (removeNode "B" chain_graph) ∧
  removeNode "B" chain_graph !! "B" = None ∧
  unreferenced "B" (removeNode "B" chain_graph).
Proof.
  destruct (removeNode_keeps_consistency "B" chain_graph chain_consistent)
    as (H1 & H2 & H3 & _).
  done.
Defined.
End HypergraphOpsFacts.

(** ** Hypergraph store: the walks *)

Module HypergraphWalkFacts.
Import Floats JsDouble.
Import JsNum JsNumFacts JsMap JsMapFacts Hypergraph HypergraphFacts.
Import HypergraphWalk.

(** *** The depth-first walk *)

Lemma dfs_ext_trans st1 st2 st3 :
  dfs_ext st1 st2 → dfs_ext st2 st3 → dfs_ext st1 st3.
Proof.
  intros [l1 H1] [l2 H2]. exists (l1 ++ l2)%list.
  by rewrite H2, H1, app_assoc.
Qed.

Lemma dfs_spec g maxDepth fuel nodeId depth st :
  keyed g → dfs_inv g st →
  dfs_inv g (dfs g maxDepth fuel nodeId depth st) ∧
  dfs_ext st (dfs g maxDepth fuel nodeId depth st).
Proof.
  intros Hkey. revert nodeId depth st.
  induction fuel as [|fuel IH]; intros nodeId depth st Hinv; simpl.
  { split; [done|]. exists []. by rewrite app_nil_r. }
  destruct (exceeds depth maxDepth); simpl.
  { split; [done|]. exists []. by rewrite app_nil_r. }
  case_bool_decide as Hv.
  { split; [done|]. exists []. by rewrite app_nil_r. }
  destruct (g !! nodeId) as [node|] eqn:Hn.
  2: { split; [done|]. exists []. by rewrite app_nil_r. }
  pose proof (Hkey nodeId node Hn) as Hid. simpl in Hid.
  destruct Hinv as (Hvis & Hnd & Hst).
  set (st1 := ({[nodeId]} ∪ st.1, (st.2 ++ [node])%list)).
  assert (Hinv1 : dfs_inv g st1).
  { split; [|split]; simpl.
    - intros k. rewrite map_app, elem_of_app, elem_of_union, Hvis. simpl.
      rewrite elem_of_singleton, list_elem_of_singleton, Hid. tauto.
    - rewrite map_app. simpl. apply NoDup_app. split; [done|]. split.
      + intros k Hk ->%list_elem_of_singleton. apply Hv. rewrite Hvis.
        by rewrite <- Hid.
      + apply NoDup_singleton.
    - apply Forall_app. split; [done|]. constructor; [|done]. by rewrite Hid. }
  assert (Hext1 : dfs_ext st st1) by (by exists [node]).
  apply (fold_left_preserves _ (λ st', dfs_inv g st' ∧ dfs_ext st st')).
  - intros st' o [Hi He]. destruct (IH o (S depth) st' Hi) as [Hi' He'].
    split; [done|]. by eapply dfs_ext_trans.
  - done.
Qed.

(** A call of [dfs] forgets no visit. *)
Lemma dfs_visited g maxDepth fuel nodeId depth st :
  st.1 ⊆ (dfs g maxDepth fuel nodeId depth st).1.
Proof.
  revert nodeId depth st.
  induction fuel as [|fuel IH]; intros nodeId depth st; simpl; [done|].
  destruct (exceeds depth maxDepth); simpl; [done|].
  case_bool_decide as Hv; [done|].
  destruct (g !! nodeId) as [node|]; [|done].
  apply (fold_left_preserves _ (λ st', st.1 ⊆ st'.1)).
  - intros st' o Hsub. etrans; [exact Hsub|apply IH].
  - simpl. apply union_subseteq_r.
Qed.

Lemma unvisited_mono g (v v' : gset string) :
  v ⊆ v' → (unvisited g v' ≤ unvisited g v)%nat.
Proof.
  intros Hsub. unfold unvisited. apply subseteq_size.
  by apply difference_mono_l.
Qed.

Lemma unvisited_visit g (v : gset string) k :
  is_Some (g !! k) → k ∉ v →
  (unvisited g ({[k]} ∪ v) < unvisited g v)%nat.
Proof.
  intros Hk Hv. unfold unvisited. apply subset_size.
  apply elem_of_dom in Hk. split.
  - apply difference_mono_l, union_subseteq_r.
  - intros Hsub. specialize (Hsub k).
    rewrite !elem_of_difference, elem_of_union, elem_of_singleton in Hsub.
    destruct Hsub as [_ Hno]; [done|]. apply Hno. by left.
Qed.

(** The nesting of the calls is bounded by the stored nodes that are
    not visited: more fuel than that changes nothing. *)
Lemma dfs_fuel g maxDepth fuel : ∀ fuel' nodeId depth st,
  (unvisited g st.1 < fuel)%nat → (unvisited g st.1 < fuel')%nat →
  dfs g maxDepth fuel nodeId depth st
  = dfs g maxDepth fuel' nodeId depth st.
Proof.
  induction fuel as [|fuel IH]; intros fuel' nodeId depth st Hf Hf';
    [lia|].
  destruct fuel' as [|fuel']; [lia|]. simpl.
  destruct (exceeds depth maxDepth); simpl; [done|].
  case_bool_decide as Hv; [done|].
  destruct (g !! nodeId) as [node|] eqn:Hn; [|done].
  pose proof (unvisited_visit g st.1 nodeId (mk_is_Some _ _ Hn) Hv) as Hlt.
  set (st1 := ({[nodeId]} ∪ st.1, (st.2 ++ [node])%list)).
  assert (Hst1 : (unvisited g st1.1 < fuel)%nat ∧
                 (unvisited g st1.1 < fuel')%nat) by (simpl; lia).
  clearbody st1. clear Hlt Hn Hv Hf Hf'.
  revert st1 Hst1.
  induction (outgoing node) as [|o l IHl]; intros st1 [H1 H2]; simpl;
    [done|].
  rewrite (IH fuel' o (S depth) st1 H1 H2). apply IHl.
  pose proof (unvisited_mono g _ _
                (dfs_visited g maxDepth fuel' o (S depth) st1)).
  lia.
Qed.

(** X11. In a store that files its nodes under their ids, [traverse] returns
    stored nodes, none of them twice.  The walk is empty when the start
    node is not stored or [maxDepth] is below 0, and starts with the
    start node otherwise, also when [maxDepth] is [NaN] or an infinity.
    The recursion ends: its result does not depend on the bound on the
    nesting once that exceeds the number of stored nodes. *)
Theorem traverse_visits_once g startId maxDepth :
  keyed g →
  NoDup (map id (traverse startId maxDepth g)) ∧
  Forall (λ n, g !! id n = Some n) (traverse startId maxDepth g) ∧
  (exceeds 0 maxDepth = true ∨ g !! startId = None →
   traverse startId maxDepth g = []) ∧
  (∀ node, exceeds 0 maxDepth = false → g !! startId = Some node →
           ∃ rest, traverse startId maxDepth g = node :: rest) ∧
  (∀ fuel, (size g < fuel)%nat →
           (dfs g maxDepth fuel startId 0 (∅, [])).2
           = traverse startId maxDepth g).
Proof.
  intros Hkey. unfold traverse.
  assert (Hinv0 : dfs_inv g (∅, [])).
  { split; [|split]; simpl; [|constructor|constructor].
    intros k. split; [by intros ?%elem_of_empty|by intros ?%elem_of_nil]. }
  destruct (dfs_spec g maxDepth (S (size g)) startId 0 (∅, []) Hkey Hinv0)
    as [(_ & Hnd & Hst) _].
  split; [done|]. split; [done|].
  assert (Hall : unvisited g (∅ : gset string) = size g).
  { unfold unvisited. rewrite difference_empty_L. apply size_dom. }
  split; [|split].
  - simpl. intros [->| ->]; [done|].
    destruct (exceeds 0 maxDepth); simpl; [done|].
    by rewrite bool_decide_eq_false_2 by apply not_elem_of_empty.
  - intros node Hd Hn. simpl. rewrite Hd. simpl.
    rewrite bool_decide_eq_false_2 by apply not_elem_of_empty.
    rewrite Hn.
    set (st1 := (({[startId]} ∪ ∅ : gset string), ([] ++ [node])%list)).
    assert (He : dfs_ext st1
                   (fold_left
                      (λ st o, dfs g maxDepth (size g) o 1 st)
                      (outgoing node) st1)).
    { apply (fold_left_preserves _ (λ st', dfs_inv g st' ∧ dfs_ext st1 st')).
      - intros st' o [Hi He].
        destruct (dfs_spec g maxDepth (size g) o 1 st' Hkey Hi).
        split; [done|]. by eapply dfs_ext_trans.
      - split; [|exists []; by rewrite app_nil_r].
        pose proof (Hkey startId node Hn) as Hid. simpl in Hid.
        split; [|split]; simpl.
        + intros k. rewrite elem_of_union, elem_of_singleton,
            list_elem_of_singleton, Hid.
          split; [intros [?|?%elem_of_empty]; done|by left].
        + apply NoDup_singleton.
        + repeat constructor. by rewrite Hid. }
    destruct He as [l Hl]. exists l. exact Hl.
  - intros fuel Hfuel. f_equal. apply dfs_fuel; simpl; rewrite Hall; lia.
Qed.

Lemma chain_keyed : keyed chain_graph.
Proof. refine (bool_decide_unpack _ _). vm_compute. exact I. Qed.

Lemma traverse_visits_once_witness :
  NoDup (map id (traverse "A" (Finite 2) chain_graph)) ∧
  (∃ rest, traverse "A" (Finite 2) chain_graph
           = plain_node_out "A" "B" :: rest) ∧
  traverse "A" (Infinity true) chain_graph = [].
Proof.
  destruct (traverse_visits_once chain_graph "A" (Finite 2) chain_keyed)
    as (H1 & _ & _ & H3 & _).
  destruct (traverse_visits_once chain_graph "A" (Infinity true) chain_keyed)
    as (_ & _ & H2 & _).
  split; [exact H1|]. split.
  - apply H3; vm_compute; reflexivity.
  - apply H2. by left.
Defined.

(** *** Spreading activation *)

Lemma spread_ext_refl st : spread_ext st st.
Proof. split; done. Qed.

Lemma spread_ext_trans st1 st2 st3 :
  spread_ext st1 st2 → spread_ext st2 st3 → spread_ext st1 st3.
Proof.
  intros [H1 H1'] [H2 H2']. split; [by etrans|].
  intros k Hk. rewrite H2' by (by apply H1). by apply H1'.
Qed.

Lemma spread_spec g activation maxDepth fuel :
  ∀ nodeId depth st,
    spread_inv g activation maxDepth st →
    spread_inv g activation maxDepth
      (spread g maxDepth fuel nodeId (decayed activation depth) depth st) ∧
    spread_ext st
      (spread g maxDepth fuel nodeId (decayed activation depth) depth st).
Proof.
  induction fuel as [|fuel IH]; intros nodeId depth st Hinv; simpl;
    [split; [done|apply spread_ext_refl]|].
  destruct (exceeds depth maxDepth) eqn:Hdepth; simpl;
    [split; [done|apply spread_ext_refl]|].
  case_bool_decide as Hv; simpl; [split; [done|apply spread_ext_refl]|].
  destruct (decayed activation depth <? 0.01)%float eqn:Hlow;
    [split; [done|apply spread_ext_refl]|].
  destruct (g !! nodeId) as [node|] eqn:Hn;
    [|split; [done|apply spread_ext_refl]].
  destruct Hinv as (Hvis & Hnd & Hst).
  assert (Hnk : ¬ In nodeId (jm_keys st.2)) by (by rewrite <- Hvis).
  rewrite (jm_get_not_in st.2 nodeId Hnk). simpl.
  set (v := (0 + decayed activation depth)%float).
  set (st1 := ({[nodeId]} ∪ st.1, jm_set nodeId v st.2)).
  assert (Hinv1 : spread_inv g activation maxDepth st1).
  { unfold st1. split; [|split]; simpl.
    - intros k. rewrite jm_keys_set_new by done.
      rewrite elem_of_union, elem_of_singleton, Hvis, in_app_iff. simpl.
      intuition congruence.
    - rewrite jm_keys_set_new by done. apply NoDup_app. split; [done|].
      split; [|apply NoDup_singleton].
      intros k Hk ->%list_elem_of_singleton. apply Hnk.
      by apply list_elem_of_In.
    - rewrite AttentionFacts.jm_set_new by done. apply Forall_app.
      split; [done|]. constructor; [|done]. split; simpl.
      + by rewrite Hn.
      + by exists depth. }
  assert (Hext1 : spread_ext st st1).
  { unfold st1. split; simpl; [apply union_subseteq_r|].
    intros k Hk. apply jm_get_set_ne. by intros ->. }
  assert (Hstep : ∀ st' o,
            spread_inv g activation maxDepth st' ∧ spread_ext st st' →
            spread_inv g activation maxDepth
              (spread g maxDepth fuel o
                 (decayed activation depth * 0.7)%float (S depth) st') ∧
            spread_ext st
              (spread g maxDepth fuel o
                 (decayed activation depth * 0.7)%float (S depth) st')).
  { intros st' o [Hi He].
    destruct (IH o (S depth) st' Hi) as [Hi' He'].
    split; [done|]. by eapply spread_ext_trans. }
  apply (fold_left_preserves _
           (λ st', spread_inv g activation maxDepth st' ∧ spread_ext st st'));
    [exact Hstep|].
  apply (fold_left_preserves _
           (λ st', spread_inv g activation maxDepth st' ∧ spread_ext st st'));
    [exact Hstep|].
  done.
Qed.

(** The nesting of the calls of [spread] is bounded as that of [dfs]. *)
Lemma spread_fuel g maxDepth fuel : ∀ fuel' nodeId current depth st,
  (unvisited g st.1 < fuel)%nat → (unvisited g st.1 < fuel')%nat →
  spread g maxDepth fuel nodeId current depth st
  = spread g maxDepth fuel' nodeId current depth st ∧
  st.1 ⊆ (spread g maxDepth fuel nodeId current depth st).1.
Proof.
  induction fuel as [|fuel IH];
    intros fuel' nodeId current depth st Hf Hf'; [lia|].
  destruct fuel' as [|fuel']; [lia|]. simpl.
  destruct (exceeds depth maxDepth); simpl; [done|].
  case_bool_decide as Hv; simpl; [done|].
  destruct (current <? 0.01)%float; [done|].
  destruct (g !! nodeId) as [node|] eqn:Hn; [|done].
  pose proof (unvisited_visit g st.1 nodeId (mk_is_Some _ _ Hn) Hv) as Hlt.
  set (st1 := ({[nodeId]} ∪ st.1, jm_set nodeId _ st.2)).
  assert (Hst1 : (unvisited g st1.1 < fuel)%nat ∧
                 (unvisited g st1.1 < fuel')%nat ∧ st.1 ⊆ st1.1).
  { simpl. split; [lia|]. split; [lia|]. apply union_subseteq_r. }
  clearbody st1. clear Hlt Hn Hv Hf Hf'.
  assert (Hfold : ∀ l st1,
    (unvisited g st1.1 < fuel)%nat ∧ (unvisited g st1.1 < fuel')%nat ∧
    st.1 ⊆ st1.1 →
    fold_left (λ st o, spread g maxDepth fuel o (current * 0.7)%float
                         (S depth) st) l st1
    = fold_left (λ st o, spread g maxDepth fuel' o (current * 0.7)%float
                           (S depth) st) l st1 ∧
    (unvisited g
       (fold_left (λ st o, spread g maxDepth fuel o (current * 0.7)%float
                             (S depth) st) l st1).1 < fuel)%nat ∧
    (unvisited g
       (fold_left (λ st o, spread g maxDepth fuel o (current * 0.7)%float
                             (S depth) st) l st1).1 < fuel')%nat ∧
    st.1 ⊆ (fold_left (λ st o, spread g maxDepth fuel o
                                 (current * 0.7)%float (S depth) st)
              l st1).1).
  { induction l as [|o l IHl]; intros st' (H1 & H2 & H3); simpl; [done|].
    destruct (IH fuel' o (current * 0.7)%float (S depth) st' H1 H2)
      as [Heq Hsub].
    pose proof (unvisited_mono g _ _ Hsub) as Hle.
    destruct (IHl (spread g maxDepth fuel o (current * 0.7)%float
                     (S depth) st')) as (E & ?); [|].
    { split; [lia|]. split; [lia|]. by etrans. }
    split; [|done]. by rewrite E, Heq. }
  destruct (Hfold (outgoing node) st1 Hst1) as (E1 & H1 & H2 & H3).
  destruct (Hfold (incoming node) _ (conj H1 (conj H2 H3)))
    as (E2 & _ & _ & H4).
  split; [|done]. by rewrite E2, E1.
Qed.

Lemma spread_inv_start g activation maxDepth :
  spread_inv g activation maxDepth (∅, []).
Proof.
  split; [|split]; simpl; [|constructor|constructor].
  intros k. split; [by intros ?%elem_of_empty|done].
Qed.

(** X12. [spreadActivation] records each node once; every node recorded is
    stored and was reached at a depth within [maxDepth], 3 if left out,
    with an activation that is not below 0.01, and its value is that
    activation added to 0: the start activation times 0.7 per hop, as
    the platform rounds it.  A start node that is not stored, a
    [maxDepth] below 0 or a start activation below 0.01 give the empty
    map; otherwise the start node is recorded with the start activation
    added to 0.  The recursion ends: its result does not depend on the
    bound on the nesting once that exceeds the number of stored
    nodes. *)
Theorem spreadActivation_values g startId activation maxDepth :
  NoDup (jm_keys (spreadActivation startId activation maxDepth g)) ∧
  Forall (recorded g activation (default (Finite 3) maxDepth))
    (spreadActivation startId activation maxDepth g) ∧
  (g !! startId = None ∨ exceeds 0 (default (Finite 3) maxDepth) = true ∨
   (activation <? 0.01)%float = true →
   spreadActivation startId activation maxDepth g = []) ∧
  (is_Some (g !! startId) →
   exceeds 0 (default (Finite 3) maxDepth) = false →
   (activation <? 0.01)%float = false →
   jm_get startId (spreadActivation startId activation maxDepth g)
   = Some (0 + activation)%float) ∧
  (∀ fuel, (size g < fuel)%nat →
           (spread g (default (Finite 3) maxDepth) fuel startId activation 0
              (∅, [])).2
           = spreadActivation startId activation maxDepth g).
Proof.
  unfold spreadActivation.
  set (limit := default (Finite 3) maxDepth).
  destruct (spread_spec g activation limit (S (size g)) startId 0 (∅, []))
    as [(_ & Hnd & Hst) _]; [apply spread_inv_start|]. simpl in Hnd, Hst.
  split; [done|]. split; [done|].
  assert (Hall : unvisited g (∅ : gset string) = size g).
  { unfold unvisited. rewrite difference_empty_L. apply size_dom. }
  split; [|split].
  - simpl. intros [Hn|[Hd|Hlow]].
    + destruct (exceeds 0 limit); simpl; [done|].
      rewrite bool_decide_eq_false_2 by apply not_elem_of_empty. simpl.
      destruct (activation <? 0.01)%float; [done|]. by rewrite Hn.
    + by rewrite Hd.
    + destruct (exceeds 0 limit); simpl; [done|].
      rewrite bool_decide_eq_false_2 by apply not_elem_of_empty. simpl.
      by rewrite Hlow.
  - intros [node Hn] Hd Hlow. simpl. rewrite Hd. simpl.
    rewrite bool_decide_eq_false_2 by apply not_elem_of_empty. simpl.
    rewrite Hlow, Hn.
    set (st1 := (({[startId]} ∪ ∅ : gset string),
                 [(startId, (0 + activation)%float)])).
    assert (Hinv1 : spread_inv g activation limit st1).
    { unfold st1. split; [|split]; simpl.
      - intros k. rewrite elem_of_union, elem_of_singleton.
        split; [intros [->|?%elem_of_empty]; [by left|done]
               |intros [->|[]]; by left].
      - apply NoDup_singleton.
      - repeat constructor; simpl; [by rewrite Hn|].
        by exists 0%nat. }
    assert (Hstep : ∀ st' o,
              spread_inv g activation limit st' ∧ spread_ext st1 st' →
              spread_inv g activation limit
                (spread g limit (size g) o (activation * 0.7)%float 1 st') ∧
              spread_ext st1
                (spread g limit (size g) o (activation * 0.7)%float 1 st')).
    { intros st' o [Hi He].
      destruct (spread_spec g activation limit (size g) o 1 st' Hi)
        as [Hi' He'].
      split; [done|]. by eapply spread_ext_trans. }
    assert (He : spread_inv g activation limit
              (fold_left
                 (λ st i, spread g limit (size g) i
                            (activation * 0.7)%float 1 st)
                 (incoming node)
                 (fold_left
                    (λ st o, spread g limit (size g) o
                               (activation * 0.7)%float 1 st)
                    (outgoing node) st1)) ∧
            spread_ext st1
              (fold_left
                 (λ st i, spread g limit (size g) i
                            (activation * 0.7)%float 1 st)
                 (incoming node)
                 (fold_left
                    (λ st o, spread g limit (size g) o
                               (activation * 0.7)%float 1 st)
                    (outgoing node) st1))).
    { apply (fold_left_preserves _
               (λ st', spread_inv g activation limit st' ∧
                       spread_ext st1 st')); [exact Hstep|].
      apply (fold_left_preserves _
               (λ st', spread_inv g activation limit st' ∧
                       spread_ext st1 st')); [exact Hstep|].
      split; [done|apply spread_ext_refl]. }
    destruct He as [_ [_ He]].
    transitivity (jm_get startId st1.2).
    + apply (He startId). unfold st1. simpl.
      apply elem_of_union_l. by apply elem_of_singleton.
    + unfold st1. simpl. by rewrite String.eqb_refl.
  - intros fuel Hfuel. f_equal.
    apply spread_fuel; simpl; rewrite Hall; lia.
Qed.

(** On the chain [A -> B -> C] the activation 1 reaches [C] as
    0.48999999999999994; a [maxDepth] of -1 gives the empty map. *)
Example spreadActivation_chain :
  spreadActivation "A" 1 None chain_graph
  = [("A", 1); ("B", 0.7); ("C", 0.48999999999999994)]%float ∧
  spreadActivation "A" 1 (Some (Finite (-1))) chain_graph = [] ∧
  spreadActivation "C" 1 (Some NaN) chain_graph
  = [("C", 1); ("B", 0.7); ("A", 0.48999999999999994)]%float.
Proof. repeat split; vm_compute; reflexivity. Qed.
End HypergraphWalkFacts.

(** ** Hypergraph store: the arrays of the nodes, by address *)

Module HypergraphSharedFacts.
Import Hypergraph HypergraphFacts HypergraphOps HypergraphOpsFacts.
Import HypergraphShared.

Lemma view_lookup s x : view s !! x = node_of s <$> nodes s !! x.
Proof. unfold view. by rewrite lookup_fmap. Qed.

Lemma read_push_eq ref x s :
  read (push ref x s) ref = (read s ref ++ [x])%list.
Proof. unfold read, push. simpl. by rewrite lookup_insert_eq. Qed.

Lemma read_push_ne ref ref' x s :
  ref ≠ ref' → read (push ref x s) ref' = read s ref'.
Proof. intros H. unfold read, push. simpl. by rewrite lookup_insert_ne. Qed.

(** *** [addLink] on nodes that own their arrays *)

Lemma addLink_view a b s s' :
  unshared s → addLink a b s = inr s' →
  nodes s' = nodes s ∧ next_array s' = next_array s ∧
  Hypergraph.addLink a b (view s) = inr (view s').
Proof.
  intros Hun. unfold addLink.
  destruct (nodes s !! a) as [oa|] eqn:Ha; [|done].
  destruct (nodes s !! b) as [ob|] eqn:Hb; [|done].
  intros [= <-].
  set (t1 := includes b (read s (o_outgoing oa))).
  set (s1 := if t1 then s else push (o_outgoing oa) b s).
  set (t2 := includes a (read s1 (o_incoming ob))).
  set (s2 := if t2 then s1 else push (o_incoming ob) a s1).
  assert (Hn1 : nodes s1 = nodes s ∧ next_array s1 = next_array s).
  { unfold s1. by destruct t1. }
  assert (Hn2 : nodes s2 = nodes s ∧ next_array s2 = next_array s).
  { unfold s2. by destruct t2. }
  split; [apply Hn2|]. split; [apply Hn2|].
  destruct (addLink_lookup a b (view s)) as (g' & Hadd & Hg');
    [rewrite view_lookup, Ha; by eexists
    |rewrite view_lookup, Hb; by eexists|].
  rewrite Hadd. f_equal. apply map_eq. intros x.
  rewrite Hg', !view_lookup. destruct Hn2 as [-> _].
  destruct (nodes s !! x) as [o|] eqn:Hx; simpl; [|done]. f_equal.
  destruct (Hun a oa b ob Ha Hb) as [Hab _].
  assert (Hin1 : read s1 (o_incoming ob) = read s (o_incoming ob)).
  { unfold s1. destruct t1; [done|]. by apply read_push_ne. }
  assert (Hout : read s2 (o_outgoing o)
                 = if decide (a = x)
                   then (if includes b (read s (o_outgoing o))
                         then read s (o_outgoing o)
                         else (read s (o_outgoing o) ++ [b])%list)
                   else read s (o_outgoing o)).
  { assert (H21 : read s2 (o_outgoing o) = read s1 (o_outgoing o)).
    { unfold s2. destruct t2; [done|]. apply read_push_ne.
      destruct (Hun x o b ob Hx Hb) as [H _]. congruence. }
    rewrite H21. unfold s1, t1. destruct (decide (a = x)) as [Hax|Hax].
    - subst x. rewrite Ha in Hx. injection Hx as ->.
      destruct (includes b (read s (o_outgoing o))); [done|].
      apply read_push_eq.
    - destruct (includes b (read s (o_outgoing oa))); [done|].
      apply read_push_ne.
      destruct (Hun a oa x o Ha Hx) as [_ H]. by apply H. }
  assert (Hinc : read s2 (o_incoming o)
                 = if decide (b = x)
                   then (if includes a (read s (o_incoming o))
                         then read s (o_incoming o)
                         else (read s (o_incoming o) ++ [a])%list)
                   else read s (o_incoming o)).
  { destruct (decide (b = x)) as [Hbx|Hbx].
    - subst x. rewrite Hb in Hx. injection Hx as ->.
      unfold s2, t2. rewrite Hin1.
      destruct (includes a (read s (o_incoming o))); [done|].
      by rewrite read_push_eq, Hin1.
    - assert (H21 : read s2 (o_incoming o) = read s1 (o_incoming o)).
      { unfold s2. destruct t2; [done|]. apply read_push_ne.
        destruct (Hun b ob x o Hb Hx) as [_ H]. by apply H. }
      rewrite H21. unfold s1. destruct t1; [done|].
      apply read_push_ne. destruct (Hun a oa x o Ha Hx) as [H _]. done. }
  unfold node_of, linked. rewrite Hout, Hinc. simpl.
  clear. unfold with_outgoing, with_incoming.
  repeat case_decide; simpl;
    destruct (includes b (read s (o_outgoing o))) eqn:E1; simpl;
    destruct (includes a (read s (o_incoming o))) eqn:E2; simpl;
    rewrite ?E1, ?E2; reflexivity.
Qed.

Lemma addLink_owned a b s s' :
  owned s → addLink a b s = inr s' → owned s'.
Proof.
  intros [Hal Hun] Hadd.
  destruct (addLink_view a b s s' Hun Hadd) as (Hn & Hnext & _).
  split.
  - intros k o. rewrite Hn, Hnext. apply Hal.
  - intros k1 o1 k2 o2. rewrite Hn. apply Hun.
Qed.

(** *** [removeLink] *)

Lemma assign_outgoing_lookup k l s x :
  allocated s →
  view (assign_outgoing k l s) !! x
  = (λ n, if decide (k = x) then with_outgoing n l else n) <$> view s !! x.
Proof.
  intros Hal. rewrite !view_lookup. unfold assign_outgoing. simpl.
  rewrite lookup_alter.
  destruct (decide (k = x)) as [->|Hk];
    (destruct (nodes s !! x) as [o|] eqn:Hx; simpl; [|done]); f_equal;
    destruct (Hal x o Hx) as [Ho Hi];
    unfold node_of, with_outgoing, read; simpl.
  - rewrite lookup_insert_eq, lookup_insert_ne by lia. done.
  - rewrite !lookup_insert_ne by lia. done.
Qed.

Lemma assign_incoming_lookup k l s x :
  allocated s →
  view (assign_incoming k l s) !! x
  = (λ n, if decide (k = x) then with_incoming n l else n) <$> view s !! x.
Proof.
  intros Hal. rewrite !view_lookup. unfold assign_incoming. simpl.
  rewrite lookup_alter.
  destruct (decide (k = x)) as [->|Hk];
    (destruct (nodes s !! x) as [o|] eqn:Hx; simpl; [|done]); f_equal;
    destruct (Hal x o Hx) as [Ho Hi];
    unfold node_of, with_incoming, read; simpl.
  - rewrite lookup_insert_eq, lookup_insert_ne by lia. done.
  - rewrite !lookup_insert_ne by lia. done.
Qed.

(** An assignment of a new array keeps the arrays owned. *)
Lemma assign_outgoing_owned k l s : owned s → owned (assign_outgoing k l s).
Proof.
  intros [Hal Hun]. unfold assign_outgoing. simpl. split.
  - intros x o. simpl. rewrite lookup_alter.
    destruct (decide (k = x)) as [->|Hk].
    + destruct (nodes s !! x) as [o0|] eqn:Hx; simpl; [|done].
      intros [= <-]. simpl. destruct (Hal x o0 Hx). lia.
    + intros Hx. destruct (Hal x o Hx). lia.
  - intros k1 o1 k2 o2. simpl. rewrite !lookup_alter.
    destruct (decide (k = k1)) as [E1|E1], (decide (k = k2)) as [E2|E2].
    + subst k1 k2. destruct (nodes s !! k) as [o|] eqn:Hx; simpl; [|done].
      intros [= <-] [= <-]. simpl. destruct (Hal k o Hx).
      split; [lia|done].
    + subst k1. destruct (nodes s !! k) as [o|] eqn:Hx; simpl; [|done].
      intros [= <-] Hx2. simpl.
      destruct (Hal k o Hx), (Hal k2 o2 Hx2).
      destruct (Hun k o k2 o2 Hx Hx2) as [_ Hne].
      split; [lia|]. intros Hk. split; [lia|by apply Hne].
    + subst k2. destruct (nodes s !! k) as [o|] eqn:Hx; simpl; [|done].
      intros Hx1 [= <-]. simpl.
      destruct (Hal k o Hx), (Hal k1 o1 Hx1).
      destruct (Hun k1 o1 k o Hx1 Hx) as [Hne1 Hne].
      split; [done|]. intros Hk. split; [lia|by apply Hne].
    + intros Hx1 Hx2. by apply Hun.
Qed.

Lemma assign_incoming_owned k l s : owned s → owned (assign_incoming k l s).
Proof.
  intros [Hal Hun]. unfold assign_incoming. simpl. split.
  - intros x o. simpl. rewrite lookup_alter.
    destruct (decide (k = x)) as [->|Hk].
    + destruct (nodes s !! x) as [o0|] eqn:Hx; simpl; [|done].
      intros [= <-]. simpl. destruct (Hal x o0 Hx). lia.
    + intros Hx. destruct (Hal x o Hx). lia.
  - intros k1 o1 k2 o2. simpl. rewrite !lookup_alter.
    destruct (decide (k = k1)) as [E1|E1], (decide (k = k2)) as [E2|E2].
    + subst k1 k2. destruct (nodes s !! k) as [o|] eqn:Hx; simpl; [|done].
      intros [= <-] [= <-]. simpl. destruct (Hal k o Hx).
      split; [lia|done].
    + subst k1. destruct (nodes s !! k) as [o|] eqn:Hx; simpl; [|done].
      intros [= <-] Hx2. simpl.
      destruct (Hal k o Hx), (Hal k2 o2 Hx2).
      destruct (Hun k o k2 o2 Hx Hx2) as [Hne1 Hne].
      split; [done|]. intros Hk. split; [by apply Hne|lia].
    + subst k2. destruct (nodes s !! k) as [o|] eqn:Hx; simpl; [|done].
      intros Hx1 [= <-]. simpl.
      destruct (Hal k o Hx), (Hal k1 o1 Hx1).
      destruct (Hun k1 o1 k o Hx1 Hx) as [_ Hne].
      split; [lia|]. intros Hk. split; [by apply Hne|lia].
    + intros Hx1 Hx2. by apply Hun.
Qed.

(** [removeLink] on the store is [removeLink] on the graph that is read
    from it, whether arrays are shared or not. *)
Lemma removeLink_view a b s :
  allocated s →
  view (removeLink a b s) = Hypergraph.removeLink a b (view s).
Proof.
  intros Hal. unfold removeLink.
  set (s1 := match nodes s !! a with
             | Some fromNode =>
                 assign_outgoing a
                   (without b (read s (o_outgoing fromNode))) s
             | None => s
             end).
  assert (Hal1 : allocated s1).
  { unfold s1. destruct (nodes s !! a) as [oa|]; [|done].
    unfold assign_outgoing. simpl. intros x o. simpl. rewrite lookup_alter.
    destruct (decide (a = x)) as [->|Hk].
    - destruct (nodes s !! x) as [o0|] eqn:Hx; simpl; [|done].
      intros [= <-]. simpl. destruct (Hal x o0 Hx). lia.
    - intros Hx. destruct (Hal x o Hx). lia. }
  assert (Hv1 : ∀ x, view s1 !! x
                     = (λ n, if decide (a = x)
                             then with_outgoing n (without b (outgoing n))
                             else n) <$> view s !! x).
  { intros x. unfold s1. destruct (nodes s !! a) as [oa|] eqn:Ha.
    - rewrite assign_outgoing_lookup by done. rewrite view_lookup.
      destruct (decide (a = x)) as [->|Hk].
      + rewrite Ha. done.
      + by destruct (nodes s !! x).
    - rewrite view_lookup. destruct (decide (a = x)) as [->|Hk].
      + by rewrite Ha.
      + by destruct (nodes s !! x). }
  apply map_eq. intros x. rewrite removeLink_lookup. unfold unlinked.
  destruct (nodes s1 !! b) as [ob|] eqn:Hb.
  - rewrite assign_incoming_lookup by done. rewrite Hv1.
    destruct (view s !! x) as [n|] eqn:Hx; simpl; [|done]. f_equal.
    destruct (decide (b = x)) as [->|Hbx]; [|done].
    f_equal. f_equal.
    pose proof (Hv1 x) as Hvx. rewrite view_lookup, Hb, Hx in Hvx.
    simpl in Hvx. injection Hvx as Hvx.
    change (read s1 (o_incoming ob)) with (incoming (node_of s1 ob)).
    by rewrite Hvx.
  - rewrite Hv1.
    destruct (view s !! x) as [n|] eqn:Hx; simpl; [|done]. f_equal.
    destruct (decide (b = x)) as [->|Hbx]; [|done].
    pose proof (Hv1 x) as Hvx. rewrite view_lookup, Hb, Hx in Hvx.
    done.
Qed.

Lemma removeLink_owned a b s : owned s → owned (removeLink a b s).
Proof.
  intros Hown. unfold removeLink.
  set (s1 := match nodes s !! a with
             | Some fromNode =>
                 assign_outgoing a
                   (without b (read s (o_outgoing fromNode))) s
             | None => s
             end).
  assert (Hown1 : owned s1).
  { unfold s1. destruct (nodes s !! a); [|done].
    by apply assign_outgoing_owned. }
  destruct (nodes s1 !! b); [|done]. by apply assign_incoming_owned.
Qed.

(** *** Stores whose nodes own their arrays *)

Lemma owned_checked s :
  map_Forall
    (λ _ o, (o_outgoing o < next_array s)%nat ∧
            (o_incoming o < next_array s)%nat) (nodes s) →
  map_Forall
    (λ k1 o1,
       map_Forall
         (λ k2 o2,
            o_outgoing o1 ≠ o_incoming o2 ∧
            (k1 ≠ k2 → o_outgoing o1 ≠ o_outgoing o2 ∧
                       o_incoming o1 ≠ o_incoming o2)) (nodes s))
    (nodes s) →
  owned s.
Proof.
  intros Hal Hun. split; [exact Hal|].
  intros k1 o1 k2 o2 H1 H2. by apply (Hun k1 o1 H1 k2 o2 H2).
Qed.

Lemma own_store_owned : owned own_store.
Proof.
  apply owned_checked; refine (bool_decide_unpack _ _); vm_compute; exact I.
Qed.

Lemma own_store_consistent : consistent (view own_store).
Proof. refine (bool_decide_unpack _ _). vm_compute. exact I. Qed.

(** X8. In a store whose nodes own their arrays: on a graph where [a] does
    not list [b] and [b] does not list [a], [removeLink(a, b)] after
    [addLink(a, b)] gives back the graph that was read before, and the
    nodes still own their arrays. *)
Theorem removeLink_undoes_addLink s s' a b :
  owned s → addLink a b s = inr s' →
  b ∉ from_option outgoing [] (view s !! a) →
  a ∉ from_option incoming [] (view s !! b) →
  view (removeLink a b s') = view s ∧ owned (removeLink a b s').
Proof.
  intros Hown Hadd Hab Hba.
  pose proof (addLink_owned a b s s' Hown Hadd) as Hown'.
  destruct (addLink_view a b s s' (proj2 Hown) Hadd) as (_ & _ & Hv).
  split; [|by apply removeLink_owned].
  rewrite removeLink_view by apply Hown'.
  by apply (own_removeLink_undoes_addLink (view s) (view s') a b).
Qed.

Lemma removeLink_undoes_addLink_witness :
  ∃ s', addLink "A" "B" own_store = inr s' ∧
        from_option outgoing [] (view s' !! "A") = ["B"] ∧
        view (removeLink "A" "B" s') = view own_store.
Proof.
  eexists. split; [vm_compute; reflexivity|].
  split; [vm_compute; reflexivity|].
  apply (removeLink_undoes_addLink own_store _ "A" "B").
  - apply own_store_owned.
  - vm_compute; reflexivity.
  - vm_compute. apply not_elem_of_nil.
  - vm_compute. apply not_elem_of_nil.
Defined.

(** X9. In a store whose nodes own their arrays, [addLink] and [removeLink]
    keep the adjacency lists bidirectionally consistent, and the nodes
    still own their arrays. *)
Theorem links_keep_consistency s a b :
  owned s → consistent (view s) →
  (∀ s', addLink a b s = inr s' → consistent (view s') ∧ owned s') ∧
  consistent (view (removeLink a b s)) ∧ owned (removeLink a b s).
Proof.
  intros Hown Hc.
  destruct (own_links_keep_consistency (view s) a b Hc) as [Hadd Hrem].
  split; [|split].
  - intros s' Hs'.
    destruct (addLink_view a b s s' (proj2 Hown) Hs') as (_ & _ & Hv).
    split; [by apply Hadd|by apply (addLink_owned a b s)].
  - by rewrite removeLink_view by apply Hown.
  - by apply removeLink_owned.
Qed.

Lemma links_keep_consistency_witness :
  (∃ s', addLink "C" "A" own_store = inr s' ∧ consistent (view s')) ∧
  consistent (view (removeLink "A" "B" own_store)).
Proof.
  destruct (links_keep_consistency own_store "C" "A"
              own_store_owned own_store_consistent) as [H1 _].
  destruct (links_keep_consistency own_store "A" "B"
              own_store_owned own_store_consistent) as (_ & H2 & _).
  split; [|exact H2]. eexists. split; [vm_compute; reflexivity|].
  apply H1. vm_compute; reflexivity.
Defined.

(** Where two nodes share their arrays the two properties fail: after
    [addNode(a)] and [addNode({ ...a, id: 'C' })] the link that
    [addLink('A', 'B')] pushes reaches [C] too, [B] does not list [C],
    and [removeLink('A', 'B')] leaves the link of [C]. *)
Example shared_arrays_spread_links :
  consistent (view shared_store) ∧
  ¬ unshared shared_store ∧
  ∃ s', addLink "A" "B" shared_store = inr s' ∧
        from_option outgoing [] (view s' !! "C") = ["B"] ∧
        from_option incoming [] (view s' !! "B") = ["A"] ∧
        ¬ consistent (view s') ∧
        from_option outgoing []
          (view (removeLink "A" "B" s') !! "C") = ["B"] ∧
        view (removeLink "A" "B" s') ≠ view shared_store.
Proof.
  split; [refine (bool_decide_unpack _ _); vm_compute; exact I|].
  split.
  { intros Hun.
    destruct (Hun "A" _ "C" _ ltac:(vm_compute; reflexivity)
                ltac:(vm_compute; reflexivity)) as [_ H].
    destruct H as [H _]; [done|]. by apply H. }
  eexists. split; [vm_compute; reflexivity|].
  split; [vm_compute; reflexivity|]. split; [vm_compute; reflexivity|].
  split.
  { intros Hc. apply (bool_decide_pack _) in Hc. vm_compute in Hc.
    exact Hc. }
  split; [vm_compute; reflexivity|].
  intros E. apply (f_equal (λ g, from_option outgoing [] (g !! "C"))) in E.
  vm_compute in E. discriminate E.
Qed.
End HypergraphSharedFacts.

(** ** Pattern matcher: [match], [stringSimilarity], [hashString] *)

Module MatcherOpsFacts.
Import JsNum JsNumFacts JsMap JsMapFacts JsSort JsSortFacts Json Truth.
Import Matcher MatcherFacts MatcherOps.
Local Open Scope Q_scope.

Section Loops.
Variable rec : value -> value -> counters -> bool * counters.

Lemma by_elems_counts ps :
  Forall (counts_alike rec) ps ->
  forall items st st', by_elems rec ps items st = (true, st') ->
    exists n, totalFields st' = (totalFields st + n)%nat /\
              matchedFields st' = (matchedFields st + S n)%nat.
Proof.
  induction 1 as [|p ps Hp _ IH]; intros items st st' E; simpl in E.
  - inversion E; subst. exists 0%nat. simpl. lia.
  - destruct (rec p (default VUndefined (head items)) st) as [ok st1] eqn:E1.
    destruct ok; [|discriminate].
    destruct (Hp _ _ _ E1) as (n & Ht & Hm).
    destruct (IH _ _ _ E) as (k & Ht' & Hm').
    exists (n + k)%nat. lia.
Qed.

Lemma by_keys_counts ps :
  Forall (fun kv => counts_alike rec kv.2) ps ->
  forall iObj st st', by_keys rec ps iObj st = (true, st') ->
    exists n, totalFields st' = (totalFields st + n)%nat /\
              matchedFields st' = (matchedFields st + S n)%nat.
Proof.
  induction 1 as [|[key p] ps Hp _ IH]; intros iObj st st' E; simpl in E.
  - inversion E; subst. exists 0%nat. simpl. lia.
  - destruct (jm_get key iObj) as [iv|]; [|discriminate].
    destruct (rec p iv st) as [ok st1] eqn:E1.
    destruct ok; [|discriminate].
    destruct (Hp _ _ _ E1) as (n & Ht & Hm).
    destruct (IH _ _ _ E) as (k & Ht' & Hm').
    exists (n + k)%nat. lia.
Qed.

Lemma by_index_counts ps :
  Forall (counts_alike rec) ps ->
  forall idx iObj st st', by_index rec idx ps iObj st = (true, st') ->
    exists n, totalFields st' = (totalFields st + n)%nat /\
              matchedFields st' = (matchedFields st + S n)%nat.
Proof.
  induction 1 as [|p ps Hp _ IH]; intros idx iObj st st' E; simpl in E.
  - inversion E; subst. exists 0%nat. simpl. lia.
  - destruct (jm_get (index_key idx) iObj) as [iv|]; [|discriminate].
    destruct (rec p iv st) as [ok st1] eqn:E1.
    destruct ok; [|discriminate].
    destruct (Hp _ _ _ E1) as (n & Ht & Hm).
    destruct (IH _ _ _ _ E) as (k & Ht' & Hm').
    exists (n + k)%nat. lia.
Qed.
End Loops.

(** Every successful call of [matchRecursive] counts one more visited
    field and one more matched field, and so do the calls inside it. *)
Lemma matchRecursive_counts p i st st' :
  matchRecursive p i st = (true, st') ->
  exists n, totalFields st' = (totalFields st + S n)%nat /\
            matchedFields st' = (matchedFields st + S n)%nat.
Proof.
  revert i st st'.
  assert (Hleaf : forall (c : bool) st st',
            (if c then (true, count_matched (count_total st))
             else (false, count_total st)) = (true, st') ->
            exists n, totalFields st' = (totalFields st + S n)%nat /\
                      matchedFields st' = (matchedFields st + S n)%nat).
  { intros [] st st' E; inversion E; subst. exists 0%nat. simpl. lia. }
  assert (Hloop : forall st st',
            (exists n,
               totalFields st' = (totalFields (count_total st) + n)%nat /\
               matchedFields st'
               = (matchedFields (count_total st) + S n)%nat) ->
            exists n, totalFields st' = (totalFields st + S n)%nat /\
                      matchedFields st' = (matchedFields st + S n)%nat).
  { intros st st' (n & Ht & Hm). exists n. simpl in *. lia. }
  induction p as [| |b|q| |b|s|items IH|fields IH] using value_deep_ind;
    intros i st st' E.
  1-6: simpl in E; destruct i; simpl in E;
       try (inversion E; fail);
       first [exact (Hleaf true _ _ E) | eapply Hleaf; exact E].
  - simpl in E. destruct (startsWith s "$").
    + inversion E; subst. exists 0%nat. simpl. lia.
    + destruct i; simpl in E; try (inversion E; fail);
        first [exact (Hleaf true _ _ E) | eapply Hleaf; exact E].
  - simpl in E. destruct i as [| |b|q| |b'|s|items'|iObj]; simpl in E;
      try (inversion E; fail).
    + destruct (negb (length items =? length items')%nat);
        [inversion E|].
      apply Hloop. eapply by_elems_counts; [|exact E].
      eapply Forall_impl; [exact IH|]. intros p Hp i st0 st0' E0.
      destruct (Hp _ _ _ E0) as (n & ? & ?). exists (S n). done.
    + apply Hloop. eapply by_index_counts; [|exact E].
      eapply Forall_impl; [exact IH|]. intros p Hp i st0 st0' E0.
      destruct (Hp _ _ _ E0) as (n & ? & ?). exists (S n). done.
  - simpl in E. destruct i as [| |b|q| |b'|s|items'|iObj]; simpl in E;
      try (inversion E; fail).
    + apply Hloop. eapply by_keys_counts; [|exact E].
      eapply Forall_impl; [exact IH|]. intros p Hp i st0 st0' E0.
      destruct (Hp _ _ _ E0) as (n & ? & ?). exists (S n). done.
    + apply Hloop. eapply by_keys_counts; [|exact E].
      eapply Forall_impl; [exact IH|]. intros p Hp i st0 st0' E0.
      destruct (Hp _ _ _ E0) as (n & ? & ?). exists (S n). done.
Qed.

Lemma confidence_cases (pattern input : value)
    (bindings0 : list (string * value)) :
  (calculateMatchConfidence pattern input bindings0).1 == 0 \/
  (calculateMatchConfidence pattern input bindings0).1 == 1.
Proof.
  unfold calculateMatchConfidence.
  destruct (matchRecursive pattern input _) as [matched st] eqn:E.
  destruct matched; simpl; [right|left; reflexivity].
  destruct (matchRecursive_counts _ _ _ _ E) as (n & Ht & Hm).
  simpl in Ht, Hm. rewrite Ht, Hm.
  unfold of_nat, Qdiv. apply Qmult_inv_r.
  intros H. unfold Qeq in H. simpl in H. lia.
Qed.

(** X14. The exact confidence is all or nothing: [calculateMatchConfidence]
    gives 0 when the match fails and 1 when it succeeds, since a match
    succeeds only if every call of [matchRecursive] inside it does, and
    each of those counts a matched field. *)
Theorem exact_confidence_zero_or_one (pattern input : value)
    (bindings0 : list (string * value)) :
  (calculateMatchConfidence pattern input bindings0).1 == 0 \/
  (calculateMatchConfidence pattern input bindings0).1 == 1.
Proof. apply confidence_cases. Qed.

Lemma by_match_confidence_total x y :
  0 < by_match_confidence x y -> by_match_confidence y x <= 0.
Proof. unfold by_match_confidence. lra. Qed.

Lemma by_match_confidence_trans x y z :
  by_match_confidence x y <= 0 -> by_match_confidence y z <= 0 ->
  by_match_confidence x z <= 0.
Proof. unfold by_match_confidence. lra. Qed.

Lemma sorted_by_take {A} (cmp : A -> A -> Q) l :
  sorted_by cmp l -> forall n, sorted_by cmp (take n l).
Proof.
  induction 1 as [|x l Hx Hl IH]; intros [|n]; simpl; try constructor.
  - by apply Forall_take.
  - apply IH.
Qed.

Lemma slice0_take {A} n (xs : list A) : exists k, slice0 n xs = take k xs.
Proof. unfold slice0. destruct (n <? 0)%Z; eauto. Qed.

Lemma slice0_length {A} n (xs : list A) :
  (0 <= n)%Z -> (Z.of_nat (length (slice0 n xs)) <= n)%Z.
Proof.
  intros Hn. unfold slice0. destruct (Z.ltb_spec n 0); [lia|].
  rewrite length_take. lia.
Qed.

(** What [matchPattern] does with one pattern. *)
Lemma matchPattern_cases cfg now pd input :
  (geb (confidence_of pd input) (confidenceThreshold cfg) = false /\
   matchPattern cfg now pd input = (None, pd)) \/
  (geb (confidence_of pd input) (confidenceThreshold cfg) = true /\
   exists r, matchPattern cfg now pd input = (Some r, used now pd) /\
             patternId r = pd_id pd /\ mr_tv r = pd_tv pd /\
             mr_confidence r = confidence_of pd input).
Proof.
  unfold matchPattern, confidence_of, ltb, geb.
  destruct (calculateMatchConfidence (pd_pattern pd) input []) as [c b].
  simpl. destruct (Qle_bool (confidenceThreshold cfg) c); simpl.
  - right. split; [done|]. eexists. split; [done|]. done.
  - left. done.
Qed.

Section Clock.
Variable clock : nat -> Z.

Lemma match_loop_spec cfg input ps :
  forall n results out ps',
    match_loop clock cfg input n ps results = (out, ps') ->
    exists new,
      out = (results ++ new)%list /\
      length new = length (meeting cfg input ps) /\
      Forall (fun r =>
                confidenceThreshold cfg <= mr_confidence r /\
                exists e, In e ps /\ patternId r = pd_id e.2 /\
                          mr_tv r = pd_tv e.2 /\
                          mr_confidence r = confidence_of e.2 input) new /\
      jm_keys ps' = jm_keys ps /\
      total_usage ps' = (total_usage ps + length new)%nat.
Proof.
  induction ps as [|[k pd] ps IH]; intros n results out ps' E; simpl in E.
  - inversion E; subst. exists []. rewrite app_nil_r. done.
  - destruct (matchPattern_cases cfg (clock n) pd input)
      as [[Hc Hm]|[Hc (r & Hm & Hid & Htv & Hconf)]]; rewrite Hm in E.
    + destruct (match_loop clock cfg input (S n) ps results)
        as [out1 ps1] eqn:E1.
      inversion E; subst. destruct (IH _ _ _ _ E1)
        as (new & -> & Hlen & Hall & Hkeys & Huse).
      exists new. split; [done|]. simpl. rewrite Hc. split; [done|].
      split.
      { eapply Forall_impl; [exact Hall|]. intros r [? (e & ? & ?)].
        split; [done|]. exists e. split; [by right|done]. }
      split; [by rewrite Hkeys|].
      unfold total_usage in *. simpl. lia.
    + rewrite Hconf, Hc in E.
      destruct (match_loop clock cfg input (S n) ps (results ++ [r])%list)
        as [out1 ps1] eqn:E1.
      inversion E; subst. destruct (IH _ _ _ _ E1)
        as (new & -> & Hlen & Hall & Hkeys & Huse).
      exists (r :: new). split; [by rewrite <- app_assoc|].
      simpl. rewrite Hc. simpl. split; [by rewrite Hlen|]. split.
      { constructor.
        - split; [rewrite Hconf; by apply geb_true|].
          exists (k, pd). split; [by left|done].
        - eapply Forall_impl; [exact Hall|]. intros r' [? (e & ? & ?)].
          split; [done|]. exists e. split; [by right|done]. }
      split; [by rewrite Hkeys|].
      unfold total_usage in *. simpl. lia.
Qed.

(** X15. The results of [match] come in descending confidence, are at most
    [maxResults] when that limit is not negative, and each of them is
    for a stored pattern, carries its truth value and meets the
    threshold; with a positive threshold each confidence is 1. *)
Theorem match_results (input : value) (m : matcher) :
  (0 <= maxResults (config m))%Z ->
  let rs := (match_ clock input m).1 in
  sorted_by by_match_confidence rs /\
  (Z.of_nat (length rs) <= maxResults (config m))%Z /\
  Forall (fun r =>
            confidenceThreshold (config m) <= mr_confidence r /\
            (0 < confidenceThreshold (config m) -> mr_confidence r == 1) /\
            exists e, In e (patterns m) /\ patternId r = pd_id e.2 /\
                      mr_tv r = pd_tv e.2) rs.
Proof.
  intros Hmax. unfold match_.
  destruct (match_loop clock (config m) input 0 (patterns m) [])
    as [results ps] eqn:E. simpl.
  destruct (match_loop_spec _ _ _ _ _ _ _ E)
    as (new & -> & _ & Hall & _ & _). simpl.
  split; [|split].
  - destruct (slice0_take (maxResults (config m))
                (sort_by by_match_confidence new)) as [k ->].
    apply sorted_by_take, sort_by_sorted;
      [apply by_match_confidence_total|apply by_match_confidence_trans].
  - by apply slice0_length.
  - destruct (slice0_take (maxResults (config m))
                (sort_by by_match_confidence new)) as [k ->].
    apply Forall_take. rewrite sort_by_perm.
    eapply Forall_impl; [exact Hall|].
    intros r [Hthr (e & He & Hid & Htv & Hconf)].
    split; [done|]. split; [|by exists e].
    intros Hpos. rewrite Hconf in Hthr |- *. unfold confidence_of in *.
    destruct (confidence_cases (pd_pattern e.2) input []) as [H0|H1];
      [|done].
    rewrite H0 in Hthr. lra.
Qed.

End Clock.

Lemma match_results_witness :
  (0 <= maxResults (config two_patterns))%Z /\
  let rs := (match_ (fun _ => 0%Z) user_input two_patterns).1 in
  sorted_by by_match_confidence rs /\
  (Z.of_nat (length rs) <= maxResults (config two_patterns))%Z /\
  Forall (fun r =>
            confidenceThreshold (config two_patterns) <= mr_confidence r /\
            (0 < confidenceThreshold (config two_patterns) ->
             mr_confidence r == 1) /\
            exists e, In e (patterns two_patterns) /\
                      patternId r = pd_id e.2 /\ mr_tv r = pd_tv e.2) rs.
Proof.
  split; [simpl; lia|].
  apply (match_results (fun _ => 0%Z) user_input two_patterns).
  simpl; lia.
Defined.

Lemma ratio_bounds d m c :
  0 < m -> c * m == d ->
  (0 <= d -> 0 <= c) /\ (d <= m -> c <= 1) /\ (d <= 2 * m -> c <= 2) /\
  (d == 0 <-> c == 0).
Proof.
  intros Hm Hc. repeat split; intros; try nra.
Qed.

Section Similarity.
Context {C : Type} `{EqDecision C}.

Lemma fill_row_length (bj : C) a :
  forall left diag above,
    length above = length a ->
    length (fill_row bj a left diag above) = length a.
Proof.
  induction a as [|ai a IH]; intros left diag [|up above] Hl; simpl in *;
    try done.
  rewrite IH; [done|lia].
Qed.

(** A cell is at most the cell diagonally above it, plus the cost. *)
Lemma fill_row_lookup (bj : C) a :
  forall left diag above i ai d,
    length above = length a ->
    a !! i = Some ai -> (diag :: above) !! i = Some d ->
    exists c, fill_row bj a left diag above !! i = Some c /\
              (c <= d + (if decide (ai = bj) then 0 else 1))%nat.
Proof.
  induction a as [|a0 a IH]; intros left diag [|up above] i ai d Hl Ha Hd;
    simpl in *; try done.
  destruct i as [|i]; simpl in *.
  - inversion Ha; subst. inversion Hd; subst. eexists. split; [done|].
    apply Nat.le_min_r.
  - eapply IH; [lia|exact Ha|exact Hd].
Qed.

Lemma next_row_length a prev j (bj : C) :
  length prev = S (length a) ->
  length (next_row a prev j bj) = S (length a).
Proof.
  intros Hl. unfold next_row. simpl. f_equal. apply fill_row_length.
  destruct prev; simpl in *; lia.
Qed.

Lemma next_row_lookup a prev j (bj : C) i ai d :
  length prev = S (length a) ->
  a !! i = Some ai -> prev !! i = Some d ->
  exists c, next_row a prev j bj !! S i = Some c /\
            (c <= d + (if decide (ai = bj) then 0 else 1))%nat.
Proof.
  intros Hl Ha Hd. unfold next_row. simpl.
  destruct prev as [|p0 prev]; [done|]. simpl in *.
  eapply fill_row_lookup; [lia|exact Ha|exact Hd].
Qed.

(** No cell of row [j] exceeds the larger of its two indices. *)
Lemma rows_bound a (b : list C) :
  forall j prev,
    length prev = S (length a) ->
    (forall i c, prev !! i = Some c -> (c <= Nat.max i j)%nat) ->
    length (rows a b j prev) = S (length a) /\
    forall i c, rows a b j prev !! i = Some c ->
                (c <= Nat.max i (j + length b))%nat.
Proof.
  induction b as [|bj b IH]; intros j prev Hl Hb; simpl.
  - split; [done|]. intros i c Hi. specialize (Hb i c Hi). lia.
  - destruct (IH (S j) (next_row a prev (S j) bj)) as [Hl' Hb'].
    + by apply next_row_length.
    + intros [|i] c Hi.
      * unfold next_row in Hi. simpl in Hi. inversion Hi. lia.
      * assert (Hlt : (S i < S (length a))%nat).
        { rewrite <- (next_row_length a prev (S j) bj Hl).
          by eapply lookup_lt_Some. }
        destruct (lookup_lt_is_Some_2 a i) as [ai Ha]; [lia|].
        destruct (lookup_lt_is_Some_2 prev i) as [d Hd]; [lia|].
        destruct (next_row_lookup a prev (S j) bj i ai d Hl Ha Hd)
          as (c' & Hc' & Hle).
        rewrite Hi in Hc'. inversion Hc'; subst c'.
        specialize (Hb i d Hd). destruct (decide (ai = bj)); lia.
    + split; [done|]. intros i c Hi. specialize (Hb' i c Hi). lia.
Qed.

(** Along the diagonal of the matrix of a string with itself every cell
    is 0. *)
Lemma rows_diag a (b : list C) :
  forall j prev,
    length prev = S (length a) -> drop j a = b -> prev !! j = Some 0%nat ->
    rows a b j prev !! (j + length b)%nat = Some 0%nat.
Proof.
  induction b as [|bj b IH]; intros j prev Hl Hdrop Hj; simpl.
  - by rewrite Nat.add_0_r.
  - assert (Ha : a !! j = Some bj).
    { rewrite <- (Nat.add_0_r j), <- lookup_drop, Hdrop. done. }
    replace (j + S (length b))%nat with (S j + length b)%nat by lia.
    apply IH.
    + by apply next_row_length.
    + replace (S j) with (j + 1)%nat by lia.
      rewrite <- (drop_drop a 1 j), Hdrop. done.
    + destruct (next_row_lookup a prev (S j) bj j bj 0%nat Hl Ha Hj)
        as (c & Hc & Hle).
      rewrite decide_True in Hle by done. rewrite Hc. f_equal. lia.
Qed.

Lemma last_lookup_default (l : list nat) d c :
  l !! pred (length l) = Some c -> List.last l d = c.
Proof.
  induction l as [|x l IH]; [done|].
  destruct l as [|y l]; simpl in *.
  - intros H. by inversion H.
  - intros H. by apply IH.
Qed.

Lemma row0_lookup n i c : seq 0 (S n) !! i = Some c -> c = i.
Proof.
  intros H. apply lookup_seq in H. lia.
Qed.

Lemma distance_bound (a b : list C) :
  (distance a b <= Nat.max (length a) (length b))%nat.
Proof.
  unfold distance.
  destruct (rows_bound a b 0 (seq 0 (S (length a)))) as [Hl Hb].
  - by rewrite length_seq.
  - intros i c Hi. apply row0_lookup in Hi. lia.
  - destruct (lookup_lt_is_Some_2 (rows a b 0 (seq 0 (S (length a))))
                (length a)) as [c Hc]; [lia|].
    rewrite (last_lookup_default _ 0%nat c).
    + specialize (Hb _ _ Hc). simpl in Hb. done.
    + by rewrite Hl.
Qed.

Lemma distance_self (a : list C) : distance a a = 0%nat.
Proof.
  unfold distance. apply last_lookup_default.
  destruct (rows_bound a a 0 (seq 0 (S (length a)))) as [Hl _].
  - by rewrite length_seq.
  - intros i c Hi. apply row0_lookup in Hi. lia.
  - rewrite Hl. simpl.
    apply (rows_diag a a 0 (seq 0 (S (length a)))).
    + by rewrite length_seq.
    + done.
    + done.
Qed.

(** X18. [stringSimilarity] lies between 0 and 1, and is 1 for a string and
    itself: the edit distance the matrix computes is at most the length
    of the longer string, and 0 on the diagonal of equal strings. *)
Theorem stringSimilarity_range (a b : list C) :
  0 <= stringSimilarity a b <= 1 /\ stringSimilarity a a == 1.
Proof.
  assert (Hgen : forall d m : nat,
            (d <= m)%nat -> (0 < m)%nat ->
            0 <= 1 - of_nat d / of_nat m <= 1 /\
            (d = 0%nat -> 1 - of_nat d / of_nat m == 1)).
  { intros d m Hd Hm.
    assert (H0 : 0 <= of_nat d).
    { unfold of_nat, Qle. simpl. lia. }
    assert (H1 : of_nat d <= of_nat m).
    { unfold of_nat, Qle. simpl. lia. }
    assert (H2 : 0 < of_nat m).
    { unfold of_nat, Qlt. simpl. lia. }
    assert (Hc : of_nat d / of_nat m * of_nat m == of_nat d)
      by (field; lra).
    destruct (ratio_bounds _ _ _ H2 Hc) as (Hc0 & Hc1 & _ & Hz).
    split; [split|].
    - specialize (Hc1 H1). lra.
    - specialize (Hc0 H0). lra.
    - intros ->. assert (Hd0 : of_nat 0 == 0) by reflexivity.
      apply Hz in Hd0. lra. }
  unfold stringSimilarity. split.
  - destruct (Nat.ltb_spec 0 (Nat.max (length a) (length b))); [|lra].
    apply Hgen; [apply distance_bound|done].
  - destruct (Nat.ltb_spec 0 (Nat.max (length a) (length a)));
      [|reflexivity].
    apply Hgen; [apply distance_bound|done|apply distance_self].
Qed.
End Similarity.

Lemma to_int32_wrap z :
  exists k, to_int32 z = (z + k * 2 ^ 32)%Z.
Proof.
  unfold to_int32. exists (- ((z + 2 ^ 31) / 2 ^ 32))%Z.
  pose proof (Z.div_mod (z + 2 ^ 31) (2 ^ 32)). lia.
Qed.

Lemma to_int32_shift z k : to_int32 (z + k * 2 ^ 32) = to_int32 z.
Proof.
  unfold to_int32.
  replace (z + k * 2 ^ 32 + 2 ^ 31)%Z with (z + 2 ^ 31 + k * 2 ^ 32)%Z
    by lia.
  by rewrite Z_mod_plus_full.
Qed.

Lemma to_int32_range z : (- 2 ^ 31 <= to_int32 z < 2 ^ 31)%Z.
Proof.
  unfold to_int32.
  pose proof (Z.mod_pos_bound (z + 2 ^ 31) (2 ^ 32)). lia.
Qed.

Lemma hash_step_poly p c :
  hash_step (to_int32 p) c = to_int32 (31 * p + c).
Proof.
  unfold hash_step. rewrite Z.land_diag, Z.shiftl_mul_pow2 by lia.
  destruct (to_int32_wrap p) as [k1 E1].
  destruct (to_int32_wrap (to_int32 p)) as [k2 E2].
  destruct (to_int32_wrap (to_int32 (to_int32 p) * 2 ^ 5)) as [k3 E3].
  rewrite E3, E2, E1.
  replace ((p + k1 * 2 ^ 32 + k2 * 2 ^ 32) * 2 ^ 5 + k3 * 2 ^ 32
           - (p + k1 * 2 ^ 32) + c)%Z
    with (31 * p + c + (31 * k1 + 32 * k2 + k3) * 2 ^ 32)%Z by lia.
  apply to_int32_shift.
Qed.

Lemma hash_loop_poly str p :
  fold_left hash_step str (to_int32 p)
  = to_int32 (fold_left (fun h c => (31 * h + c)%Z) str p).
Proof.
  revert p. induction str as [|c str IH]; intros p; simpl; [done|].
  by rewrite hash_step_poly, IH.
Qed.

(** X19. [hashString] is the numeral in base 36 of the absolute value of the
    polynomial in 31 over the code units, wrapped to 32 signed bits;
    that value is at most 2^31. *)
Theorem hashString_polynomial (str : list Z) :
  hashString str = toString36 (Z.abs (to_int32 (poly31 str))) /\
  (Z.abs (to_int32 (poly31 str)) <= 2 ^ 31)%Z.
Proof.
  split.
  - unfold hashString, poly31. f_equal. f_equal.
    change 0%Z with (to_int32 0) at 1. apply hash_loop_poly.
  - pose proof (to_int32_range (poly31 str)). lia.
Qed.
End MatcherOpsFacts.

(** ** Inference engine: [infer], and what the chainers keep *)

Module PLNOpsFacts.
Import JsNum JsNumFacts JsMap JsMapFacts JsSort JsSortFacts Truth.
Import PLN PLNFacts PLNOps.
Local Open Scope Q_scope.

Lemma jm_has_true {V} k (m : list (string * V)) :
  jm_has k m = true <-> is_Some (jm_get k m).
Proof.
  unfold jm_has. destruct (jm_get k m); split; intros H; try done.
Qed.

Lemma jm_has_set {V} k k' (v : V) m :
  jm_has k (jm_set k' v m) = true <-> k = k' \/ jm_has k m = true.
Proof.
  rewrite !jm_has_true. destruct (decide (k' = k)) as [->|Hne].
  - rewrite jm_get_set_eq. split; [by left|by eexists].
  - rewrite jm_get_set_ne by done. split; [by right|].
    intros [?|?]; [congruence|done].
Qed.

Section Engine.
Variable regex_test : string -> string -> bool.

Lemma applyRule_result r wm inference :
  applyRule regex_test r wm = Some inference ->
  res_rule inference = rule_id r /\
  res_conclusion inference = conclusion r /\ steps inference = 1%nat.
Proof.
  unfold applyRule.
  destruct (collect_premises regex_test (premise r) wm) as [[tvs ms]|];
    [|done].
  intros H. inversion H; subst. done.
Qed.





Lemma premises_in_memory {V} (premises : list string) (tv : V) :
  forall m p,
  In p premises \/ jm_has p m = true ->
  jm_has p (fold_left (fun m p => jm_set p tv m) premises m) = true.
Proof.
  induction premises as [|q premises IH]; intros m p Hp; simpl.
  - destruct Hp; [done|done].
  - apply IH. destruct Hp as [[->|Hp]|Hp].
    + right. apply jm_has_set. by left.
    + by left.
    + right. apply jm_has_set. by right.
Qed.

Lemma fc_rule_inv premises e bound step st r :
  fc_inv premises e bound st -> In r (jm_values (rules e)) ->
  (1 <= step <= bound)%nat ->
  fc_inv premises e bound (fc_rule regex_test step st r).
Proof.
  intros (Hnd & Hprem & Hall) Hr Hstep. unfold fc_rule.
  destruct (canApplyRule regex_test r (workingMemory st)); [|done].
  destruct (applyRule regex_test r (workingMemory st)) as [inf|] eqn:Ea;
    [|done].
  destruct (jm_has (res_conclusion inf) (workingMemory st)) eqn:Eh;
    simpl; [done|].
  apply applyRule_result in Ea as (Hrule & Hconc & _).
  rewrite Forall_forall in Hall.
  split; [|split]; simpl.
  - rewrite map_app. simpl. apply NoDup_app. split; [done|].
    split; [|apply NoDup_singleton].
    intros c Hc Hc'%list_elem_of_singleton. subst c.
    apply list_elem_of_In, in_map_iff in Hc as (res & Heq & Hin).
    apply list_elem_of_In, Hall in Hin as (Hin & _).
    rewrite Heq in Hin. congruence.
  - intros p Hp. apply jm_has_set. right. by apply Hprem.
  - apply Forall_app. split.
    + apply Forall_forall. intros res Hres.
      destruct (Hall res Hres) as (? & ? & ?).
      split; [apply jm_has_set; by right|done].
    + constructor; [|constructor]. simpl.
      split; [apply jm_has_set; by left|]. split.
      * intros Hin. apply Hprem in Hin. congruence.
      * split; [done|]. exists r. done.
Qed.

Lemma fc_loop_inv premises e bound fuel : forall step st,
  (step + fuel <= bound)%nat -> fc_inv premises e bound st ->
  fc_inv premises e bound (fc_loop regex_test e fuel step st).
Proof.
  induction fuel as [|fuel IH]; intros step st Hb Hinv; simpl; [done|].
  destruct (changed st); [|done].
  apply IH; [lia|].
  assert (Hgen : forall l st0,
            (forall r, In r l -> In r (jm_values (rules e))) ->
            fc_inv premises e bound st0 ->
            fc_inv premises e bound
              (fold_left (fc_rule regex_test (S step)) l st0)).
  { induction l as [|r l IHl]; intros st0 Hin H0; simpl; [done|].
    apply IHl; [intros; apply Hin; by right|].
    apply fc_rule_inv; [done|apply Hin; by left|lia]. }
  apply Hgen; [done|]. exact Hinv.
Qed.

(** X21. [forwardChain] derives each conclusion once and never one of the
    premises: the conclusions of its results are distinct, none is among
    the premises, each result names a stored rule and its conclusion at
    a round between 1 and [maxInferenceDepth], and the results come in
    descending confidence. *)
Theorem forwardChain_conclusions_new (premises : list string)
    (e : engine) :
  let out := forwardChain regex_test premises e in
  NoDup (map res_conclusion out) /\
  Forall (fun res => ~ In (res_conclusion res) premises /\
                     from_rule e maxInferenceDepth res) out /\
  sorted_by by_confidence out.
Proof.
  unfold forwardChain.
  set (wm := fold_left _ premises []).
  set (st := fc_loop regex_test e maxInferenceDepth 0
               {| workingMemory := wm; results := []; changed := true |}).
  assert (Hinv : fc_inv premises e maxInferenceDepth st).
  { apply fc_loop_inv; [simpl; lia|].
    split; [constructor|]. split; [|constructor]. simpl.
    intros p Hp. apply premises_in_memory. by left. }
  destruct Hinv as (Hnd & _ & Hall).
  pose proof (sort_by_perm by_confidence (results st)) as Hperm. simpl.
  split; [by rewrite Hperm|]. split.
  - rewrite Hperm. eapply Forall_impl; [exact Hall|].
    by intros res (_ & ? & ?).
  - apply sort_by_sorted;
      [apply by_confidence_total|apply by_confidence_trans].
Qed.
End Engine.

Lemma prove_premises_sound e bt ps :
  (forall p d v, (bt p d v).1 <> [] -> provable e p) ->
  forall depth acc v proofs v',
    prove_premises bt ps depth acc v = (Some proofs, v') ->
    Forall (provable e) ps.
Proof.
  intros Hbt. induction ps as [|p ps IH]; intros depth acc v proofs v' E;
    simpl in E; [constructor|].
  destruct (bt p (S depth) v) as [rs v1] eqn:E1.
  destruct rs as [|res rs]; [inversion E|].
  constructor.
  - apply (Hbt p (S depth) v). rewrite E1. done.
  - eapply IH. exact E.
Qed.

Lemma backtrack_sound e fuel : forall goal depth v,
  sound_for e goal depth (backtrack e fuel goal depth v).1.
Proof.
  induction fuel as [|fuel IH]; intros goal depth v; simpl.
  - split; [constructor|done].
  - destruct ((maxInferenceDepth <? depth)%nat
              || bool_decide (goal ∈ v)); simpl.
    { split; [constructor|done]. }
    destruct (facts e !! goal) as [tv|] eqn:Ef; simpl.
    { split; [by repeat constructor|].
      intros _. by eapply provable_fact. }
    assert (Hgen : forall l st,
              (forall r, In r l -> In r (jm_values (rules e))) ->
              sound_for e goal depth st.1 ->
              sound_for e goal depth
                (fold_left
                   (fun '(localResults, visited) r =>
                      if String.eqb (conclusion r) goal then
                        match prove_premises (backtrack e fuel) (premise r)
                                depth [] visited with
                        | (Some premiseProofs, visited') =>
                            ((localResults
                              ++ [rule_result r premiseProofs depth])%list,
                             visited')
                        | (None, visited') => (localResults, visited')
                        end
                      else (localResults, visited)) l st).1).
    { induction l as [|r l IHl]; intros [localResults visited] Hin Hs;
        simpl; [done|].
      apply IHl; [intros; apply Hin; by right|].
      destruct (String.eqb_spec (conclusion r) goal) as [Hc|Hc]; [|done].
      destruct (prove_premises (backtrack e fuel) (premise r) depth []
                  visited) as [[proofs|] v1] eqn:Ep; [|done].
      simpl in *. destruct Hs as [Hall Hprov]. split.
      - apply Forall_app. split; [done|]. by repeat constructor.
      - intros _. apply (provable_rule e goal r); [|done|].
        + apply Hin. by left.
        + eapply prove_premises_sound; [|exact Ep].
          intros p d v0 Hne. by apply (IH p d v0). }
    apply Hgen; [done|]. simpl. split; [constructor|done].
Qed.

(** X22. [backwardChain] is sound: every result concludes the goal, at depth
    0, and a result is returned only for a goal that is provable from
    the facts by the rules; the results come in descending
    confidence. *)
Theorem backwardChain_sound (goal : string) (e : engine) :
  Forall (fun res => res_conclusion res = goal /\ steps res = 0%nat)
    (backwardChain goal e) /\
  (backwardChain goal e <> [] -> provable e goal) /\
  sorted_by by_confidence (backwardChain goal e).
Proof.
  unfold backwardChain.
  destruct (backtrack_sound e (S maxInferenceDepth) goal 0 ∅)
    as [Hall Hprov].
  set (raw := (backtrack e (S maxInferenceDepth) goal 0 ∅).1) in *.
  pose proof (sort_by_perm by_confidence raw) as Hperm.
  split; [by rewrite Hperm|]. split.
  - clearbody raw. intros Hne. apply Hprov. intros Hraw. apply Hne.
    by rewrite Hraw.
  - apply sort_by_sorted;
      [apply by_confidence_total|apply by_confidence_trans].
Qed.
End PLNOpsFacts.

(** ** Kernel registry: the activation count, and what every state keeps *)

Module RegistryOpsFacts.
Import JsNum JsNumFacts Json Registry RegistryFacts RegistryOps.

Section WithHandler.
Variable handler : KernelType -> CognitiveKernel -> value -> exn + value.

Lemma counted_perform k r c :
  in_step r →
  activationCount <$> states (perform handler r c) !! k
  = counted k (activationCount <$> states r !! k) c.
Proof.
  intros Hr. destruct c as [now kernel|k'|now k' input|k']; simpl.
  - rewrite lookup_insert. case_decide; [|done].
    by destruct (decide (id kernel = k)).
  - rewrite lookup_delete. case_decide; [|done].
    by destruct (decide (k' = k)).
  - unfold activate.
    destruct (states r !! k') as [st|] eqn:Hs.
    + destruct (kernels r !! k') as [kernel|] eqn:Hk.
      * destruct (decide (k' = k)) as [->|Hne].
        -- rewrite Hs.
           destruct (processKernel handler kernel input); simpl;
             by rewrite lookup_insert, decide_True.
        -- destruct (processKernel handler kernel input); simpl;
             by rewrite lookup_insert, decide_False.
      * apply Hr in Hk. congruence.
    + destruct (kernels r !! k'); simpl;
        (destruct (decide (k' = k)) as [->|Hne]; [by rewrite Hs|done]).
  - rewrite lookup_alter. case_decide; [subst k'|done].
    by destruct (states r !! k).
Qed.

Lemma counted_run k cs : ∀ r,
  in_step r →
  activationCount <$> states (run_calls handler cs r) !! k
  = fold_left (counted k) cs (activationCount <$> states r !! k).
Proof.
  unfold run_calls.
  induction cs as [|c cs IH]; intros r Hr; simpl; [done|].
  rewrite IH by (by apply in_step_perform).
  by rewrite counted_perform.
Qed.

(** X25. The activation count of a kernel is the number of [activate] calls
    for it since it was last registered, whether they succeeded or
    failed; a kernel that was unregistered, or never registered, has no
    state. *)
Theorem activationCount_counts cs k :
  activationCount
    <$> getState k (run_calls handler cs createKernelRegistry)
  = activations k cs.
Proof.
  unfold getState, activations. rewrite counted_run.
  - simpl. by rewrite lookup_empty.
  - intros k'. simpl. by rewrite !lookup_empty.
Qed.
End WithHandler.
End RegistryOpsFacts.

Module RegistryAsyncOpsFacts.
Import JsNum JsNumFacts Json Registry RegistryAsync RegistryAsyncFacts.

Section WithHandler.
Variable handler : KernelType -> CognitiveKernel -> value -> exn + value.

Lemma settled_step r ev :
  well_formed r → settled r → settled (step handler r ev).
Proof.
  intros Hwf [Hid Hobj]. pose proof Hwf as (Hlt & Hst & Hfl).
  destruct ev as [now kernel|k|k|now k input|n]; simpl.
  - split; simpl.
    + intros k' ref st. rewrite lookup_insert. case_decide as Hk.
      * intros [= <-]. rewrite lookup_insert, decide_True by done.
        by intros [= <-].
      * intros Hk'. destruct (Hst _ _ Hk') as [st0 Hst0].
        pose proof (Hlt _ _ Hst0).
        rewrite lookup_insert, decide_False by lia. by apply Hid.
    + intros ref st. rewrite lookup_insert. case_decide as Hd.
      * intros [= <-]. simpl. split; [lra|]. split; [lra|done].
      * apply Hobj.
  - split; simpl; [|done].
    intros k' ref st. rewrite lookup_delete. case_decide; [done|].
    apply Hid.
  - unfold deactivateA. destruct (state_refs r !! k) as [ref0|]; [|done].
    split; simpl.
    + intros k' ref st Hk'. rewrite lookup_alter.
      case_decide; [subst|by apply Hid].
      destruct (objects r !! ref) as [st0|] eqn:E; [|done].
      intros [= <-]. simpl. by apply (Hid k' ref).
    + intros ref st. rewrite lookup_alter. case_decide; [subst|apply Hobj].
      destruct (objects r !! ref) as [st0|] eqn:E; [|done].
      intros [= <-]. simpl. destruct (Hobj ref st0 E) as (? & ? & _).
      done.
  - unfold begin_activate.
    destruct (kernel_map r !! k) as [kernel|]; [|done].
    destruct (state_refs r !! k) as [ref0|] eqn:Ek; [|done].
    destruct (objects r !! ref0) as [st0|] eqn:E0; [|done].
    split; simpl.
    + intros k' ref st Hk'. rewrite lookup_insert.
      case_decide; [subst|by apply Hid].
      intros [= <-]. simpl. by apply (Hid k' ref).
    + intros ref st. rewrite holders_app. rewrite lookup_insert.
      case_decide as Hd.
      * subst ref. intros [= <-]. simpl. rewrite Nat.eqb_refl.
        destruct (Hobj ref0 st0 E0) as (? & ? & _).
        split; [done|]. split; [done|]. lia.
      * intros Hst'. destruct (Hobj ref st Hst') as (? & ? & Hact).
        split; [done|]. split; [done|]. intros Ha. specialize (Hact Ha). lia.
  - unfold settle.
    destruct (in_flight r !! n) as [[ref0 outcome]|] eqn:En; [|done].
    destruct (objects r !! ref0) as [st0|] eqn:E0.
    + split; simpl.
      * intros k' ref st Hk'. rewrite lookup_insert.
        case_decide; [subst|by apply Hid].
        intros [= <-]. destruct outcome; simpl; by apply (Hid k' ref).
      * intros ref st. rewrite lookup_insert. case_decide as Hd.
        -- subst ref. intros [= <-].
           destruct (Hobj ref0 st0 E0) as (H0 & H1 & _).
           destruct outcome as [err|result]; simpl.
           ++ split; [apply Q.le_max_l|]. split; [apply Q.max_lub; lra|done].
           ++ split; [apply Q.min_glb; lra|].
              split; [apply Q.le_min_l|done].
        -- intros Hst'. destruct (Hobj ref st Hst') as (? & ? & Hact).
           split; [done|]. split; [done|]. intros Ha. specialize (Hact Ha).
           rewrite (holders_delete ref r n ref0 outcome
                      (<[ref0:=end_activation
                         match outcome with
                         | inl error =>
                             record_failure (error_message error) st0
                         | inr result => record_success result st0
                         end]> (objects r)) En) in Hact.
           apply Nat.eqb_neq in Hd. rewrite Hd in Hact. lia.
    + split; simpl; [done|].
      intros ref st Hst'. destruct (Hobj ref st Hst') as (? & ? & Hact).
      split; [done|]. split; [done|]. intros Ha. specialize (Hact Ha).
      rewrite (holders_delete ref r n ref0 outcome (objects r) En) in Hact.
      destruct (Nat.eqb_spec ref0 ref) as [->|_]; [congruence|lia].
Qed.

Lemma settled_run evs : ∀ r,
  well_formed r → settled r →
  settled (run handler evs r) ∧ well_formed (run handler evs r).
Proof.
  unfold run.
  induction evs as [|ev evs IH]; intros r Hwf Hr; simpl; [done|].
  apply IH; [by apply well_formed_step|by apply settled_step].
Qed.

(** X24. After any interleaving of [register], [unregister] and [deactivate]
    calls with the two halves of [activate] calls, every kernel state
    is filed under its own id, has a performance between 0 and 1, and
    is active only while an activation of it has not settled. *)
Theorem states_settled evs k st :
  getStateA k (run handler evs createAsyncRegistry) = Some st →
  state_id st = k ∧
  (0 <= performance st)%Q ∧ (performance st <= 1)%Q ∧
  (active st = true → busy k (run handler evs createAsyncRegistry)).
Proof.
  destruct (settled_run evs createAsyncRegistry) as [[Hid Hobj] _].
  - apply new_well_formed.
  - split; simpl.
    + intros k' ref st'. by rewrite lookup_empty.
    + intros ref st'. by rewrite lookup_empty.
  - unfold getStateA, busy.
    destruct (state_refs (run handler evs createAsyncRegistry) !! k)
      as [ref|] eqn:Ek; [|done].
    simpl. intros Hst. destruct (Hobj ref st Hst) as (H0 & H1 & Hact).
    split; [by apply (Hid k ref)|]. split; [done|]. split; [done|].
    intros Ha. exists ref. split; [done|]. by apply Hact.
Qed.
End WithHandler.

Lemma states_settled_witness :
  ∃ st,
    getStateA "selector"
      (run sample_handler overlapping_failures createAsyncRegistry)
    = Some st ∧
    (performance st == 8 # 10)%Q ∧ active st = false ∧
    state_id st = "selector" ∧
    (0 <= performance st)%Q ∧ (performance st <= 1)%Q.
Proof.
  eexists. split; [vm_compute; reflexivity|].
  split; [vm_compute; reflexivity|]. split; [reflexivity|].
  destruct (states_settled sample_handler overlapping_failures "selector" _
              ltac:(vm_compute; reflexivity)) as (H1 & H2 & H3 & _).
  done.
Defined.
End RegistryAsyncOpsFacts.

(** ** Helpers of [exports/utilities.ts] *)

Module UtilitiesFacts.
Import JsNum JsNumFacts JsMap JsMapFacts Json Truth Registry Utilities.
Local Open Scope Q_scope.

Section Trim.
Variable trim : string -> string.

(** X28. A kernel made by [createKernelTemplate] passes [validateKernel]
    exactly when its id and its name are not blank and it has a
    dimension; the budget, the priority and the dependencies of a
    template never raise an error. *)
Theorem template_validates (created k name : string) (t : KernelType)
    (tensorDimensions : list nat) :
  validateKernel trim (createKernelTemplate created k name t tensorDimensions)
  = (push_if (blank trim k) "Kernel ID is required" [] ++
     push_if (blank trim name) "Kernel name is required" [] ++
     push_if (Nat.eqb (length tensorDimensions) 0)
       "Tensor shape with dimensions is required" [])%list /\
  (validateKernel trim
     (createKernelTemplate created k name t tensorDimensions) = [] <->
   blank trim k = false /\ blank trim name = false /\
   tensorDimensions <> []).
Proof.
  unfold validateKernel. simpl.
  destruct (blank trim k), (blank trim name),
    tensorDimensions as [|d dims]; simpl;
    (split; [reflexivity|]); split; try done;
    intros (? & ? & ?); done.
Qed.
End Trim.
End UtilitiesFacts.

(** ** [createDefaultTruthValue], in the arithmetic of the platform *)

Module UtilitiesDoubleFacts.
Import Floats JsDouble UtilitiesDouble.
Local Open Scope float_scope.

(** *** The order of the numbers *)

Lemma SFcompare_antisym x y :
  SFcompare y x = option_map CompOpp (SFcompare x y).
Proof.
  destruct x as [sx|sx| |sx mx ex], y as [sy|sy| |sy my ey]; simpl;
    try reflexivity; try (by destruct sx); try (by destruct sy);
    try (by destruct sx, sy).
  pose proof (Pos.compare_cont_antisym mx my Eq) as Hm. simpl in Hm.
  destruct sx, sy; simpl; try reflexivity;
    rewrite (Z.compare_antisym ex ey); destruct (ex ?= ey)%Z; simpl;
    try reflexivity; f_equal; rewrite <- Hm;
    by rewrite ?CompOpp_involutive.
Qed.

Lemma SFcompare_refl x : x <> S754_nan -> SFcompare x x = Some Eq.
Proof.
  destruct x as [s|s| |s m e]; simpl; intros H; try done;
    try (by destruct s).
  destruct s; rewrite Z.compare_refl, Pos.compare_cont_refl; done.
Qed.

Lemma SFcompare_none x y :
  SFcompare x y = None -> x = S754_nan \/ y = S754_nan.
Proof.
  destruct x as [sx|sx| |sx mx ex], y as [sy|sy| |sy my ey]; simpl;
    intros H; try done; auto.
Qed.

Lemma is_nan_spec x : is_nan x = true <-> Prim2SF x = S754_nan.
Proof.
  unfold is_nan. rewrite eqb_spec. unfold SFeqb. split.
  - intros H. destruct (Prim2SF x) eqn:E; try done;
      rewrite SFcompare_refl in H; done.
  - by intros ->.
Qed.

Lemma not_nan_spec x : is_nan x = false <-> Prim2SF x <> S754_nan.
Proof.
  rewrite <- is_nan_spec. by destruct (is_nan x).
Qed.

Lemma eqb_refl x : is_nan x = false -> (x =? x) = true.
Proof. unfold is_nan. by destruct (x =? x). Qed.

Lemma leb_nan_r x y : is_nan y = true -> (x <=? y) = false.
Proof.
  rewrite is_nan_spec, leb_spec. intros ->. unfold SFleb.
  by destruct (Prim2SF x).
Qed.

Lemma ltb_leb x y : (x <? y) = true -> (x <=? y) = true.
Proof.
  rewrite ltb_spec, leb_spec. unfold SFltb, SFleb.
  by destruct (SFcompare _ _) as [[]|].
Qed.

Lemma ltb_not_leb x y : (x <? y) = true -> (y <=? x) = false.
Proof.
  rewrite ltb_spec, leb_spec. unfold SFltb, SFleb.
  rewrite (SFcompare_antisym (Prim2SF x) (Prim2SF y)).
  by destruct (SFcompare _ _) as [[]|].
Qed.

Lemma not_ltb_leb x y :
  is_nan x = false -> is_nan y = false ->
  (x <? y) = false -> (y <=? x) = true.
Proof.
  rewrite !not_nan_spec, ltb_spec, leb_spec. unfold SFltb, SFleb.
  intros Hx Hy. rewrite (SFcompare_antisym (Prim2SF x) (Prim2SF y)).
  destruct (SFcompare _ _) as [[]|] eqn:E; try done.
  by destruct (SFcompare_none _ _ E).
Qed.

Lemma leb_not_ltb_eqb x y :
  (x <=? y) = true -> (x <? y) = false -> (x =? y) = true.
Proof.
  rewrite ltb_spec, leb_spec, eqb_spec. unfold SFltb, SFleb, SFeqb.
  by destruct (SFcompare _ _) as [[]|].
Qed.

(** *** The clamp *)

Lemma js_min_one x :
  js_min 1 x
  = if is_nan x then nan else if 1 <? x then 1 else x.
Proof.
  unfold js_min. change (is_nan 1) with false. simpl.
  destruct (is_nan x); [done|]. destruct (1 <? x); [done|].
  by destruct (x <? 1).
Qed.

Lemma js_max_zero x :
  js_max 0 x = if is_nan x then nan else if 0 <? x then x else 0.
Proof.
  unfold js_max. change (is_nan 0) with false. simpl.
  destruct (is_nan x); [done|]. destruct (0 <? x); [done|].
  by destruct (x <? 0).
Qed.

Lemma clamp_clamped x : clamped x (js_max 0 (js_min 1 x)).
Proof.
  unfold clamped. rewrite js_min_one.
  destruct (is_nan x) eqn:Hnan.
  - split; [done|]. split; [done|]. intros H. by rewrite leb_nan_r in H.
  - destruct (1 <? x) eqn:H1.
    + split; [done|]. split; [done|]. intros _ H.
      by rewrite (ltb_not_leb 1 x) in H.
    + rewrite js_max_zero, Hnan. destruct (0 <? x) eqn:H0.
      * split; [done|]. split.
        -- intros _. split; [by apply ltb_leb|by apply not_ltb_leb].
        -- intros _ _. by apply eqb_refl.
      * split; [done|]. split; [done|]. intros H _.
        by apply leb_not_ltb_eqb.
Qed.

(** X26. [createDefaultTruthValue] clamps each argument, or its default 1
    and 0, into [0, 1]: a component is between 0 and 1 unless the
    argument is [NaN], which it passes through, and an argument between
    0 and 1 is returned as it is. *)
Theorem createDefaultTruthValue_clamps (s u : option float) :
  clamped (default 1 s)
    (strength (createDefaultTruthValue s u)) /\
  clamped (default 0 u)
    (uncertainty (createDefaultTruthValue s u)) /\
  createDefaultTruthValue None None
  = {| strength := 1; uncertainty := 0 |}.
Proof.
  split; [apply clamp_clamped|]. split; [apply clamp_clamped|].
  reflexivity.
Qed.

(** [createDefaultTruthValue(NaN, 0.5)] has the strength [NaN], and
    the infinities are clamped. *)
Example createDefaultTruthValue_nan :
  createDefaultTruthValue (Some nan) (Some 0.5)
  = {| strength := nan; uncertainty := 0.5 |} /\
  createDefaultTruthValue (Some infinity) (Some neg_infinity)
  = {| strength := 1; uncertainty := 0 |}.
Proof. split; reflexivity. Qed.
End UtilitiesDoubleFacts.
